(** * Document-state reconciliation and verification: a Rocq model

    A shallow embedding of the block parser ([src/lib/utils.ts]), the
    session store ([src/lib/storage.ts]), the session page handlers
    ([src/app/session/[id]/page.tsx]), the stop handler of the chat panel
    and the verifier panel, with the properties the specification states
    about them. *)

From Stdlib Require Import ZArith NArith Ascii String List Sorted Lia.
From stdpp Require Import base tactics option list numbers gmap.

Local Open Scope N_scope.

(** ** JavaScript strings

    A JavaScript string is a sequence of UTF-16 code units; regular
    expressions without the [u] flag and [String.prototype.trim] work on
    code units. *)

Abbreviation jsstring := (list N).

(** The code units of an ASCII literal. *)
Definition js (s : string) : jsstring :=
  map N_of_ascii (list_ascii_of_string s).

(** WhiteSpace and LineTerminator of ECMAScript: what [trim] strips and what
    [\s] matches. *)
Definition is_white (c : N) : bool :=
  (c =? 9) || (c =? 10) || (c =? 11) || (c =? 12) || (c =? 13) || (c =? 32)
  || (c =? 160) || (c =? 5760) || ((8192 <=? c) && (c <=? 8202))
  || (c =? 8232) || (c =? 8233) || (c =? 8239) || (c =? 8287)
  || (c =? 12288) || (c =? 65279).

Definition newline : N := 10.
Definition tilde : N := 126.

Definition not_newline (c : N) : bool := negb (c =? newline).
Definition any_unit (_ : N) : bool := true.

Fixpoint drop_while (p : N -> bool) (s : jsstring) : jsstring :=
  match s with
  | [] => []
  | c :: s' => if p c then drop_while p s' else s
  end.

Fixpoint take_while (p : N -> bool) (s : jsstring) : jsstring :=
  match s with
  | [] => []
  | c :: s' => if p c then c :: take_while p s' else []
  end.

Definition trimStart (s : jsstring) : jsstring := drop_while is_white s.
Definition trimEnd (s : jsstring) : jsstring :=
  rev (drop_while is_white (rev s)).

(** [String.prototype.trim] *)
Definition trim (s : jsstring) : jsstring := trimEnd (trimStart s).

(** [strip_prefix w s] is the rest of [s] after its prefix [w], if [s]
    starts with [w]. *)
Fixpoint strip_prefix (w s : jsstring) : option jsstring :=
  match w with
  | [] => Some s
  | a :: w' =>
      match s with
      | [] => None
      | c :: s' => if a =? c then strip_prefix w' s' else None
      end
  end.

(** [s] contains [w] as a contiguous substring. *)
Definition occurs (w s : jsstring) : Prop :=
  exists u v, s = u ++ w ++ v.

Fixpoint occursb (w s : jsstring) : bool :=
  match strip_prefix w s with
  | Some _ => true
  | None => match s with [] => false | _ :: s' => occursb w s' end
  end.

(** ** A backtracking matcher for the regular expressions of the source

    A pattern is matched against the input at one position, in
    continuation-passing style: the continuation receives what a
    quantifier consumed and the input that is left, and its failure makes the
    quantifier try its next alternative, in the order ECMAScript prescribes
    (a greedy quantifier tries the longest repetition first, a lazy one the
    shortest). *)

Section Matcher.
Context {R : Type}.

(** a literal *)
Definition lit (w : jsstring) (s : jsstring) (k : jsstring -> option R)
  : option R :=
  match strip_prefix w s with
  | Some s' => k s'
  | None => None
  end.

(** a greedy, captured star of a character class: [( C* )] *)
Fixpoint greedy_star (p : N -> bool) (s : jsstring)
    (k : jsstring -> jsstring -> option R) : option R :=
  match s with
  | c :: s' =>
      if p c then
        match greedy_star p s' (fun cap rest => k (c :: cap) rest) with
        | Some r => Some r
        | None => k [] s
        end
      else k [] s
  | [] => k [] []
  end.

(** a greedy, captured plus: [( C+ )] *)
Definition greedy_plus (p : N -> bool) (s : jsstring)
    (k : jsstring -> jsstring -> option R) : option R :=
  match s with
  | c :: s' =>
      if p c then greedy_star p s' (fun cap rest => k (c :: cap) rest)
      else None
  | [] => None
  end.

(** a lazy, captured star: [( C*? )] *)
Fixpoint lazy_star (p : N -> bool) (s : jsstring)
    (k : jsstring -> jsstring -> option R) : option R :=
  match k [] s with
  | Some r => Some r
  | None =>
      match s with
      | c :: s' =>
          if p c then lazy_star p s' (fun cap rest => k (c :: cap) rest)
          else None
      | [] => None
      end
  end.

End Matcher.

(** ** The document block parser ([src/lib/utils.ts]) *)

Definition doc_marker : jsstring := js "~~~doc:".
Definition fence : jsstring := js "~~~".

(** One match of [docRegex]: capture groups 1 and 2 and the input after the
    match. *)
Record DocMatch := {
  m_label : jsstring;
  m_body : jsstring;
  m_rest : jsstring
}.

(** [/~~~doc:([^\n]+)\n([\s\S]*?)~~~/] matched at the start of [s]. *)
Definition docRegex_at (s : jsstring) : option DocMatch :=
  lit doc_marker s (fun s1 =>
  greedy_plus not_newline s1 (fun label s2 =>
  lit [newline] s2 (fun s3 =>
  lazy_star any_unit s3 (fun body s4 =>
  lit fence s4 (fun rest =>
  Some {| m_label := label; m_body := body; m_rest := rest |}))))).

(** The pieces a global ([g]) scan of [docRegex] cuts the text into: the code
    units no match covers, and the matches, in order. *)
Inductive piece :=
  | Outside (c : N)
  | Matched (label body : jsstring).

(** The successive matches of the global regex, as both [exec] in a loop and
    [replace] find them: the leftmost match at or after [lastIndex], then
    again from the end of that match.  [covered] counts the code units
    before [lastIndex] that are still ahead. *)
Fixpoint scan (covered : nat) (s : jsstring) : list piece :=
  match s with
  | [] => []
  | c :: s' =>
      match covered with
      | S n => scan n s'
      | O =>
          match docRegex_at s with
          | Some m =>
              Matched (m_label m) (m_body m)
                :: scan (length s' - length (m_rest m)) s'
          | None => Outside c :: scan 0 s'
          end
      end
  end.

Definition outside_text (ps : list piece) : jsstring :=
  flat_map (fun p => match p with Outside c => [c] | Matched _ _ => [] end) ps.

Definition matched_blocks (ps : list piece) : list (jsstring * jsstring) :=
  flat_map (fun p => match p with
                     | Outside _ => []
                     | Matched l b => [(l, b)]
                     end) ps.

(** *** The same match, read off the text

    What the backtracking of [docRegex] amounts to: the label is the whole
    rest of the marker line, and the body ends at the first fence after
    it. *)

(** the text before the first fence of [s], and the text after it *)
Fixpoint find_fence (s : jsstring) : option (jsstring * jsstring) :=
  match strip_prefix fence s with
  | Some rest => Some ([], rest)
  | None =>
      match s with
      | [] => None
      | c :: s' =>
          match find_fence s' with
          | Some (body, rest) => Some (c :: body, rest)
          | None => None
          end
      end
  end.

Definition docRegex_direct (s : jsstring) : option DocMatch :=
  match strip_prefix doc_marker s with
  | None => None
  | Some s1 =>
      match take_while not_newline s1, drop_while not_newline s1 with
      | (_ :: _) as label, _ :: s3 =>
          match find_fence s3 with
          | Some (body, rest) =>
              Some {| m_label := label; m_body := body; m_rest := rest |}
          | None => None
          end
      | _, _ => None
      end
  end.

(** ** Plain objects used as records keyed by strings

    [Record<string, T>] values are ordinary objects created by [{}] or by a
    spread: their own properties are kept here in creation order, and their
    prototype is [Object.prototype].  Both show in what the code computes:
    the enumeration order of the keys is the order of the versions a
    snapshot appends and of the groups the trimming concatenates, and a read
    or an assignment under a key that [Object.prototype] defines does not
    behave like one under a fresh key. *)

Fixpoint str_eqb (a b : jsstring) : bool :=
  match a, b with
  | [], [] => true
  | x :: a', y :: b' => (x =? y) && str_eqb a' b'
  | _, _ => false
  end.

Abbreviation JsObject V := (list (jsstring * V)).

(** The property names every ordinary object inherits from
    [Object.prototype]. *)
Definition Object_prototype_keys : list jsstring :=
  map js ["constructor"; "__defineGetter__"; "__defineSetter__";
          "hasOwnProperty"; "__lookupGetter__"; "__lookupSetter__";
          "isPrototypeOf"; "propertyIsEnumerable"; "toString"; "valueOf";
          "__proto__"; "toLocaleString"]%string.

Definition inherited (k : jsstring) : bool :=
  existsb (str_eqb k) Object_prototype_keys.

Definition proto_key : jsstring := js "__proto__".

(** An array index in the sense of ECMAScript: the canonical decimal form of
    an integer below [2^32 - 1].  Such keys are enumerated first. *)
Definition digit_value (c : N) : option N :=
  if (48 <=? c) && (c <=? 57) then Some (c - 48) else None.

Fixpoint digits_value (acc : N) (s : jsstring) : option N :=
  match s with
  | [] => Some acc
  | c :: s' =>
      match digit_value c with
      | Some d => digits_value (10 * acc + d) s'
      | None => None
      end
  end.

Definition array_index (k : jsstring) : option N :=
  match k with
  | [] => None
  | c :: rest =>
      if (c =? 48) && negb (match rest with [] => true | _ => false end)
      then None
      else match digits_value 0 k with
           | Some n => if n <? 4294967295 then Some n else None
           | None => None
           end
  end.

(** [Array.prototype.sort] with a comparator: a stable sort; [x] goes before
    [y] when [cmp x y] is negative, and equal elements keep their order. *)
Section Sort.
Context {A : Type} (cmp : A -> A -> Z).

Fixpoint sort_insert (x : A) (l : list A) : list A :=
  match l with
  | [] => [x]
  | y :: l' => if (cmp x y <=? 0)%Z then x :: l else y :: sort_insert x l'
  end.

Definition array_sort (l : list A) : list A := foldr sort_insert [] l.

End Sort.

Section JsObject.
Context {V : Type}.

(** the own property [k], if any *)
Fixpoint own_get (k : jsstring) (o : JsObject V) : option V :=
  match o with
  | [] => None
  | (k', v) :: o' => if str_eqb k k' then Some v else own_get k o'
  end.

(** overwrite the value of the own property [k] *)
Fixpoint own_update (k : jsstring) (v : V) (o : JsObject V) : JsObject V :=
  match o with
  | [] => []
  | (k', v') :: o' =>
      if str_eqb k k' then (k', v) :: o' else (k', v') :: own_update k v o'
  end.

(** [o[k] = v] for a value [v] that is not an object (here: a string).  An
    own property is overwritten and a new key is created last, except that
    the key [__proto__], when it is not an own property, reaches the setter
    inherited from [Object.prototype], which ignores a value that is neither
    an object nor null, and leaves [o] as it is. *)
Definition obj_assign (k : jsstring) (v : V) (o : JsObject V) : JsObject V :=
  match own_get k o with
  | Some _ => own_update k v o
  | None => if str_eqb k proto_key then o else o ++ [(k, v)]
  end.

(** [Object.entries(o)]: array-index keys in ascending numeric order, then
    the other keys in creation order. *)
Definition index_entries (o : JsObject V) : list (N * (jsstring * V)) :=
  flat_map (fun e => match array_index (fst e) with
                     | Some n => [(n, e)]
                     | None => []
                     end) o.

Definition named_entries (o : JsObject V) : JsObject V :=
  List.filter (fun e => match array_index (fst e) with
                        | Some _ => false
                        | None => true
                        end) o.

Definition obj_entries (o : JsObject V) : list (jsstring * V) :=
  map snd (array_sort (fun a b => Z.of_N (fst a) - Z.of_N (fst b))%Z
             (index_entries o))
  ++ named_entries o.

Definition obj_keys (o : JsObject V) : list jsstring := map fst (obj_entries o).
Definition obj_values (o : JsObject V) : list V := map snd (obj_entries o).

(** [{ ...o }]: a new object that receives the own properties of [o] in
    enumeration order. *)
Definition obj_spread (o : JsObject V) : JsObject V := obj_entries o.

(** no key is the name of two own properties *)
Definition obj_wf (o : JsObject V) : Prop := NoDup (map fst o).

End JsObject.

(** ** [parseDocumentBlocks] *)

Record ParsedBlocks := {
  cleanText : jsstring;
  documents : JsObject jsstring
}.

(** The [while] loop over [docRegex.exec(text)]: one assignment
    [documents[docType] = content] per match, in order. *)
Definition collect_documents (ms : list (jsstring * jsstring))
  : JsObject jsstring :=
  fold_left (fun docs m => obj_assign (trim (fst m)) (trim (snd m)) docs) ms [].

Definition parseDocumentBlocks (text : jsstring) : ParsedBlocks :=
  let pieces := scan 0 text in
  {| cleanText := trim (outside_text pieces);
     documents := collect_documents (matched_blocks pieces) |}.

(** ** Sessions and their storage ([src/lib/storage.ts]) *)

Inductive Role := user | assistant.

Record ChatMessage := {
  msg_id : jsstring;
  msg_role : Role;
  msg_content : jsstring;
  msg_timestamp : Z
}.

Inductive Source := generated | edited | harmonized.

Record DocVersion := {
  docType : jsstring;
  content : jsstring;
  timestamp : Z;
  source : Source
}.

Record Session := {
  s_id : jsstring;
  s_name : jsstring;
  s_instructionKey : jsstring;
  s_createdAt : Z;
  s_updatedAt : Z;
  s_messages : list ChatMessage;
  s_documents : JsObject jsstring;
  s_documentHistory : list DocVersion
}.

(** How a call ends: with a value, or with a thrown exception (a rejected
    promise, for an [async] function). *)
Inductive JsError := TypeError | SyntaxError.

Inductive Completion (A : Type) :=
  | Normal (a : A)
  | Throw (e : JsError).
Arguments Normal {A} a.
Arguments Throw {A} e.

Definition MAX_VERSIONS_PER_DOC : nat := 3.
Definition MAX_MESSAGES : nat := 200.

(** [(byDocType[v.docType] ??= []).push(v)].  The read goes through the
    prototype chain: for a key that names a property of [Object.prototype]
    it is not nullish, no array is created, and the inherited value has no
    [push] to call. *)
Definition group_push (v : DocVersion) (byDocType : JsObject (list DocVersion))
  : Completion (JsObject (list DocVersion)) :=
  match own_get (docType v) byDocType with
  | Some versions =>
      Normal (own_update (docType v) (versions ++ [v]) byDocType)
  | None =>
      if inherited (docType v) then Throw TypeError
      else Normal (byDocType ++ [(docType v, [v])])
  end.

Fixpoint group_versions (history : list DocVersion)
    (byDocType : JsObject (list DocVersion))
  : Completion (JsObject (list DocVersion)) :=
  match history with
  | [] => Normal byDocType
  | v :: history' =>
      match group_push v byDocType with
      | Normal byDocType' => group_versions history' byDocType'
      | Throw e => Throw e
      end
  end.

Definition newest_first (a b : DocVersion) : Z := timestamp b - timestamp a.
Definition oldest_first (a b : DocVersion) : Z := timestamp a - timestamp b.

(** [messages.slice(-MAX_MESSAGES)] when there are more than [MAX_MESSAGES] *)
Definition trim_messages (messages : list ChatMessage) : list ChatMessage :=
  if (MAX_MESSAGES <? length messages)%nat
  then drop (length messages - MAX_MESSAGES) messages
  else messages.

Definition keep_newest (versions : list DocVersion) : list DocVersion :=
  take MAX_VERSIONS_PER_DOC (array_sort newest_first versions).

Definition trimSession (session : Session) : Completion Session :=
  let messages := trim_messages (s_messages session) in
  match s_documentHistory session with
  | [] =>
      Normal {| s_id := s_id session; s_name := s_name session;
                s_instructionKey := s_instructionKey session;
                s_createdAt := s_createdAt session;
                s_updatedAt := s_updatedAt session;
                s_messages := messages;
                s_documents := s_documents session;
                s_documentHistory := [] |}
  | history =>
      match group_versions history [] with
      | Throw e => Throw e
      | Normal byDocType =>
          let kept := flat_map keep_newest (obj_values byDocType) in
          Normal {| s_id := s_id session; s_name := s_name session;
                    s_instructionKey := s_instructionKey session;
                    s_createdAt := s_createdAt session;
                    s_updatedAt := s_updatedAt session;
                    s_messages := messages;
                    s_documents := s_documents session;
                    s_documentHistory := array_sort oldest_first kept |}
      end
  end.

(** The object store [sessions] of the IndexedDB database, keyed by [id]. *)
Abbreviation SessionStore := (gmap (list N) Session).

(** [saveSession]: nothing is written where there is no [window]; a session
    whose trimming throws is not written either. *)
Definition saveSession (window_defined : bool) (db : SessionStore)
    (session : Session) : Completion SessionStore :=
  if window_defined then
    match trimSession session with
    | Normal trimmed => Normal (<[s_id trimmed := trimmed]> db)
    | Throw e => Throw e
    end
  else Normal db.

(** ** The verifier panel: types *)

Inductive Severity := critical | warning | info.

Record Evidence := { ev_doc : jsstring; ev_quote : jsstring }.

Record VerifierIssue := {
  i_id : jsstring;
  i_severity : Severity;
  i_type : jsstring;
  i_title : jsstring;
  i_description : jsstring;
  i_affectedDocs : list jsstring;
  i_evidence : list Evidence;
  i_fix : jsstring;
  i_targetDoc : jsstring
}.

Inductive VerifierPhase := idle | verifying | ready | harmonizing | done.

Record VerifierState := {
  phase : VerifierPhase;
  issues : list VerifierIssue;
  summary : jsstring;
  dismissed : list jsstring;
  applied : list jsstring;
  rawReport : jsstring
}.

Definition INITIAL_VERIFIER_STATE : VerifierState :=
  {| phase := idle; issues := []; summary := []; dismissed := [];
     applied := []; rawReport := [] |}.

(** ** The session page ([src/app/session/[id]/page.tsx])

    The state of the page ([session], [activeDoc], [verifierState]) together
    with the session store its handlers write to. *)

Record Page := {
  session : option Session;
  activeDoc : option jsstring;
  verifierState : VerifierState;
  store : SessionStore
}.

(** [void saveSession(updated)] in the browser: a rejection is dropped. *)
Definition save_and_forget (db : SessionStore) (updated : Session)
  : SessionStore :=
  match saveSession true db updated with
  | Normal db' => db'
  | Throw _ => db
  end.

Definition set_session (updated : Session) (p : Page) : Page :=
  {| session := Some updated; activeDoc := activeDoc p;
     verifierState := verifierState p;
     store := save_and_forget (store p) updated |}.

(** [handleDocumentsUpdate]; [now] is the value [Date.now()] returns. *)
Definition merge_documents (newDocs prevDocs : JsObject jsstring)
  : JsObject jsstring :=
  fold_left (fun mergedDocs e => obj_assign (fst e) (snd e) mergedDocs)
    (obj_entries newDocs) (obj_spread prevDocs).

Definition handleDocumentsUpdate (now : Z) (newDocs : JsObject jsstring)
    (p : Page) : Page :=
  let p' :=
    match session p with
    | None => p
    | Some prev =>
        set_session
          {| s_id := s_id prev; s_name := s_name prev;
             s_instructionKey := s_instructionKey prev;
             s_createdAt := s_createdAt prev;
             s_updatedAt := now;
             s_messages := s_messages prev;
             s_documents := merge_documents newDocs (s_documents prev);
             s_documentHistory := s_documentHistory prev |} p
    end in
  match obj_keys newDocs with
  | (_ :: _) as newDocType :: _ =>
      {| session := session p'; activeDoc := Some newDocType;
         verifierState := verifierState p'; store := store p' |}
  | _ => p'
  end.

(** [handleSnapshotVersions] *)
Definition new_versions (now : Z) (docs : JsObject jsstring) (src : Source)
  : list DocVersion :=
  map (fun e => {| docType := fst e; content := snd e; timestamp := now;
                   source := src |}) (obj_entries docs).

Definition handleSnapshotVersions (now : Z) (docs : JsObject jsstring)
    (src : Source) (p : Page) : Page :=
  match session p with
  | None => p
  | Some prev =>
      set_session
        {| s_id := s_id prev; s_name := s_name prev;
           s_instructionKey := s_instructionKey prev;
           s_createdAt := s_createdAt prev;
           s_updatedAt := now;
           s_messages := s_messages prev;
           s_documents := s_documents prev;
           s_documentHistory :=
             s_documentHistory prev ++ new_versions now docs src |} p
  end.

(** ** The verifier panel ([VerifierPanel]) *)

(** [String.prototype.match] with a regular expression that is not global:
    the leftmost position where the pattern matches. *)
Fixpoint regex_search {R} (pattern_at : jsstring -> option R) (s : jsstring)
  : option R :=
  match pattern_at s with
  | Some r => Some r
  | None =>
      match s with
      | [] => None
      | _ :: s' => regex_search pattern_at s'
      end
  end.

(** [/~~~issues\s*\n([\s\S]*?)~~~/] at the start of [s]: capture group 1. *)
Definition issuesRegex_at (s : jsstring) : option jsstring :=
  lit (js "~~~issues") s (fun s1 =>
  greedy_star is_white s1 (fun _ s2 =>
  lit [newline] s2 (fun s3 =>
  lazy_star any_unit s3 (fun body s4 =>
  lit fence s4 (fun _ => Some body))))).

Section Issues.
(** [JSON.parse], as far as the panel relies on it: the parsed value, taken
    at the type the source casts it to, or the [SyntaxError] it throws. *)
Variable JSON_parse : jsstring -> Completion (list VerifierIssue).

Definition parseIssuesFromResponse (text : jsstring)
  : Completion (list VerifierIssue) :=
  match regex_search issuesRegex_at text with
  | None => Normal []
  | Some interior =>
      match JSON_parse interior with
      | Normal parsed => Normal parsed
      | Throw _ => Normal []
      end
  end.

End Issues.

(** The calls the panel makes on its props and on the network. *)
Inductive Mode := verify | harmonize.

Inductive Effect :=
  | onVerifierStateChange (state : VerifierState)
  | onSnapshotVersions (docs : JsObject jsstring) (src : Source)
  | fetch_verify (docs : JsObject jsstring) (mode : Mode) (report : jsstring)
  | onDocumentsUpdate (docs : JsObject jsstring).

(** How the request ends: [fetch] rejects, the status is not ok or reading
    the stream fails (all of which throw inside the [try]); or the stream is
    read to its end and [full] is the text accumulated from it. *)
Inductive FetchOutcome :=
  | Failed
  | Streamed (full : jsstring).

Definition mem (x : jsstring) (l : list jsstring) : bool :=
  existsb (str_eqb x) l.

Definition is_info (s : Severity) : bool :=
  match s with info => true | _ => false end.

Definition severity_text (s : Severity) : jsstring :=
  match s with
  | critical => js "critical"
  | warning => js "warning"
  | info => js "info"
  end.

Fixpoint join (sep : jsstring) (parts : list jsstring) : jsstring :=
  match parts with
  | [] => []
  | [x] => x
  | x :: rest => x ++ sep ++ join sep rest
  end.

(** the issues apply-all works on *)
Definition remaining_issues (vs : VerifierState) : list VerifierIssue :=
  List.filter (fun i => negb (mem (i_id i) (dismissed vs))
                        && negb (mem (i_id i) (applied vs))
                        && negb (is_info (i_severity i)))
    (issues vs).

Definition issue_text (i : VerifierIssue) : jsstring :=
  js "- " ++ i_id i ++ js " (" ++ severity_text (i_severity i) ++ js "): "
  ++ i_title i ++ [newline] ++ js "  Target: " ++ i_targetDoc i
  ++ [newline] ++ js "  Fix: " ++ i_fix i.

Definition apply_all_report (remaining : list VerifierIssue) : jsstring :=
  js "Fix ALL of the following issues:" ++ [newline; newline]
  ++ join [newline; newline] (map issue_text remaining).

Definition with_phase (ph : VerifierPhase) (vs : VerifierState)
  : VerifierState :=
  {| phase := ph; issues := issues vs; summary := summary vs;
     dismissed := dismissed vs; applied := applied vs;
     rawReport := rawReport vs |}.

Definition with_phase_applied (ph : VerifierPhase) (ids : list jsstring)
    (vs : VerifierState) : VerifierState :=
  {| phase := ph; issues := issues vs; summary := summary vs;
     dismissed := dismissed vs; applied := ids;
     rawReport := rawReport vs |}.

(** [applyAllFixes], for the props [documents] (here [docs]) and
    [verifierState] of the render the callback belongs to. *)
Definition applyAllFixes (docs : JsObject jsstring)
    (verifierState : VerifierState) (outcome : FetchOutcome) : list Effect :=
  let remaining := remaining_issues verifierState in
  match remaining with
  | [] => []
  | _ =>
      [ onVerifierStateChange (with_phase harmonizing verifierState);
        onSnapshotVersions docs harmonized;
        fetch_verify docs harmonize (apply_all_report remaining) ]
      ++ match outcome with
         | Failed => [ onVerifierStateChange (with_phase ready verifierState) ]
         | Streamed full =>
             let correctedDocs := documents (parseDocumentBlocks full) in
             match obj_keys correctedDocs with
             | [] => []
             | _ => [ onDocumentsUpdate correctedDocs ]
             end
             ++ [ onVerifierStateChange
                    (with_phase_applied done
                       (applied verifierState ++ map i_id remaining)
                       verifierState) ]
         end
  end.

(** The page's reaction to one call; [now] is the reading of [Date.now()]
    its handler makes. *)
Definition handle (now : Z) (e : Effect) (p : Page) : Page :=
  match e with
  | onVerifierStateChange state =>
      {| session := session p; activeDoc := activeDoc p;
         verifierState := state; store := store p |}
  | onSnapshotVersions docs src => handleSnapshotVersions now docs src p
  | fetch_verify _ _ _ => p
  | onDocumentsUpdate docs => handleDocumentsUpdate now docs p
  end.

(** The calls of one run, in order; [clock n] is the time of the [n]-th. *)
Fixpoint handle_all (clock : nat -> Z) (n : nat) (es : list Effect) (p : Page)
  : Page :=
  match es with
  | [] => p
  | e :: es' => handle_all clock (S n) es' (handle (clock n) e p)
  end.

(** A click on "apply all" while the page shows a session. *)
Definition apply_all (clock : nat -> Z) (outcome : FetchOutcome) (p : Page)
  : Page :=
  match session p with
  | None => p
  | Some s =>
      handle_all clock 0
        (applyAllFixes (s_documents s) (verifierState p) outcome) p
  end.

Definition snapshot_count (es : list Effect) : nat :=
  length (List.filter (fun e => match e with
                                | onSnapshotVersions _ _ => true
                                | _ => false
                                end) es).

Definition request_count (es : list Effect) : nat :=
  length (List.filter (fun e => match e with
                                | fetch_verify _ _ _ => true
                                | _ => false
                                end) es).

(** the history of the session the page shows *)
Definition page_history (p : Page) : list DocVersion :=
  match session p with
  | Some s => s_documentHistory s
  | None => []
  end.

(** ** The chat panel: [handleStop] *)

Inductive ChatEffect :=
  | abort
  | onStreamingChange (streaming : bool)
  | onMessagesUpdate (messages : list ChatMessage)
  | chat_onDocumentsUpdate (docs : JsObject jsstring)
  | setStreamingContent (text : jsstring).

(** [a || b] on strings: the empty string is falsy. *)
Definition or_else (a b : jsstring) : jsstring :=
  match a with [] => b | _ => a end.

(** [uuid] and [now] are what [crypto.randomUUID()] and [Date.now()]
    return. *)
Definition handleStop (uuid : jsstring) (now : Z)
    (messages : list ChatMessage) (streamingContent : jsstring)
  : list ChatEffect :=
  [ abort; onStreamingChange false ]
  ++ match streamingContent with
     | [] => []
     | _ =>
         let parsed := parseDocumentBlocks streamingContent in
         let assistantMsg :=
           {| msg_id := uuid; msg_role := assistant;
              msg_content := or_else (cleanText parsed) streamingContent;
              msg_timestamp := now |} in
         [ onMessagesUpdate (messages ++ [assistantMsg]) ]
         ++ match obj_keys (documents parsed) with
            | [] => []
            | _ => [ chat_onDocumentsUpdate (documents parsed) ]
            end
         ++ [ setStreamingContent [] ]
     end.

(** the verifier state with its info-severity issues left out *)
Definition without_info (vs : VerifierState) : VerifierState :=
  {| phase := phase vs;
     issues := List.filter (fun i => negb (is_info (i_severity i))) (issues vs);
     summary := summary vs; dismissed := dismissed vs; applied := applied vs;
     rawReport := rawReport vs |}.

(** the versions of one document type, in the order of the history *)
Definition versions_of (d : jsstring) (history : list DocVersion)
  : list DocVersion :=
  List.filter (fun v => str_eqb (docType v) d) history.

(** [byDocType] holds, under each document type of [history] and under no
    other key, the versions of that type in the order of [history]. *)
Definition grouped (byDocType : JsObject (list DocVersion))
    (history : list DocVersion) : Prop :=
  obj_wf byDocType
  /\ (forall k vs, In (k, vs) byDocType -> vs = versions_of k history)
  /\ (forall v, In v history -> In (docType v) (map fst byDocType)).

(** ** Well-formed streams and example inputs *)

(** A closed block as the generation output spells it:
    [~~~doc:<label>], a line break, the body and the closing fence. *)
Record DocBlock := { b_label : jsstring; b_body : jsstring }.

Definition block_text (b : DocBlock) : jsstring :=
  doc_marker ++ b_label b ++ newline :: b_body b ++ fence.

(** prose, then blocks each followed by prose *)
Definition stream_text (prose : jsstring) (rest : list (DocBlock * jsstring))
  : jsstring :=
  prose ++ flat_map (fun bp => block_text (fst bp) ++ snd bp) rest.

(** The label line is not empty, and the closing fence is the first fence
    after it: the body holds no fence and does not end in a tilde. *)
Definition closed_block (b : DocBlock) : Prop :=
  b_label b <> [] /\ ~ In newline (b_label b)
  /\ ~ occurs fence (b_body b) /\ last (b_body b) <> Some tilde.

(** The text holds a marker line that some later fence closes. *)
Definition has_closed_block (text : jsstring) : Prop :=
  exists pre label tail,
    text = pre ++ doc_marker ++ label ++ newline :: tail
    /\ label <> [] /\ ~ In newline label /\ occurs fence tail.

Definition nl : string := String (ascii_of_N 10) EmptyString.

Definition scenarioA : jsstring :=
  js ("Here is your PRD." ++ nl ++ "~~~doc:PRD" ++ nl ++ "# My PRD" ++ nl
      ++ "content" ++ nl ++ "~~~" ++ nl ++ "Done.").

Definition scenarioC : jsstring :=
  js ("Summary text ~~~doc:Tech Spec" ++ nl ++ "# Spec" ++ nl).

Definition two_PRD_blocks : jsstring :=
  js ("~~~doc:PRD" ++ nl ++ "first" ++ nl ++ "~~~" ++ nl
      ++ "~~~doc:PRD" ++ nl ++ "second" ++ nl ++ "~~~").

Definition two_proto_blocks : jsstring :=
  js ("~~~doc:__proto__" ++ nl ++ "first" ++ nl ++ "~~~" ++ nl
      ++ "~~~doc:__proto__" ++ nl ++ "second" ++ nl ++ "~~~").

(** scenario A, as prose and blocks *)
Definition scenarioA_prose : jsstring := js ("Here is your PRD." ++ nl).

Definition scenarioA_rest : list (DocBlock * jsstring) :=
  [({| b_label := js "PRD";
       b_body := js ("# My PRD" ++ nl ++ "content" ++ nl) |},
    js (nl ++ "Done."))].

(** a marker that is not closed by a fence of its own: the start of the
    next marker closes it *)
Definition overlapping_markers : jsstring :=
  js ("~~~doc:A" ++ nl ++ "foo ~~~doc:B" ++ nl ++ "bar").

(** prose with a tilde in it, around one block *)
Definition prose_with_tilde : jsstring :=
  js ("cost ~5" ++ nl ++ "~~~doc:PRD" ++ nl ++ "body" ++ nl ++ "~~~"
      ++ nl ++ "about ~~ 2 days").

(** two blocks whose labels are array indices, the greater one first *)
Definition numeric_labels : jsstring :=
  js ("~~~doc:2" ++ nl ++ "second" ++ nl ++ "~~~" ++ nl
      ++ "~~~doc:1" ++ nl ++ "first" ++ nl ++ "~~~").

(** ** Example sessions and reports *)

Definition example_issue (id : string) (sev : Severity) (target : string)
  : VerifierIssue :=
  {| i_id := js id; i_severity := sev; i_type := js "contradiction";
     i_title := js "title"; i_description := js "description";
     i_affectedDocs := [js target]; i_evidence := [];
     i_fix := js "fix"; i_targetDoc := js target |}.

(** three issues to fix over two target documents, and one of severity
    info *)
Definition example_report : VerifierState :=
  {| phase := ready;
     issues := [ example_issue "R-001" critical "PRD";
                 example_issue "R-002" warning "Architecture";
                 example_issue "R-003" warning "PRD";
                 example_issue "R-004" info "PRD" ];
     summary := js "summary"; dismissed := []; applied := [];
     rawReport := js "raw" |}.

Definition info_only_report : VerifierState :=
  {| phase := ready;
     issues := [ example_issue "R-004" info "PRD" ];
     summary := js "summary"; dismissed := []; applied := [];
     rawReport := js "raw" |}.

Definition example_session (docs : JsObject jsstring)
    (history : list DocVersion) : Session :=
  {| s_id := js "s-1"; s_name := js "demo"; s_instructionKey := js "master";
     s_createdAt := 1; s_updatedAt := 1; s_messages := [];
     s_documents := docs; s_documentHistory := history |}.

Definition example_page (docs : JsObject jsstring) (vs : VerifierState)
  : Page :=
  {| session := Some (example_session docs []); activeDoc := None;
     verifierState := vs; store := ∅ |}.

Definition two_documents : JsObject jsstring :=
  [(js "PRD", js "v1"); (js "Architecture", js "a1")].

Definition example_clock (n : nat) : Z := 1000 + Z.of_nat n.

Definition version_at (d : string) (t : Z) : DocVersion :=
  {| docType := js d; content := js "text"; timestamp := t;
     source := generated |}.

Definition five_versions : list DocVersion :=
  [ version_at "PRD" 50; version_at "PRD" 10; version_at "PRD" 40;
    version_at "PRD" 20; version_at "PRD" 30 ].

(** For the examples: a parser that accepts the empty array and throws on
    every other text, as [JSON.parse] throws on [NOT_JSON]. *)
Definition parse_empty_array_only (s : jsstring)
  : Completion (list VerifierIssue) :=
  if str_eqb (trim s) (js "[]") then Normal [] else Throw SyntaxError.

Definition malformed_issues : jsstring :=
  js ("~~~issues" ++ nl ++ "NOT_JSON~~~").

(** * More of the code

    The functions below are the neighbours of the ones above: the rest of
    [src/lib/utils.ts] and of the storage module, the other handlers of the
    session page, the other callbacks of the verifier and chat panels, the
    slugs of the export bar, and the diff the history viewer draws. *)

(** ** Global regular expressions, in general

    [pattern_at at_start s] matches the pattern at the start of [s], where
    [at_start] tells whether [s] is the whole text (the position is index
    0), and returns what it captured and the input after the match.  None of
    the patterns used with it matches the empty string. *)

Inductive part (R : Type) :=
  | Kept (c : N)
  | Found (r : R).
Arguments Kept {R} c.
Arguments Found {R} r.

Section Global.
Context {R : Type}.
Variable pattern_at : bool -> jsstring -> option (R * jsstring).

(** the successive matches of a global regex, with the code units between
    them; [covered] as in [scan] *)
Fixpoint split_matches (at_start : bool) (covered : nat) (s : jsstring)
  : list (part R) :=
  match s with
  | [] => []
  | c :: s' =>
      match covered with
      | S n => split_matches false n s'
      | O =>
          match pattern_at at_start s with
          | Some (r, rest) =>
              Found r :: split_matches false (length s' - length rest) s'
          | None => Kept c :: split_matches false 0 s'
          end
      end
  end.

End Global.

Definition found_matches {R} (ps : list (part R)) : list R :=
  flat_map (fun p => match p with Kept _ => [] | Found r => [r] end) ps.

(** [text.replace(regex, replacement)] for a constant replacement *)
Definition replace_matches {R} (replacement : jsstring) (ps : list (part R))
  : jsstring :=
  flat_map (fun p => match p with Kept c => [c] | Found _ => replacement end) ps.

(** ** [parseImageMarkers] ([src/lib/utils.ts]) *)

Definition image_marker : jsstring := js "~~~image:".
Definition not_tilde (c : N) : bool := negb (c =? tilde).

(** [/~~~image:([^~]+)~~~/] at the start of [s] *)
Definition imageRegex_at (_ : bool) (s : jsstring)
  : option (jsstring * jsstring) :=
  lit image_marker s (fun s1 =>
  greedy_plus not_tilde s1 (fun description s2 =>
  lit fence s2 (fun rest => Some (description, rest)))).

Definition parseImageMarkers (text : jsstring) : list jsstring :=
  map trim (found_matches (split_matches imageRegex_at true 0 text)).

(** the match read off the text: the description is the run of code units
    other than the tilde after the marker, and a fence follows it *)
Definition imageRegex_direct (s : jsstring) : option (jsstring * jsstring) :=
  match strip_prefix image_marker s with
  | None => None
  | Some s1 =>
      match take_while not_tilde s1 with
      | [] => None
      | description =>
          match strip_prefix fence (drop_while not_tilde s1) with
          | Some rest => Some (description, rest)
          | None => None
          end
      end
  end.

(** prose, then image markers each followed by prose *)
Definition image_stream (prose : jsstring) (rest : list (jsstring * jsstring))
  : jsstring :=
  prose ++ flat_map (fun dp => image_marker ++ fst dp ++ fence ++ snd dp) rest.

(** ** [truncate] ([src/lib/utils.ts]) *)

Definition ellipsis : N := 8230.

(** [str.slice(0, end)] for an integer [end]: a negative [end] counts from
    the end of the string. *)
Definition slice_to (str : jsstring) (e : Z) : jsstring :=
  if (e <? 0)%Z
  then take (Z.to_nat (Z.max (Z.of_nat (length str) + e) 0)) str
  else take (Z.to_nat e) str.

Definition truncate (str : jsstring) (maxLength : Z) : jsstring :=
  if (Z.of_nat (length str) <=? maxLength)%Z then str
  else slice_to str maxLength ++ [ellipsis].

(** two markers for the same picture, one for another, with prose between *)
Definition image_example : jsstring :=
  js "See ~~~image: login flow ~~~ and ~~~image:schema~~~, then ~~~image: login flow ~~~.".

(** ** The verifier panel: the entropy score *)

Definition severity_eqb (a b : Severity) : bool :=
  match a, b with
  | critical, critical | warning, warning | info, info => true
  | _, _ => false
  end.

(** [issues.filter((i) => i.severity === sev).length] *)
Definition count_severity (sev : Severity) (l : list VerifierIssue) : nat :=
  length (List.filter (fun i => severity_eqb (i_severity i) sev) l).

Inductive Entropy := CRITICAL | HIGH | MEDIUM | LOW.

Definition entropyScore (l : list VerifierIssue) : Entropy :=
  if (0 <? count_severity critical l)%nat then CRITICAL
  else if (2 <? count_severity warning l)%nat then HIGH
  else if (0 <? count_severity warning l)%nat then MEDIUM
  else LOW.

(** ** The verifier panel: the summary, one fix, and [runVerify] *)

(** [/~~~summary\s*\n([\s\S]*?)~~~/] at the start of [s]: capture group 1. *)
Definition summaryRegex_at (s : jsstring) : option jsstring :=
  lit (js "~~~summary") s (fun s1 =>
  greedy_star is_white s1 (fun _ s2 =>
  lit [newline] s2 (fun s3 =>
  lazy_star any_unit s3 (fun body s4 =>
  lit fence s4 (fun _ => Some body))))).

Definition parseSummaryFromResponse (text : jsstring) : jsstring :=
  match regex_search summaryRegex_at text with
  | Some interior => trim interior
  | None => []
  end.

(** How [\s*\n] is matched: the positions after the line breaks of the white
    space the star runs over, the last one first. *)
Fixpoint after_line_breaks (s : jsstring) : list jsstring :=
  match s with
  | c :: s' =>
      if is_white c
      then after_line_breaks s' ++ (if c =? newline then [s'] else [])
      else []
  | [] => []
  end.

Fixpoint first_some {A R} (k : A -> option R) (l : list A) : option R :=
  match l with
  | [] => None
  | x :: l' => match k x with Some r => Some r | None => first_some k l' end
  end.

(** The calls of the panel: those on the page, and those on its own state
    and on the optional [onReportReady]. *)
Inductive PanelCall :=
  | page_call (e : Effect)
  | fetch_verification (docs : JsObject jsstring)
  | setStreamingText (text : jsstring)
  | setApplyingId (id : option jsstring)
  | onReportReady (report : jsstring).

Definition single_fix_report (i : VerifierIssue) : jsstring :=
  js "Fix the following issue:" ++ [newline; newline]
  ++ js "ID: " ++ i_id i ++ [newline]
  ++ js "Title: " ++ i_title i ++ [newline]
  ++ js "Target Document: " ++ i_targetDoc i ++ [newline]
  ++ js "Fix: " ++ i_fix i ++ [newline]
  ++ js "Description: " ++ i_description i.

(** [applySingleFix], for the props of the render the callback belongs to *)
Definition applySingleFix (docs : JsObject jsstring)
    (verifierState : VerifierState) (issue : VerifierIssue)
    (outcome : FetchOutcome) : list PanelCall :=
  [ setApplyingId (Some (i_id issue));
    page_call (onSnapshotVersions docs harmonized);
    page_call (fetch_verify docs harmonize (single_fix_report issue)) ]
  ++ match outcome with
     | Failed => []
     | Streamed full =>
         let correctedDocs := documents (parseDocumentBlocks full) in
         match obj_keys correctedDocs with
         | [] => []
         | _ => [ page_call (onDocumentsUpdate correctedDocs) ]
         end
         ++ [ page_call
                (onVerifierStateChange
                   (with_phase_applied (phase verifierState)
                      (applied verifierState ++ [i_id issue])
                      verifierState)) ]
     end
  ++ [ setApplyingId None ].

(** How reading the stream ends. *)
Inductive StreamEnd := stream_done | stream_aborted | stream_failed.

(** the texts shown while the stream is read: one per text received *)
Fixpoint running_texts (full : jsstring) (texts : list jsstring)
  : list jsstring :=
  match texts with
  | [] => []
  | t :: texts' => (full ++ t) :: running_texts (full ++ t) texts'
  end.

Definition verification_failed : jsstring :=
  [9888; 65039] ++ js " Verification failed. Please try again.".

Definition with_summary (ph : VerifierPhase) (text : jsstring)
    (vs : VerifierState) : VerifierState :=
  {| phase := ph; issues := issues vs; summary := text;
     dismissed := dismissed vs; applied := applied vs;
     rawReport := rawReport vs |}.

Section Verify.
Variable JSON_parse : jsstring -> Completion (list VerifierIssue).

(** [runVerify]; [texts] are the non-empty texts the stream delivers before
    it ends. *)
Definition runVerify (docs : JsObject jsstring) (verifierState : VerifierState)
    (texts : list jsstring) (ending : StreamEnd) : list PanelCall :=
  if (length (obj_keys docs) <? 2)%nat then []
  else
    [ page_call
        (onVerifierStateChange
           {| phase := verifying; issues := []; summary := [];
              dismissed := []; applied := []; rawReport := [] |});
      setStreamingText [];
      fetch_verification docs ]
    ++ map setStreamingText (running_texts [] texts)
    ++ match ending with
       | stream_done =>
           let full := concat texts in
           match parseIssuesFromResponse JSON_parse full with
           | Normal parsedIssues =>
               [ page_call
                   (onVerifierStateChange
                      {| phase := ready; issues := parsedIssues;
                         summary := parseSummaryFromResponse full;
                         dismissed := dismissed verifierState;
                         applied := applied verifierState;
                         rawReport := full |});
                 onReportReady full ]
           | Throw _ =>
               [ page_call
                   (onVerifierStateChange
                      (with_summary ready verification_failed
                         verifierState)) ]
           end
       | stream_aborted =>
           [ page_call (onVerifierStateChange (with_phase idle verifierState)) ]
       | stream_failed =>
           [ page_call
               (onVerifierStateChange
                  (with_summary ready verification_failed verifierState)) ]
       end.

End Verify.

(** [handleReportReady] *)
Definition handleReportReady (report : jsstring) (p : Page) : Page :=
  {| session := session p; activeDoc := activeDoc p;
     verifierState :=
       {| phase := phase (verifierState p); issues := issues (verifierState p);
          summary := summary (verifierState p);
          dismissed := dismissed (verifierState p);
          applied := applied (verifierState p); rawReport := report |};
     store := store p |}.

(** The page's reaction to one call of the panel. *)
Definition handle_panel (now : Z) (c : PanelCall) (p : Page) : Page :=
  match c with
  | page_call e => handle now e p
  | onReportReady report => handleReportReady report p
  | fetch_verification _ | setStreamingText _ | setApplyingId _ => p
  end.

Fixpoint handle_panel_all (clock : nat -> Z) (n : nat) (cs : list PanelCall)
    (p : Page) : Page :=
  match cs with
  | [] => p
  | c :: cs' => handle_panel_all clock (S n) cs' (handle_panel (clock n) c p)
  end.

Definition panel_snapshots (cs : list PanelCall) : nat :=
  length (List.filter (fun c => match c with
                                | page_call (onSnapshotVersions _ _) => true
                                | _ => false
                                end) cs).

Definition panel_requests (cs : list PanelCall) : nat :=
  length (List.filter (fun c => match c with
                                | page_call (fetch_verify _ _ _)
                                | fetch_verification _ => true
                                | _ => false
                                end) cs).

Definition example_summary_report : jsstring :=
  js ("Report." ++ nl ++ "~~~summary" ++ nl ++ nl ++ "  Two conflicts. " ++ nl
      ++ "~~~" ++ nl ++ "~~~issues" ++ nl ++ "[]" ++ nl ++ "~~~").

(** ** The chat panel: [sendMessage] *)

Inductive ImageStatus :=
  | img_loading
  | img_done (imageData mimeType : jsstring)
  | img_error (fallbackText : option jsstring).

Record PendingImage := { img_prompt : jsstring; img_status : ImageStatus }.

(** The calls of [sendMessage]: those [handleStop] makes as well, and those
    on the input, on the pending images and on the network. *)
Inductive ChatCall :=
  | chat_call (e : ChatEffect)
  | setInput (text : jsstring)
  | setPendingImages (images : list PendingImage)
  | fetch_chat (message : jsstring) (history : list (Role * jsstring))
      (existingDocs : JsObject jsstring) (verifyReport : option jsstring)
  | fetch_image (prompt : jsstring).

Definition connection_error : jsstring :=
  [9888; 65039]
  ++ js " Connection error. Please check your API key and try again.".

(** [verifyReport || undefined] *)
Definition or_undefined (s : jsstring) : option jsstring :=
  match s with [] => None | _ => Some s end.

Section SendMessage.
(** the props and the state of the render the callback belongs to *)
Variable messages : list ChatMessage.
Variable isStreaming : bool.
Variable existingDocs : JsObject jsstring.
Variable verifyReport : jsstring.
(** what [crypto.randomUUID()] and [Date.now()] return, for the message of
    the user and for the one that follows *)
Variables (uuid1 uuid2 : jsstring) (now1 now2 : Z).
(** how the [n]-th call of [generateImage] ends *)
Variable generateImage : nat -> jsstring -> ImageStatus.

Definition generated_images (prompts : list jsstring) : list PendingImage :=
  imap (fun n p => {| img_prompt := p; img_status := generateImage n p |})
    prompts.

(** [texts] are the non-empty texts the stream delivers before it ends. *)
Definition sendMessage (messageText : jsstring) (texts : list jsstring)
    (ending : StreamEnd) : list ChatCall :=
  let trimmed := trim messageText in
  match trimmed with
  | [] => []
  | _ =>
      if isStreaming then []
      else
        let userMsg :=
          {| msg_id := uuid1; msg_role := user; msg_content := trimmed;
             msg_timestamp := now1 |} in
        let newMessages := messages ++ [userMsg] in
        [ chat_call (onMessagesUpdate newMessages);
          setInput [];
          chat_call (setStreamingContent []);
          setPendingImages [];
          chat_call (onStreamingChange true);
          fetch_chat trimmed
            (map (fun m => (msg_role m, msg_content m)) messages)
            existingDocs (or_undefined verifyReport) ]
        ++ map (fun t => chat_call (setStreamingContent t))
             (running_texts [] texts)
        ++ match ending with
           | stream_done =>
               let fullText := concat texts in
               let parsed := parseDocumentBlocks fullText in
               let imagePrompts := parseImageMarkers fullText in
               let assistantMsg :=
                 {| msg_id := uuid2; msg_role := assistant;
                    msg_content := or_else (cleanText parsed) fullText;
                    msg_timestamp := now2 |} in
               [ chat_call (onMessagesUpdate (newMessages ++ [assistantMsg])) ]
               ++ match obj_keys (documents parsed) with
                  | [] => []
                  | _ => [ chat_call (chat_onDocumentsUpdate (documents parsed)) ]
                  end
               ++ match imagePrompts with
                  | [] => []
                  | _ =>
                      [ setPendingImages
                          (map (fun p => {| img_prompt := p;
                                            img_status := img_loading |})
                             imagePrompts) ]
                      ++ map fetch_image imagePrompts
                      ++ [ setPendingImages (generated_images imagePrompts) ]
                  end
           | stream_aborted => []
           | stream_failed =>
               [ chat_call
                   (onMessagesUpdate
                      (newMessages
                       ++ [ {| msg_id := uuid2; msg_role := assistant;
                               msg_content := connection_error;
                               msg_timestamp := now2 |} ])) ]
           end
        ++ [ chat_call (setStreamingContent []);
             chat_call (onStreamingChange false) ]
  end.

End SendMessage.

(** the message lists a run hands to the page, in order *)
Definition messages_updates (cs : list ChatCall) : list (list ChatMessage) :=
  flat_map (fun c => match c with
                     | chat_call (onMessagesUpdate ms) => [ms]
                     | _ => []
                     end) cs.

Definition chat_requests (cs : list ChatCall) : nat :=
  length (List.filter (fun c => match c with
                                | fetch_chat _ _ _ _ => true
                                | _ => false
                                end) cs).

Definition no_images (_ : nat) (_ : jsstring) : ImageStatus :=
  img_error None.

(** a reply that is one document block and nothing else *)
Definition block_only_reply : jsstring :=
  js ("~~~doc:PRD" ++ nl ++ "# My PRD" ++ nl ++ "~~~" ++ nl).

(** ** The line diff of the history viewer ([computeDiff], [DiffViewer]) *)

Inductive DiffType := add | remove | same.

Record DiffLine := {
  d_type : DiffType;
  d_content : jsstring;
  oldLineNo : option nat;
  newLineNo : option nat
}.

(** [text.split("\n")] *)
Fixpoint split_lines (s : jsstring) : list jsstring :=
  match s with
  | [] => [[]]
  | c :: s' =>
      if c =? newline then [] :: split_lines s'
      else match split_lines s' with
           | l :: ls => (c :: l) :: ls
           | [] => [[c]]
           end
  end.

(** The table [dp]: [dp ro rn] is the entry [dp[i][j]] for the first [i]
    old lines and the first [j] new lines, given last line first. *)
Fixpoint dp (ro : list jsstring) : list jsstring -> nat :=
  fix dp_row (rn : list jsstring) : nat :=
    match ro, rn with
    | a :: ro', b :: rn' =>
        if str_eqb a b then S (dp ro' rn')
        else Nat.max (dp ro' rn) (dp_row rn')
    | _, _ => O
    end.

(** The loop that walks the table back from [dp[m][n]]: the lines it pushes,
    in the order it pushes them. *)
Fixpoint backtrack (ro : list jsstring) : list jsstring -> list DiffLine :=
  fix backtrack_row (rn : list jsstring) : list DiffLine :=
    match ro, rn with
    | a :: ro', b :: rn' =>
        if str_eqb a b then
          {| d_type := same; d_content := a;
             oldLineNo := Some (length ro); newLineNo := Some (length rn) |}
          :: backtrack ro' rn'
        else if (dp ro' rn <=? dp ro rn')%nat then
          {| d_type := add; d_content := b;
             oldLineNo := None; newLineNo := Some (length rn) |}
          :: backtrack_row rn'
        else
          {| d_type := remove; d_content := a;
             oldLineNo := Some (length ro); newLineNo := None |}
          :: backtrack ro' rn
    | [], b :: rn' =>
        {| d_type := add; d_content := b;
           oldLineNo := None; newLineNo := Some (length rn) |}
        :: backtrack_row rn'
    | a :: ro', [] =>
        {| d_type := remove; d_content := a;
           oldLineNo := Some (length ro); newLineNo := None |}
        :: backtrack ro' []
    | [], [] => []
    end.

Definition computeDiff (oldText newText : jsstring) : list DiffLine :=
  rev (backtrack (rev (split_lines oldText)) (rev (split_lines newText))).

Definition is_add (d : DiffLine) : bool :=
  match d_type d with add => true | _ => false end.
Definition is_remove (d : DiffLine) : bool :=
  match d_type d with remove => true | _ => false end.
Definition is_same (d : DiffLine) : bool :=
  match d_type d with same => true | _ => false end.

(** [stats] and [isIdentical] of [DiffViewer] *)
Definition added (diff : list DiffLine) : nat :=
  length (List.filter is_add diff).
Definition removed (diff : list DiffLine) : nat :=
  length (List.filter is_remove diff).
Definition isIdentical (diff : list DiffLine) : bool :=
  (added diff =? 0)%nat && (removed diff =? 0)%nat.

(** lines with their numbers, from [n] on *)
Fixpoint numbered (n : nat) (ls : list jsstring)
  : list (option nat * jsstring) :=
  match ls with
  | [] => []
  | l :: ls' => (Some n, l) :: numbered (S n) ls'
  end.

(** the lines, last first, with the numbers they have first to last *)
Definition old_numbers (ro : list jsstring) : list (option nat * jsstring) :=
  rev (numbered 1 (rev ro)).

Definition old_text_example : jsstring :=
  js ("# Title" ++ nl ++ "alpha" ++ nl ++ "beta" ++ nl ++ "gamma").
Definition new_text_example : jsstring :=
  js ("# Title" ++ nl ++ "beta" ++ nl ++ "delta" ++ nl ++ "gamma").

(** ** [slugify] ([ExportBar]) *)

Definition dash : N := 45.

(** [[a-z0-9]] *)
Definition is_slug_unit (c : N) : bool :=
  ((97 <=? c) && (c <=? 122)) || ((48 <=? c) && (c <=? 57)).

Definition not_slug_unit (c : N) : bool := negb (is_slug_unit c).

(** [/[^a-z0-9]+/g], at one position *)
Definition separatorRegex_at (_ : bool) (s : jsstring)
  : option (unit * jsstring) :=
  greedy_plus not_slug_unit s (fun _ rest => Some (tt, rest)).

(** [/^-|-$/g], at one position *)
Definition edgeRegex_at (at_start : bool) (s : jsstring)
  : option (unit * jsstring) :=
  match s with
  | c :: rest =>
      if c =? dash then
        if at_start then Some (tt, rest)
        else match rest with
             | [] => Some (tt, [])
             | _ => None
             end
      else None
  | [] => None
  end.

Section Slug.
(** [String.prototype.toLowerCase] *)
Variable toLowerCase : jsstring -> jsstring.

Definition slugify (str : jsstring) : jsstring :=
  replace_matches []
    (split_matches edgeRegex_at true 0
       (replace_matches [dash]
          (split_matches separatorRegex_at true 0 (toLowerCase str)))).

End Slug.

Definition slug_unit_or_dash (c : N) : Prop :=
  is_slug_unit c = true \/ c = dash.

(** a string without two dashes in a row *)
Fixpoint no_double_dash (t : jsstring) : Prop :=
  match t with
  | a :: t' =>
      match t' with
      | b :: _ => ~ (a = dash /\ b = dash)
      | [] => True
      end /\ no_double_dash t'
  | [] => True
  end.

(** a string without its last unit, if that is a dash *)
Fixpoint drop_last_dash (u : jsstring) : jsstring :=
  match u with
  | [] => []
  | c :: u' =>
      match u' with
      | [] => if c =? dash then [] else [c]
      | _ => c :: drop_last_dash u'
      end
  end.

(** lower case for the letters A to Z, and nothing else: enough for the
    examples *)
Definition ascii_lower (s : jsstring) : jsstring :=
  map (fun c => if (65 <=? c) && (c <=? 90) then c + 32 else c) s.

(** documents of which one is named by a year *)
Definition numbered_documents : JsObject jsstring :=
  [(js "PRD", js "p"); (js "2024", js "plan"); (js "7", js "seven")].

(** ** The diff the document preview shows ([DocPreview], [DiffViewer]) *)

(** [DiffViewer]: the versions newest first, the one at [selectedIdx] (a
    state of the component, 0 at first) compared with the current content.
    Past the end of the versions there is no version to read the content
    of. *)
Definition DiffViewer (selectedIdx : nat) (currentContent : jsstring)
    (versions : list DocVersion) : Completion (list DiffLine) :=
  match array_sort newest_first versions !! selectedIdx with
  | Some selectedVersion =>
      Normal (computeDiff (content selectedVersion) currentContent)
  | None => Throw TypeError
  end.

(** What the preview shows in diff mode, the verifier closed: the diff
    viewer, when a document is active and has versions in the history. *)
Definition preview_diff (selectedIdx : nat) (p : Page)
  : option (Completion (list DiffLine)) :=
  match session p, activeDoc p with
  | Some s, Some ((_ :: _) as d) =>
      match versions_of d (s_documentHistory s) with
      | [] => None
      | currentDocVersions =>
          Some match own_get d (s_documents s) with
               | Some currentContent =>
                   DiffViewer selectedIdx currentContent currentDocVersions
               | None =>
                   if inherited d then Throw TypeError
                   else DiffViewer selectedIdx [] currentDocVersions
               end
      end
  | _, _ => None
  end.

(** [onSelectDoc], which is [setActiveDoc] *)
Definition setActiveDoc (d : jsstring) (p : Page) : Page :=
  {| session := session p; activeDoc := Some d;
     verifierState := verifierState p; store := store p |}.

(** ** The debounced save ([src/lib/storage.ts]) and the handlers of the
    session page that the verifier does not call

    The page together with the two module variables of the storage module,
    [_debounceTimer] (the delay of the one live timer, if any) and
    [_pendingSession]. *)

Record App := {
  page : Page;
  debounceTimer : option Z;
  pendingSession : option Session
}.

Definition with_store (db : SessionStore) (p : Page) : Page :=
  {| session := session p; activeDoc := activeDoc p;
     verifierState := verifierState p; store := db |}.

(** a handler of the page that leaves the module variables alone *)
Definition on_page (f : Page -> Page) (a : App) : App :=
  {| page := f (page a); debounceTimer := debounceTimer a;
     pendingSession := pendingSession a |}.

(** [debouncedSaveSession]: the earlier timer, if any, is cleared and a new
    one is set. *)
Definition debouncedSaveSession (s : Session) (delayMs : Z) (a : App) : App :=
  {| page := page a; debounceTimer := Some delayMs;
     pendingSession := Some s |}.

(** what the timer's callback and [flushPendingSave] both do *)
Definition save_pending (a : App) : App :=
  {| page := match pendingSession a with
             | Some s => with_store (save_and_forget (store (page a)) s)
                           (page a)
             | None => page a
             end;
     debounceTimer := None; pendingSession := None |}.

(** the live timer fires; without a live timer nothing happens *)
Definition timer_fires (a : App) : App :=
  match debounceTimer a with
  | Some _ => save_pending a
  | None => a
  end.

Definition flushPendingSave (a : App) : App := save_pending a.

(** [handleMessagesUpdate] *)
Definition handleMessagesUpdate (now : Z) (messages : list ChatMessage)
    (a : App) : App :=
  match session (page a) with
  | None => a
  | Some prev =>
      let updated :=
        {| s_id := s_id prev; s_name := s_name prev;
           s_instructionKey := s_instructionKey prev;
           s_createdAt := s_createdAt prev;
           s_updatedAt := now;
           s_messages := messages;
           s_documents := s_documents prev;
           s_documentHistory := s_documentHistory prev |} in
      debouncedSaveSession updated 300
        {| page := {| session := Some updated; activeDoc := activeDoc (page a);
                      verifierState := verifierState (page a);
                      store := store (page a) |};
           debounceTimer := debounceTimer a;
           pendingSession := pendingSession a |}
  end.

(** A computed key in an object literal defines an own property, whatever
    its name: no setter of the prototype is called. *)
Definition obj_define {V} (k : jsstring) (v : V) (o : JsObject V)
  : JsObject V :=
  match own_get k o with
  | Some _ => own_update k v o
  | None => o ++ [(k, v)]
  end.

(** [handleDocumentEdit] *)
Definition handleDocumentEdit (now : Z) (editedType newContent : jsstring)
    (p : Page) : Page :=
  match session p with
  | None => p
  | Some prev =>
      set_session
        {| s_id := s_id prev; s_name := s_name prev;
           s_instructionKey := s_instructionKey prev;
           s_createdAt := s_createdAt prev;
           s_updatedAt := now;
           s_messages := s_messages prev;
           s_documents :=
             obj_define editedType newContent (obj_spread (s_documents prev));
           s_documentHistory := s_documentHistory prev |} p
  end.

(** calls of [debouncedSaveSession] in a row, with the default delay *)
Definition debounce_all (ss : list Session) (a : App) : App :=
  fold_left (fun a s => debouncedSaveSession s 300 a) ss a.

Definition example_app (docs : JsObject jsstring) : App :=
  {| page := example_page docs INITIAL_VERIFIER_STATE;
     debounceTimer := None; pendingSession := None |}.

Definition example_message (id text : string) : ChatMessage :=
  {| msg_id := js id; msg_role := user; msg_content := js text;
     msg_timestamp := 5 |}.

Definition mixed_versions : list DocVersion :=
  [ version_at "PRD" 50; version_at "Roadmap" 10; version_at "PRD" 40;
    version_at "Roadmap" 20; version_at "PRD" 30 ].

(** a session of 201 messages *)
Definition long_chat : Session :=
  {| s_id := js "s-2"; s_name := js "long"; s_instructionKey := js "master";
     s_createdAt := 1; s_updatedAt := 2;
     s_messages := example_message "first" "hello"
                   :: repeat (example_message "m" "again") 200;
     s_documents := two_documents; s_documentHistory := five_versions |}.

(** * Properties *)

(** ** Strings *)

Lemma str_eqb_eq a b : str_eqb a b = true <-> a = b.
Proof.
  revert b; induction a as [|x a IH]; intros [|y b]; simpl; try easy.
  rewrite andb_true_iff, N.eqb_eq, IH. split.
  - intros [-> ->]; reflexivity.
  - intros [= -> ->]; auto.
Qed.

Lemma str_eqb_refl a : str_eqb a a = true.
Proof. apply str_eqb_eq; reflexivity. Qed.

Lemma str_eqb_neq a b : str_eqb a b = false <-> a <> b.
Proof.
  rewrite <- str_eqb_eq. destruct (str_eqb a b); split; congruence.
Qed.

Lemma strip_prefix_Some w s r : strip_prefix w s = Some r <-> s = w ++ r.
Proof.
  revert s; induction w as [|a w IH]; intros s; simpl.
  - split; congruence.
  - destruct s as [|c s]; [split; discriminate|].
    destruct (N.eqb_spec a c) as [->|Hne].
    + rewrite IH. split; congruence.
    + split; [discriminate | congruence].
Qed.

Lemma strip_prefix_app w r : strip_prefix w (w ++ r) = Some r.
Proof. apply strip_prefix_Some; reflexivity. Qed.

Lemma occursb_occurs w s : occursb w s = true <-> occurs w s.
Proof.
  induction s as [|c s IH].
  - simpl. destruct (strip_prefix w []) eqn:E.
    + apply strip_prefix_Some in E. split; [|easy].
      intros _. exists [], l. exact E.
    + split; [discriminate|]. intros (u & v & H).
      destruct u; [|discriminate]. simpl in H.
      symmetry in H. apply app_eq_nil in H as [-> ->]. discriminate.
  - simpl. destruct (strip_prefix w (c :: s)) eqn:E.
    + apply strip_prefix_Some in E. split; [|easy].
      intros _. exists [], l. exact E.
    + rewrite IH. split.
      * intros (u & v & ->). exists (c :: u), v. reflexivity.
      * intros (u & v & H). destruct u as [|c' u].
        -- simpl in H. rewrite H, strip_prefix_app in E. discriminate.
        -- injection H as _ ->. exists u, v. reflexivity.
Qed.

Lemma occurs_app_l w u s : occurs w s -> occurs w (u ++ s).
Proof.
  intros (a & b & ->). exists (u ++ a), b. now rewrite <- app_assoc.
Qed.

Lemma occurs_app_r w s v : occurs w s -> occurs w (s ++ v).
Proof.
  intros (a & b & ->). exists a, (b ++ v). now rewrite <- !app_assoc.
Qed.

Lemma occurs_cons w c s : occurs w s -> occurs w (c :: s).
Proof. apply (occurs_app_l w [c]). Qed.

Lemma occurs_In w c s : In c w -> occurs w s -> In c s.
Proof.
  intros Hc (u & v & ->). apply in_or_app; right. apply in_or_app; now left.
Qed.

(** ** The matcher *)

Lemma lazy_star_fence {R} (f : jsstring -> jsstring -> R) s :
  lazy_star any_unit s
    (fun body s4 => lit fence s4 (fun rest => Some (f body rest)))
  = match find_fence s with
    | Some (b, r) => Some (f b r)
    | None => None
    end.
Proof.
  revert f; induction s as [|c s IH]; intros f.
  - reflexivity.
  - cbn [lazy_star find_fence]. unfold lit at 1.
    destruct (strip_prefix fence (c :: s)) eqn:E; [reflexivity|].
    cbn [any_unit]. rewrite (IH (fun cap rest => f (c :: cap) rest)).
    now destruct (find_fence s) as [[b r]|].
Qed.

Lemma lit_newline_cons {R} c s (k : jsstring -> option R) :
  lit [newline] (c :: s) k = if not_newline c then None else k s.
Proof.
  unfold lit, not_newline; cbn [strip_prefix].
  rewrite (N.eqb_sym newline c). now destruct (c =? newline).
Qed.

Lemma greedy_star_line {R} (k : jsstring -> jsstring -> option R) s :
  greedy_star not_newline s (fun cap rest => lit [newline] rest (k cap))
  = match drop_while not_newline s with
    | _ :: s3 => k (take_while not_newline s) s3
    | [] => None
    end.
Proof.
  revert k; induction s as [|c s IH]; intros k.
  - reflexivity.
  - cbn [greedy_star drop_while take_while]. rewrite lit_newline_cons.
    destruct (not_newline c) eqn:Hc; [|reflexivity].
    rewrite (IH (fun cap => k (c :: cap))).
    destruct (drop_while not_newline s) as [|d s3]; [reflexivity|].
    now destruct (k (c :: take_while not_newline s) s3).
Qed.

Lemma docRegex_at_direct s : docRegex_at s = docRegex_direct s.
Proof.
  unfold docRegex_at, docRegex_direct, lit at 1.
  destruct (strip_prefix doc_marker s) as [s1|]; [|reflexivity].
  destruct s1 as [|c s1]; [reflexivity|].
  cbn [greedy_plus take_while drop_while].
  destruct (not_newline c); [|reflexivity].
  rewrite (greedy_star_line
             (fun cap s3 => lazy_star any_unit s3 (fun body s4 =>
                lit fence s4 (fun rest =>
                  Some {| m_label := c :: cap; m_body := body;
                          m_rest := rest |})))).
  destruct (drop_while not_newline s1) as [|d s3]; [reflexivity|].
  apply (lazy_star_fence
           (fun body rest => {| m_label := c :: take_while not_newline s1;
                                m_body := body; m_rest := rest |})).
Qed.

Lemma take_drop_while p s : take_while p s ++ drop_while p s = s.
Proof.
  induction s as [|c s IH]; [reflexivity|]. simpl.
  destruct (p c); [simpl; now rewrite IH | reflexivity].
Qed.

Lemma take_while_Forall p s : Forall (fun c => p c = true) (take_while p s).
Proof.
  induction s as [|c s IH]; simpl; [constructor|].
  destruct (p c) eqn:E; constructor; assumption.
Qed.

Lemma drop_while_head p s d s' : drop_while p s = d :: s' -> p d = false.
Proof.
  induction s as [|c s IH]; simpl; [discriminate|].
  destruct (p c) eqn:E; [assumption|]. now intros [= <- _].
Qed.

Lemma take_while_app_stop p u d s :
  Forall (fun c => p c = true) u -> p d = false ->
  take_while p (u ++ d :: s) = u /\ drop_while p (u ++ d :: s) = d :: s.
Proof.
  intros Hu Hd. induction Hu as [|c u Hc _ [IH1 IH2]]; simpl.
  - now rewrite Hd.
  - rewrite Hc. now rewrite IH1, IH2.
Qed.

Lemma not_newline_false c : not_newline c = false <-> c = newline.
Proof.
  unfold not_newline. destruct (N.eqb_spec c newline); simpl; split; congruence.
Qed.

Lemma not_newline_true c : not_newline c = true <-> c <> newline.
Proof.
  unfold not_newline. destruct (N.eqb_spec c newline); simpl; split; congruence.
Qed.

(** *** The first fence *)

Lemma find_fence_decomp s b r : find_fence s = Some (b, r) -> s = b ++ fence ++ r.
Proof.
  revert b; induction s as [|c s IH]; intros b; cbn [find_fence].
  - destruct (strip_prefix fence []) eqn:E; [|discriminate].
    intros [= <- <-]. now apply strip_prefix_Some in E.
  - destruct (strip_prefix fence (c :: s)) eqn:E.
    + intros [= <- <-]. now apply strip_prefix_Some in E.
    + destruct (find_fence s) as [[b' r']|]; [|discriminate].
      intros [= <- <-]. simpl. f_equal. now apply IH.
Qed.

Lemma find_fence_clean s b r : find_fence s = Some (b, r) -> ~ occurs fence b.
Proof.
  revert b; induction s as [|c s IH]; intros b; cbn [find_fence].
  - destruct (strip_prefix fence []); [|discriminate].
    intros [= <- <-] (u & v & H). now destruct u.
  - destruct (strip_prefix fence (c :: s)) eqn:E.
    + intros [= <- <-] (u & v & H). now destruct u.
    + destruct (find_fence s) as [[b' r']|] eqn:F; [|discriminate].
      intros [= <- <-] (u & v & H). destruct u as [|c' u].
      * apply find_fence_decomp in F. subst s.
        change (c :: b' ++ fence ++ r') with ((c :: b') ++ fence ++ r') in E.
        rewrite H in E. cbn [app] in E.
        rewrite <- app_assoc, strip_prefix_app in E. discriminate.
      * injection H as _ ->. apply (IH _ eq_refl). now exists u, v.
Qed.

Lemma find_fence_here r : find_fence (fence ++ r) = Some ([], r).
Proof.
  destruct (fence ++ r) eqn:E; [discriminate|]. rewrite <- E.
  rewrite E at 1. cbn [find_fence]. rewrite <- E.
  now rewrite strip_prefix_app.
Qed.

Lemma find_fence_complete s : occurs fence s -> is_Some (find_fence s).
Proof.
  intros (u & v & ->). induction u as [|c u IH]; cbn [find_fence app].
  - rewrite find_fence_here. eexists; reflexivity.
  - destruct (strip_prefix fence _); [eexists; reflexivity|].
    destruct IH as [[b r] ->]. eexists; reflexivity.
Qed.

Lemma find_fence_exact b r :
  ~ occurs fence b -> last b <> Some tilde ->
  find_fence (b ++ fence ++ r) = Some (b, r).
Proof.
  induction b as [|c b IH]; intros Hocc Hlast; cbn [find_fence app].
  - apply find_fence_here.
  - assert (E : strip_prefix fence (c :: b ++ fence ++ r) = None).
    { destruct (strip_prefix fence (c :: b ++ fence ++ r)) eqn:E; [|easy].
      exfalso. apply strip_prefix_Some in E.
      destruct b as [|d [|e b]]; cbn in E, Hlast.
      - injection E as -> _. now apply Hlast.
      - injection E as -> -> _. now apply Hlast.
      - injection E as -> -> -> _. apply Hocc. now exists [], b. }
    rewrite E, IH; [reflexivity | |].
    + intros H. apply Hocc. now apply occurs_cons.
    + destruct b; [easy | exact Hlast].
Qed.

(** *** One match of [docRegex] *)

Lemma docRegex_at_Some s m :
  docRegex_at s = Some m ->
  s = doc_marker ++ m_label m ++ newline :: m_body m ++ fence ++ m_rest m
  /\ m_label m <> []
  /\ ~ In newline (m_label m)
  /\ ~ occurs fence (m_body m).
Proof.
  rewrite docRegex_at_direct. unfold docRegex_direct.
  destruct (strip_prefix doc_marker s) as [s1|] eqn:E; [|discriminate].
  apply strip_prefix_Some in E.
  pose proof (take_drop_while not_newline s1) as Hsplit.
  pose proof (take_while_Forall not_newline s1) as Hlabel.
  destruct (take_while not_newline s1) as [|c label]; [discriminate|].
  destruct (drop_while not_newline s1) as [|d s3] eqn:D; [discriminate|].
  apply drop_while_head, not_newline_false in D. subst d.
  destruct (find_fence s3) as [[body rest]|] eqn:F; [|discriminate].
  intros [= <-]; cbn [m_label m_body m_rest]. repeat split.
  - apply find_fence_decomp in F. now rewrite E, <- Hsplit, F.
  - discriminate.
  - intros Hin. rewrite List.Forall_forall in Hlabel.
    apply Hlabel in Hin. now apply not_newline_true in Hin.
  - now apply find_fence_clean in F.
Qed.

Lemma docRegex_at_complete label tail :
  label <> [] -> ~ In newline label -> occurs fence tail ->
  exists m, docRegex_at (doc_marker ++ label ++ newline :: tail) = Some m
            /\ m_label m = label.
Proof.
  intros Hne Hnl Hocc.
  rewrite docRegex_at_direct. unfold docRegex_direct.
  rewrite strip_prefix_app.
  destruct (take_while_app_stop not_newline label newline tail) as [-> ->].
  - apply List.Forall_forall. intros c Hc. apply not_newline_true. congruence.
  - now apply not_newline_false.
  - destruct label as [|c label]; [congruence|].
    apply find_fence_complete in Hocc as [[b r] ->].
    eexists; split; reflexivity.
Qed.

Lemma docRegex_at_exact label body rest :
  label <> [] -> ~ In newline label ->
  ~ occurs fence body -> last body <> Some tilde ->
  docRegex_at (doc_marker ++ label ++ newline :: body ++ fence ++ rest)
  = Some {| m_label := label; m_body := body; m_rest := rest |}.
Proof.
  intros Hne Hnl Hocc Hlast.
  rewrite docRegex_at_direct. unfold docRegex_direct.
  rewrite strip_prefix_app.
  destruct (take_while_app_stop not_newline label newline
              (body ++ fence ++ rest)) as [-> ->].
  - apply List.Forall_forall. intros c Hc. apply not_newline_true. congruence.
  - now apply not_newline_false.
  - destruct label as [|c label]; [congruence|].
    now rewrite find_fence_exact.
Qed.

Lemma docRegex_at_tilde c s : c <> tilde -> docRegex_at (c :: s) = None.
Proof.
  intros Hc. destruct (docRegex_at (c :: s)) as [m|] eqn:E; [|reflexivity].
  apply docRegex_at_Some in E as [E _]. now injection E.
Qed.

(** *** The global scan *)

Lemma scan_covered u r : scan (length u) (u ++ r) = scan 0 r.
Proof. induction u as [|c u IH]; [reflexivity | exact IH]. Qed.

Lemma scan_match s m :
  docRegex_at s = Some m ->
  scan 0 s = Matched (m_label m) (m_body m) :: scan 0 (m_rest m).
Proof.
  intros E. pose proof (docRegex_at_Some _ _ E) as [Hs _].
  destruct s as [|c s']; [discriminate|].
  cbn [scan]. rewrite E. f_equal.
  remember (m_label m ++ newline :: m_body m ++ fence) as w.
  assert (Hs' : c :: s' = (doc_marker ++ w) ++ m_rest m).
  { rewrite Hs, Heqw. now rewrite <- !app_assoc, <- app_comm_cons, <- !app_assoc. }
  destruct (doc_marker ++ w) as [|c' u] eqn:Eu; [discriminate|].
  injection Hs' as _ ->.
  rewrite length_app, Nat.add_sub. apply scan_covered.
Qed.

Lemma scan_nomatch c s :
  docRegex_at (c :: s) = None -> scan 0 (c :: s) = Outside c :: scan 0 s.
Proof. intros E. cbn [scan]. now rewrite E. Qed.

Lemma docRegex_at_rest_shorter s m :
  docRegex_at s = Some m -> (length (m_rest m) < length s)%nat.
Proof.
  intros E. apply docRegex_at_Some in E as [-> _].
  repeat (rewrite length_app || cbn [length]). lia.
Qed.

(** Induction along the scan: a match and then the text after it, or an
    unmatched code unit and then the text after it. *)
Lemma scan_induction (P : jsstring -> list piece -> Prop) :
  P [] [] ->
  (forall s m, docRegex_at s = Some m ->
     P (m_rest m) (scan 0 (m_rest m)) ->
     P s (Matched (m_label m) (m_body m) :: scan 0 (m_rest m))) ->
  (forall c s, docRegex_at (c :: s) = None ->
     P s (scan 0 s) -> P (c :: s) (Outside c :: scan 0 s)) ->
  forall s, P s (scan 0 s).
Proof.
  intros Hnil Hmatch Hout s.
  induction s as [s IH] using (induction_ltof1 _ (@length N)).
  unfold ltof in IH.
  destruct (docRegex_at s) as [m|] eqn:E.
  - rewrite (scan_match _ _ E). apply Hmatch; [exact E|].
    apply IH. now apply docRegex_at_rest_shorter.
  - destruct s as [|c s]; [exact Hnil|].
    rewrite (scan_nomatch _ _ E). apply Hout; [exact E|].
    apply IH. cbn. lia.
Qed.

(** ** [trim] *)

Lemma trim_infix s : exists u v, s = u ++ trim s ++ v.
Proof.
  unfold trim, trimEnd, trimStart.
  exists (take_while is_white s).
  exists (rev (take_while is_white (rev (drop_while is_white s)))).
  rewrite <- rev_app_distr, take_drop_while, rev_involutive.
  now rewrite take_drop_while.
Qed.

Lemma trim_occurs w s : occurs w (trim s) -> occurs w s.
Proof.
  intros H. destruct (trim_infix s) as (u & v & E). rewrite E.
  now apply occurs_app_l, occurs_app_r.
Qed.

Lemma trim_In c s : In c (trim s) -> In c s.
Proof.
  intros H. destruct (trim_infix s) as (u & v & E). rewrite E.
  apply in_or_app; right. apply in_or_app; now left.
Qed.

(** ** Objects *)

Section ObjectFacts.
Context {V : Type}.
Implicit Types (o : JsObject V) (k : jsstring) (v : V).

Lemma own_get_app k o o' :
  own_get k (o ++ o') = match own_get k o with
                        | Some v => Some v
                        | None => own_get k o'
                        end.
Proof.
  induction o as [|[k' v'] o IH]; [reflexivity|]. simpl.
  now destruct (str_eqb k k').
Qed.

Lemma own_get_update_eq k v o :
  is_Some (own_get k o) -> own_get k (own_update k v o) = Some v.
Proof.
  induction o as [|[k' v'] o IH]; simpl; [now intros [? ?]|].
  destruct (str_eqb k k') eqn:E; simpl; rewrite E; auto.
Qed.

Lemma own_get_update_ne k k' v o :
  k <> k' -> own_get k (own_update k' v o) = own_get k o.
Proof.
  intros Hne. induction o as [|[k0 v0] o IH]; [reflexivity|]. simpl.
  destruct (str_eqb k' k0) eqn:E; simpl.
  - apply str_eqb_eq in E as <-. apply str_eqb_neq in Hne. now rewrite Hne.
  - now rewrite IH.
Qed.

Lemma obj_assign_get_eq k v o :
  k <> proto_key -> own_get k (obj_assign k v o) = Some v.
Proof.
  intros Hk. unfold obj_assign. destruct (own_get k o) eqn:E.
  - apply own_get_update_eq. now rewrite E.
  - apply str_eqb_neq in Hk. rewrite Hk, own_get_app, E. simpl.
    now rewrite str_eqb_refl.
Qed.

Lemma obj_assign_get_own k v o :
  is_Some (own_get k o) -> own_get k (obj_assign k v o) = Some v.
Proof.
  intros H. unfold obj_assign. destruct (own_get k o) eqn:E.
  - apply own_get_update_eq. now rewrite E.
  - now destruct H.
Qed.

Lemma obj_assign_get_ne k k' v o :
  k <> k' -> own_get k (obj_assign k' v o) = own_get k o.
Proof.
  intros Hne. unfold obj_assign. destruct (own_get k' o) eqn:E.
  - now apply own_get_update_ne.
  - destruct (str_eqb k' proto_key); [reflexivity|].
    rewrite own_get_app. destruct (own_get k o); [reflexivity|]. simpl.
    apply str_eqb_neq in Hne. now rewrite Hne.
Qed.

End ObjectFacts.

(** ** Sorting and enumeration *)

Section SortFacts.
Context {A : Type} (cmp : A -> A -> Z).

Lemma sort_insert_perm x l : Permutation (sort_insert cmp x l) (x :: l).
Proof.
  induction l as [|y l IH]; simpl; [reflexivity|].
  destruct (cmp x y <=? 0)%Z; [reflexivity|].
  rewrite IH. apply perm_swap.
Qed.

Lemma array_sort_perm l : Permutation (array_sort cmp l) l.
Proof.
  induction l as [|x l IH]; simpl; [reflexivity|].
  rewrite sort_insert_perm. now constructor.
Qed.

Lemma array_sort_In x l : In x (array_sort cmp l) <-> In x l.
Proof.
  split; apply Permutation_in; [|symmetry]; apply array_sort_perm.
Qed.

Lemma array_sort_length l : length (array_sort cmp l) = length l.
Proof. apply Permutation_length, array_sort_perm. Qed.

End SortFacts.

Section EntriesFacts.
Context {V : Type}.
Implicit Types (o : JsObject V).

Lemma index_named_perm o :
  Permutation (map snd (index_entries o) ++ named_entries o) o.
Proof.
  induction o as [|[k v] o IH]; [reflexivity|].
  unfold index_entries, named_entries in *. cbn [flat_map List.filter fst].
  destruct (array_index k); cbn [app map snd].
  - now constructor.
  - rewrite <- Permutation_middle. now constructor.
Qed.

Lemma obj_entries_perm o : Permutation (obj_entries o) o.
Proof.
  unfold obj_entries. rewrite array_sort_perm. apply index_named_perm.
Qed.

Lemma obj_entries_In e o : In e (obj_entries o) <-> In e o.
Proof.
  split; apply Permutation_in; [|symmetry]; apply obj_entries_perm.
Qed.

Lemma obj_entries_length o : length (obj_entries o) = length o.
Proof. apply Permutation_length, obj_entries_perm. Qed.

Lemma obj_keys_perm o : Permutation (obj_keys o) (map fst o).
Proof. unfold obj_keys. apply Permutation_map, obj_entries_perm. Qed.

Lemma obj_keys_NoDup o : obj_wf o -> NoDup (obj_keys o).
Proof. unfold obj_wf. now rewrite obj_keys_perm. Qed.

End EntriesFacts.

(** ** The parser *)

Lemma outside_text_all s : outside_text (map Outside s) = s.
Proof. induction s as [|c s IH]; [reflexivity|]. simpl. now rewrite IH. Qed.

Lemma matched_blocks_all s : matched_blocks (map Outside s) = [].
Proof. induction s as [|c s IH]; [reflexivity | exact IH]. Qed.

Lemma outside_text_app ps qs :
  outside_text (ps ++ qs) = outside_text ps ++ outside_text qs.
Proof. apply flat_map_app. Qed.

Lemma matched_blocks_app ps qs :
  matched_blocks (ps ++ qs) = matched_blocks ps ++ matched_blocks qs.
Proof. apply flat_map_app. Qed.

Lemma matched_bodies_clean text :
  Forall (fun m => ~ occurs fence (snd m)) (matched_blocks (scan 0 text)).
Proof.
  apply (scan_induction (fun _ ps =>
    Forall (fun m => ~ occurs fence (snd m)) (matched_blocks ps))).
  - constructor.
  - intros s m E IH. apply docRegex_at_Some in E as (_ & _ & _ & Hc).
    now constructor.
  - intros c s _ IH. exact IH.
Qed.

Section ValueInvariant.
Context {V : Type} (P : V -> Prop).

Lemma own_update_values k v (o : JsObject V) :
  P v -> Forall (fun e => P (snd e)) o ->
  Forall (fun e => P (snd e)) (own_update k v o).
Proof.
  intros Hv Ho. induction Ho as [|[k0 v0] o H0 Ho IH]; simpl; [constructor|].
  destruct (str_eqb k k0); constructor; assumption.
Qed.

Lemma obj_assign_values k v (o : JsObject V) :
  P v -> Forall (fun e => P (snd e)) o ->
  Forall (fun e => P (snd e)) (obj_assign k v o).
Proof.
  intros Hv Ho. unfold obj_assign. destruct (own_get k o).
  - now apply own_update_values.
  - destruct (str_eqb k proto_key); [assumption|].
    apply Forall_app; split; [assumption|]. now repeat constructor.
Qed.

End ValueInvariant.

Lemma fold_assign_values (P : jsstring -> Prop) ms (o : JsObject jsstring) :
  Forall (fun e => P (snd e)) o ->
  Forall (fun m => P (trim (snd m))) ms ->
  Forall (fun e => P (snd e))
    (fold_left (fun docs m => obj_assign (trim (fst m)) (trim (snd m)) docs)
       ms o).
Proof.
  revert o; induction ms as [|m ms IH]; intros o Ho Hms; [exact Ho|].
  apply Forall_cons in Hms as [Hm Hms]. cbn [fold_left].
  apply IH; [|exact Hms]. now apply obj_assign_values.
Qed.

Lemma collect_documents_values (P : jsstring -> Prop) ms :
  Forall (fun m => P (trim (snd m))) ms ->
  Forall (fun e => P (snd e)) (collect_documents ms).
Proof. apply fold_assign_values. constructor. Qed.

Lemma own_get_In {V} k (v : V) o : own_get k o = Some v -> In (k, v) o.
Proof.
  induction o as [|[k' v'] o IH]; simpl; [discriminate|].
  destruct (str_eqb k k') eqn:E.
  - apply str_eqb_eq in E as ->. intros [= ->]. now left.
  - intros H. right. now apply IH.
Qed.

Lemma fold_assign_keeps ms k (o : JsObject jsstring) :
  Forall (fun m => trim (fst m) <> k) ms ->
  own_get k (fold_left
               (fun docs m => obj_assign (trim (fst m)) (trim (snd m)) docs)
               ms o)
  = own_get k o.
Proof.
  revert o; induction ms as [|m ms IH]; intros o Hms; [reflexivity|].
  apply Forall_cons in Hms as [Hm Hms]. cbn [fold_left].
  rewrite IH by exact Hms. apply obj_assign_get_ne. congruence.
Qed.

Lemma collect_documents_last before l b after :
  trim l <> proto_key ->
  Forall (fun m => trim (fst m) <> trim l) after ->
  own_get (trim l) (collect_documents (before ++ (l, b) :: after))
  = Some (trim b).
Proof.
  intros Hk Hafter. unfold collect_documents.
  rewrite fold_left_app. cbn [fold_left fst snd].
  rewrite fold_assign_keeps by exact Hafter.
  now apply obj_assign_get_eq.
Qed.

(** *** Texts without a closed block *)

Lemma has_closed_block_cons c text :
  has_closed_block text -> has_closed_block (c :: text).
Proof.
  intros (pre & label & tail & -> & H). now exists (c :: pre), label, tail.
Qed.

Lemma docRegex_at_has_block s m :
  docRegex_at s = Some m -> has_closed_block s.
Proof.
  intros E. apply docRegex_at_Some in E as (Hs & Hne & Hnl & _).
  exists [], (m_label m), (m_body m ++ fence ++ m_rest m).
  repeat split; try assumption. now exists (m_body m), (m_rest m).
Qed.

Lemma scan_without_block text :
  ~ has_closed_block text -> scan 0 text = map Outside text.
Proof.
  induction text as [|c text IH]; intros H; [reflexivity|].
  destruct (docRegex_at (c :: text)) as [m|] eqn:E.
  - exfalso. apply H. now apply docRegex_at_has_block in E.
  - rewrite scan_nomatch by exact E. cbn [map]. f_equal.
    apply IH. intros Hb. apply H. now apply has_closed_block_cons.
Qed.

Lemma scan_with_block text :
  has_closed_block text -> scan 0 text <> map Outside text.
Proof.
  intros (pre & label & tail & -> & Hne & Hnl & Hocc).
  induction pre as [|c pre IH]; cbn [app].
  - destruct (docRegex_at_complete label tail Hne Hnl Hocc) as (m & E & _).
    rewrite (scan_match _ _ E).
    destruct (doc_marker ++ label ++ newline :: tail); discriminate.
  - destruct (docRegex_at (c :: pre ++ doc_marker ++ label ++ newline :: tail))
      as [m|] eqn:E.
    + rewrite (scan_match _ _ E). discriminate.
    + rewrite scan_nomatch by exact E. cbn [map]. congruence.
Qed.

(** *** Well-formed streams *)

Lemma scan_prose p t :
  ~ In tilde p -> scan 0 (p ++ t) = map Outside p ++ scan 0 t.
Proof.
  induction p as [|c p IH]; intros Hp; [reflexivity|]. cbn [app map].
  rewrite scan_nomatch.
  - f_equal. apply IH. intros H. apply Hp. now right.
  - apply docRegex_at_tilde. intros ->. apply Hp. now left.
Qed.

Lemma scan_block b t :
  closed_block b ->
  scan 0 (block_text b ++ t) = Matched (b_label b) (b_body b) :: scan 0 t.
Proof.
  intros (Hne & Hnl & Hocc & Hlast).
  pose proof (docRegex_at_exact (b_label b) (b_body b) t Hne Hnl Hocc Hlast)
    as E.
  replace (block_text b ++ t)
    with (doc_marker ++ b_label b ++ newline :: b_body b ++ fence ++ t).
  - now rewrite (scan_match _ _ E).
  - unfold block_text. now rewrite <- !app_assoc, <- app_comm_cons, <- app_assoc.
Qed.

Lemma scan_stream prose rest :
  ~ In tilde prose ->
  Forall (fun bp => closed_block (fst bp) /\ ~ In tilde (snd bp)) rest ->
  scan 0 (stream_text prose rest)
  = map Outside prose
    ++ flat_map (fun bp => Matched (b_label (fst bp)) (b_body (fst bp))
                             :: map Outside (snd bp)) rest.
Proof.
  intros Hp Hrest. unfold stream_text. rewrite scan_prose by exact Hp.
  f_equal. clear prose Hp.
  induction Hrest as [|[b p] rest [Hb Hpr] _ IH]; [reflexivity|].
  cbn [flat_map fst snd]. rewrite <- !app_assoc.
  rewrite scan_block by exact Hb. rewrite scan_prose by exact Hpr.
  cbn [app]. now rewrite IH.
Qed.

Lemma outside_text_matched l b ps :
  outside_text (Matched l b :: ps) = outside_text ps.
Proof. reflexivity. Qed.

Lemma matched_blocks_matched l b ps :
  matched_blocks (Matched l b :: ps) = (l, b) :: matched_blocks ps.
Proof. reflexivity. Qed.

Lemma outside_text_stream prose (rest : list (DocBlock * jsstring)) :
  outside_text
    (map Outside prose
     ++ flat_map (fun bp => Matched (b_label (fst bp)) (b_body (fst bp))
                              :: map Outside (snd bp)) rest)
  = prose ++ flat_map snd rest.
Proof.
  rewrite outside_text_app, outside_text_all. f_equal.
  induction rest as [|[b p] rest IH]; [reflexivity|].
  cbn [flat_map fst snd app].
  now rewrite outside_text_matched, outside_text_app, outside_text_all, IH.
Qed.

Lemma matched_blocks_stream prose (rest : list (DocBlock * jsstring)) :
  matched_blocks
    (map Outside prose
     ++ flat_map (fun bp => Matched (b_label (fst bp)) (b_body (fst bp))
                              :: map Outside (snd bp)) rest)
  = map (fun bp => (b_label (fst bp), b_body (fst bp))) rest.
Proof.
  rewrite matched_blocks_app, matched_blocks_all. cbn [app].
  induction rest as [|[b p] rest IH]; [reflexivity|].
  cbn [flat_map map fst snd app].
  now rewrite matched_blocks_matched, matched_blocks_app,
    matched_blocks_all, IH.
Qed.

(** The body of every match ends at the first fence after the marker line. *)
Lemma match_body_ends_at_first_fence s m :
  docRegex_at s = Some m ->
  find_fence (m_body m ++ fence ++ m_rest m) = Some (m_body m, m_rest m).
Proof.
  rewrite docRegex_at_direct. unfold docRegex_direct.
  destruct (strip_prefix doc_marker s) as [s1|]; [|discriminate].
  destruct (take_while not_newline s1); [discriminate|].
  destruct (drop_while not_newline s1) as [|d s3]; [discriminate|].
  destruct (find_fence s3) as [[body rest]|] eqn:F; [|discriminate].
  intros [= <-]; cbn [m_body m_rest].
  now rewrite <- (find_fence_decomp _ _ _ F).
Qed.

(** *** Every text, as prose and closed blocks *)

Lemma drop_while_app p a x :
  drop_while p (a ++ x)
  = match drop_while p a with
    | [] => drop_while p x
    | d => d ++ x
    end.
Proof.
  induction a as [|c a IH]; [reflexivity|].
  cbn [app drop_while]. destruct (p c); [exact IH | reflexivity].
Qed.

Lemma occurs_rev w s : occurs w s -> occurs (rev w) (rev s).
Proof.
  intros (u & v & ->). exists (rev v), (rev u).
  now rewrite !rev_app_distr, <- app_assoc.
Qed.

(** a word that starts with a unit that is not white space survives the
    trimming of what is in front of it *)
Lemma occurs_drop_white c w s :
  is_white c = false ->
  occurs (c :: w) s -> occurs (c :: w) (drop_while is_white s).
Proof.
  intros Hc (u & v & ->). rewrite drop_while_app.
  destruct (drop_while is_white u) as [|d u'] eqn:E.
  - cbn [app drop_while]. rewrite Hc. now exists [], v.
  - now exists (d :: u'), v.
Qed.

Lemma marker_survives_trim s :
  occurs doc_marker s -> occurs doc_marker (trim s).
Proof.
  intros H. unfold trim, trimEnd, trimStart.
  apply (occurs_drop_white tilde (tl doc_marker)) in H; [|reflexivity].
  apply occurs_rev in H.
  apply (occurs_drop_white 58 (tl (rev doc_marker))) in H; [|reflexivity].
  apply occurs_rev in H. exact H.
Qed.

(** the body in front of the first fence does not end in a tilde *)
Lemma find_fence_last s b r : find_fence s = Some (b, r) -> last b <> Some tilde.
Proof.
  revert b; induction s as [|c s IH]; intros b; cbn [find_fence].
  - destruct (strip_prefix fence []); [|discriminate]. now intros [= <- <-].
  - destruct (strip_prefix fence (c :: s)) eqn:E; [now intros [= <- <-]|].
    destruct (find_fence s) as [[b' r']|] eqn:F; [|discriminate].
    intros [= <- <-]. destruct b' as [|d b'].
    + apply find_fence_decomp in F. subst s. cbn. intros [= ->].
      cbn in E. discriminate.
    + rewrite last_cons_cons. now apply (IH (d :: b')).
Qed.

(** what the pattern matches is a closed block *)
Lemma matched_block_closed s m :
  docRegex_at s = Some m ->
  closed_block {| b_label := m_label m; b_body := m_body m |}
  /\ s = block_text {| b_label := m_label m; b_body := m_body m |}
         ++ m_rest m.
Proof.
  intros E. pose proof (match_body_ends_at_first_fence _ _ E) as F.
  apply find_fence_last in F.
  apply docRegex_at_Some in E as (Hs & Hne & Hnl & Hocc).
  split; [now repeat split|].
  unfold block_text; cbn [b_label b_body]. rewrite Hs.
  now rewrite <- !app_assoc, <- app_comm_cons, <- app_assoc.
Qed.

(** Every text is prose and closed blocks, in the way the scan reads it. *)
Lemma scan_decomposition text :
  exists prose rest,
    text = stream_text prose rest
    /\ Forall (fun bp => closed_block (fst bp)) rest
    /\ scan 0 text
       = map Outside prose
         ++ flat_map (fun bp => Matched (b_label (fst bp)) (b_body (fst bp))
                                  :: map Outside (snd bp)) rest.
Proof.
  apply (scan_induction (fun s ps => exists prose rest,
    s = stream_text prose rest
    /\ Forall (fun bp => closed_block (fst bp)) rest
    /\ ps = map Outside prose
            ++ flat_map (fun bp => Matched (b_label (fst bp)) (b_body (fst bp))
                                     :: map Outside (snd bp)) rest)).
  - exists [], []. repeat split. constructor.
  - intros s m E (prose & rest & Hs & Hall & Hps).
    destruct (matched_block_closed _ _ E) as [Hb Hs'].
    exists [], (({| b_label := m_label m; b_body := m_body m |}, prose) :: rest).
    split; [|split].
    + rewrite Hs', Hs. unfold stream_text. cbn [app flat_map fst snd].
      now rewrite <- app_assoc.
    + now constructor.
    + cbn [map app flat_map fst snd b_label b_body]. now rewrite Hps.
  - intros c s _ (prose & rest & Hs & Hall & Hps).
    exists (c :: prose), rest. split; [|split].
    + now rewrite Hs.
    + exact Hall.
    + cbn [map app]. now rewrite Hps.
Qed.

(** *** Prose that holds tildes, but no marker *)

Lemma doc_marker_units : doc_marker = [126; 126; 126; 100; 111; 99; 58].
Proof. reflexivity. Qed.

(** a marker cannot start in the prose and end in the marker that follows
    it *)
Lemma marker_not_straddling p t r :
  p <> [] -> p ++ t = doc_marker ++ r ->
  t = [] \/ (exists t', t = doc_marker ++ t') ->
  occurs doc_marker p.
Proof.
  intros Hp E Ht.
  destruct p as [|x1 [|x2 [|x3 [|x4 [|x5 [|x6 [|x7 p']]]]]]];
    [congruence | | | | | | |].
  7: { rewrite doc_marker_units in E |- *. cbn [app] in E.
       injection E as -> -> -> -> -> -> -> _. now exists [], p'. }
  all: exfalso; destruct Ht as [-> | [t' ->]];
    rewrite doc_marker_units in E; cbn [app] in E; congruence.
Qed.

Lemma scan_prose_marker p t :
  ~ occurs doc_marker p ->
  t = [] \/ (exists t', t = doc_marker ++ t') ->
  scan 0 (p ++ t) = map Outside p ++ scan 0 t.
Proof.
  induction p as [|c p IH]; intros Hp Ht; [reflexivity|]. cbn [app map].
  rewrite scan_nomatch.
  - f_equal. apply IH; [|exact Ht]. intros H. apply Hp.
    now apply occurs_cons.
  - destruct (docRegex_at (c :: p ++ t)) as [m|] eqn:E; [|reflexivity].
    exfalso. apply Hp. apply docRegex_at_Some in E as [E _].
    apply (marker_not_straddling (c :: p) t _ ltac:(discriminate) E Ht).
Qed.

Lemma stream_tail_shape (rest : list (DocBlock * jsstring)) :
  flat_map (fun bp => block_text (fst bp) ++ snd bp) rest = []
  \/ exists t',
       flat_map (fun bp => block_text (fst bp) ++ snd bp) rest
       = doc_marker ++ t'.
Proof.
  destruct rest as [|[b p] rest]; [now left|]. right.
  cbn [flat_map fst snd]. unfold block_text. rewrite <- !app_assoc.
  eexists. reflexivity.
Qed.

Lemma scan_stream_marker prose rest :
  ~ occurs doc_marker prose ->
  Forall (fun bp => closed_block (fst bp) /\ ~ occurs doc_marker (snd bp))
    rest ->
  scan 0 (stream_text prose rest)
  = map Outside prose
    ++ flat_map (fun bp => Matched (b_label (fst bp)) (b_body (fst bp))
                             :: map Outside (snd bp)) rest.
Proof.
  intros Hp Hrest. unfold stream_text.
  rewrite scan_prose_marker by (exact Hp || apply stream_tail_shape).
  f_equal. clear prose Hp.
  induction Hrest as [|[b p] rest [Hb Hpr] _ IH]; [reflexivity|].
  cbn [flat_map fst snd]. rewrite <- !app_assoc.
  rewrite scan_block by exact Hb.
  rewrite scan_prose_marker by (exact Hpr || apply stream_tail_shape).
  cbn [app]. now rewrite IH.
Qed.

(** the pieces of a text are free of what the whole is free of *)
Lemma pieces_without_marker w prose (rest : list (DocBlock * jsstring)) :
  ~ occurs w (prose ++ flat_map snd rest) ->
  ~ occurs w prose /\ Forall (fun bp => ~ occurs w (snd bp)) rest.
Proof.
  intros H. split.
  - intros Ho. apply H. now apply occurs_app_r.
  - apply List.Forall_forall. intros bp Hbp Ho. apply H.
    apply occurs_app_l. apply in_split in Hbp as (l1 & l2 & ->).
    rewrite flat_map_app. cbn [flat_map]. apply occurs_app_l.
    now apply occurs_app_r.
Qed.

(** * The block parser: what the specification states *)

(** a code unit or a word does not occur in a concrete text: by evaluation *)
Ltac absent_by_evaluation :=
  let H := fresh "H" in
  intros H; try apply occursb_occurs in H; vm_compute in H;
  intuition discriminate.

(** C1 (counterexample).  The marker of a block whose closing fence never
    arrives is not removed: on the partial stream of scenario C the clean
    text still contains [~~~doc:]. *)
Lemma cleanText_keeps_unclosed_marker :
  occurs doc_marker (cleanText (parseDocumentBlocks scenarioC)).
Proof. apply occursb_occurs. vm_compute. reflexivity. Qed.

(** C1 (amended).  The clean text is free of [~~~doc:] exactly for the
    texts made of prose and closed blocks (a non-empty label line, a body
    that holds no fence and does not end in a tilde) whose pieces of prose,
    joined in order, hold no [~~~doc:]; the clean text is then the joined
    prose, trimmed. *)
Theorem cleanText_excludes_closed_blocks text :
  (forall prose rest,
     text = stream_text prose rest ->
     Forall (fun bp => closed_block (fst bp)) rest ->
     ~ occurs doc_marker (prose ++ flat_map snd rest) ->
     cleanText (parseDocumentBlocks text) = trim (prose ++ flat_map snd rest)
     /\ ~ occurs doc_marker (cleanText (parseDocumentBlocks text)))
  /\ (~ occurs doc_marker (cleanText (parseDocumentBlocks text)) ->
      exists prose rest,
        text = stream_text prose rest
        /\ Forall (fun bp => closed_block (fst bp)) rest
        /\ ~ occurs doc_marker (prose ++ flat_map snd rest)).
Proof.
  split.
  - intros prose rest -> Hrest Hfree.
    destruct (pieces_without_marker _ _ _ Hfree) as [Hp Hgaps].
    assert (E : cleanText (parseDocumentBlocks (stream_text prose rest))
                = trim (prose ++ flat_map snd rest)).
    { unfold parseDocumentBlocks; cbn [cleanText].
      rewrite scan_stream_marker, outside_text_stream; [reflexivity|exact Hp|].
      rewrite List.Forall_forall in *. intros bp Hbp.
      split; [now apply Hrest | now apply Hgaps]. }
    split; [exact E|]. rewrite E. intros Hocc. apply Hfree.
    now apply trim_occurs.
  - intros Hclean.
    destruct (scan_decomposition text) as (prose & rest & Hs & Hrest & Hscan).
    exists prose, rest. split; [exact Hs|]. split; [exact Hrest|].
    intros Hocc. apply Hclean. unfold parseDocumentBlocks; cbn [cleanText].
    rewrite Hscan, outside_text_stream. now apply marker_survives_trim.
Qed.

(** Scenario A is such a text; so are a text with tildes in its prose, and a
    text whose second marker closes the first block. *)
Lemma cleanText_excludes_closed_blocks_witness :
  (cleanText (parseDocumentBlocks scenarioA)
   = js ("Here is your PRD." ++ nl ++ nl ++ "Done.")
   /\ ~ occurs doc_marker (cleanText (parseDocumentBlocks scenarioA)))
  /\ (cleanText (parseDocumentBlocks prose_with_tilde)
      = js ("cost ~5" ++ nl ++ nl ++ "about ~~ 2 days")
      /\ ~ occurs doc_marker (cleanText (parseDocumentBlocks prose_with_tilde)))
  /\ (cleanText (parseDocumentBlocks overlapping_markers)
      = js ("doc:B" ++ nl ++ "bar")
      /\ ~ occurs doc_marker
           (cleanText (parseDocumentBlocks overlapping_markers))).
Proof.
  split; [|split].
  - destruct (proj1 (cleanText_excludes_closed_blocks scenarioA)
                scenarioA_prose scenarioA_rest) as [E Hno].
    + vm_compute. reflexivity.
    + repeat constructor; cbn [fst b_label b_body];
        try discriminate; absent_by_evaluation.
    + absent_by_evaluation.
    + split; [|exact Hno]. rewrite E. vm_compute. reflexivity.
  - destruct (proj1 (cleanText_excludes_closed_blocks prose_with_tilde)
                (js ("cost ~5" ++ nl))
                [({| b_label := js "PRD"; b_body := js ("body" ++ nl) |},
                  js (nl ++ "about ~~ 2 days"))]) as [E Hno].
    + vm_compute. reflexivity.
    + repeat constructor; cbn [fst b_label b_body];
        try discriminate; absent_by_evaluation.
    + absent_by_evaluation.
    + split; [|exact Hno]. rewrite E. vm_compute. reflexivity.
  - destruct (proj1 (cleanText_excludes_closed_blocks overlapping_markers)
                []
                [({| b_label := js "A"; b_body := js "foo " |},
                  js ("doc:B" ++ nl ++ "bar"))]) as [E Hno].
    + vm_compute. reflexivity.
    + repeat constructor; cbn [fst b_label b_body];
        try discriminate; absent_by_evaluation.
    + absent_by_evaluation.
    + split; [|exact Hno]. rewrite E. vm_compute. reflexivity.
Defined.

(** C2 (counterexample).  Scenario C holds no closed block, and yet the clean
    text is not the raw partial text, since the trailing line break is
    trimmed away; and the clean text is the content of the message that
    [handleStop] finalizes. *)
Lemma unclosed_stream_is_not_kept_raw :
  ~ has_closed_block scenarioC
  /\ cleanText (parseDocumentBlocks scenarioC) <> scenarioC
  /\ forall uuid now messages,
       handleStop uuid now messages scenarioC
       = [ abort; onStreamingChange false;
           onMessagesUpdate
             (messages
              ++ [{| msg_id := uuid; msg_role := assistant;
                     msg_content := cleanText (parseDocumentBlocks scenarioC);
                     msg_timestamp := now |}]);
           setStreamingContent [] ].
Proof.
  split; [|split].
  - intros H. apply scan_with_block in H. apply H. vm_compute. reflexivity.
  - vm_compute. discriminate.
  - intros uuid now messages. vm_compute. reflexivity.
Qed.

(** C2 (amended).  For a text that holds no closed block,
    [parseDocumentBlocks] returns no document and a clean text equal to
    the text with the white space at both ends trimmed; when such a text is
    what was streamed at the time of the stop, [handleStop] merges no
    document and finalizes a message whose content is the trimmed text (the
    raw text when trimming leaves nothing). *)
Theorem unclosed_stream_is_kept_trimmed uuid now messages text :
  ~ has_closed_block text ->
  parseDocumentBlocks text = {| cleanText := trim text; documents := [] |}
  /\ (text <> [] ->
      handleStop uuid now messages text
      = [ abort; onStreamingChange false;
          onMessagesUpdate
            (messages ++ [{| msg_id := uuid; msg_role := assistant;
                             msg_content := or_else (trim text) text;
                             msg_timestamp := now |}]);
          setStreamingContent [] ]).
Proof.
  intros H.
  assert (E : parseDocumentBlocks text
              = {| cleanText := trim text; documents := [] |}).
  { unfold parseDocumentBlocks. rewrite scan_without_block by exact H.
    now rewrite outside_text_all, matched_blocks_all. }
  split; [exact E|]. intros Hne. unfold handleStop. rewrite E.
  destruct text; [congruence | reflexivity].
Qed.

(** Scenario C: the stop after the partial stream. *)
Lemma unclosed_stream_is_kept_trimmed_witness :
  ~ has_closed_block scenarioC
  /\ parseDocumentBlocks scenarioC
     = {| cleanText := js ("Summary text ~~~doc:Tech Spec" ++ nl ++ "# Spec");
          documents := [] |}
  /\ handleStop (js "id-1") 7 [] scenarioC
     = [ abort; onStreamingChange false;
         onMessagesUpdate
           [{| msg_id := js "id-1"; msg_role := assistant;
               msg_content :=
                 js ("Summary text ~~~doc:Tech Spec" ++ nl ++ "# Spec");
               msg_timestamp := 7 |}];
         setStreamingContent [] ].
Proof.
  assert (H : ~ has_closed_block scenarioC).
  { intros H. apply scan_with_block in H. apply H. vm_compute. reflexivity. }
  destruct (unclosed_stream_is_kept_trimmed (js "id-1") 7 [] scenarioC H)
    as [E1 E2].
  split; [exact H|]. split.
  - rewrite E1. vm_compute. reflexivity.
  - rewrite E2 by discriminate. vm_compute. reflexivity.
Defined.

(** C7.  Two closed blocks both labelled [__proto__], with different
    content: the scan finds both, but the assignment
    [documents["__proto__"] = content] on the plain object does not create a
    property, and the returned mapping binds the label to nothing, not to
    the content of the later block. *)
Lemma proto_label_is_not_bound :
  matched_blocks (scan 0 two_proto_blocks)
  = [(js "__proto__", js ("first" ++ nl)); (js "__proto__", js ("second" ++ nl))]
  /\ documents (parseDocumentBlocks two_proto_blocks) = []
  /\ own_get (js "__proto__") (documents (parseDocumentBlocks two_proto_blocks))
     <> Some (js "second").
Proof. vm_compute. repeat split; discriminate. Qed.

(** X28.  When the scan of the text finds two blocks with the same trimmed
    label, that label is not [__proto__], and no block after the second one
    has it, the returned mapping binds the label to the trimmed content of
    the second, later block. *)
Theorem later_block_wins text before l1 b1 between l2 b2 after :
  matched_blocks (scan 0 text)
  = before ++ (l1, b1) :: between ++ (l2, b2) :: after ->
  trim l1 = trim l2 ->
  trim l2 <> proto_key ->
  Forall (fun m => trim (fst m) <> trim l2) after ->
  own_get (trim l2) (documents (parseDocumentBlocks text)) = Some (trim b2).
Proof.
  intros Hscan _ Hk Hafter. unfold parseDocumentBlocks; cbn [documents].
  rewrite Hscan.
  replace (before ++ (l1, b1) :: between ++ (l2, b2) :: after)
    with ((before ++ (l1, b1) :: between) ++ (l2, b2) :: after)
    by now rewrite <- app_assoc.
  now apply collect_documents_last.
Qed.

(** Two blocks labelled [PRD]: the second one is the document. *)
Lemma later_block_wins_witness :
  matched_blocks (scan 0 two_PRD_blocks)
  = [] ++ (js "PRD", js ("first" ++ nl)) :: []
       ++ (js "PRD", js ("second" ++ nl)) :: []
  /\ own_get (js "PRD") (documents (parseDocumentBlocks two_PRD_blocks))
     = Some (js "second").
Proof.
  assert (Hscan : matched_blocks (scan 0 two_PRD_blocks)
                  = [] ++ (js "PRD", js ("first" ++ nl)) :: []
                       ++ (js "PRD", js ("second" ++ nl)) :: [])
    by (vm_compute; reflexivity).
  split; [exact Hscan|].
  assert (Hk : trim (js "PRD") <> proto_key) by (vm_compute; discriminate).
  exact (later_block_wins two_PRD_blocks [] (js "PRD") (js ("first" ++ nl)) []
           (js "PRD") (js ("second" ++ nl)) [] Hscan eq_refl Hk
           (List.Forall_nil _)).
Defined.

(** C9.  No document content that [parseDocumentBlocks] returns contains a
    fence [~~~]: the lazy body of a match ends at the first fence after the
    marker line, and trimming only removes white space. *)
Theorem document_content_has_no_fence text k v :
  In (k, v) (obj_entries (documents (parseDocumentBlocks text))) ->
  ~ occurs fence v.
Proof.
  intros Hin. apply (proj1 (obj_entries_In _ _)) in Hin.
  unfold parseDocumentBlocks in Hin; cbn [documents] in Hin.
  assert (Hall : Forall (fun e : jsstring * jsstring => ~ occurs fence (snd e))
                   (collect_documents (matched_blocks (scan 0 text)))).
  { apply (collect_documents_values (fun v => ~ occurs fence v)).
    eapply Forall_impl; [apply matched_bodies_clean|].
    intros m Hm Hocc. apply Hm. now apply trim_occurs. }
  rewrite List.Forall_forall in Hall. exact (Hall (k, v) Hin).
Qed.

(** The document of scenario A. *)
Lemma document_content_has_no_fence_witness :
  In (js "PRD", js ("# My PRD" ++ nl ++ "content"))
     (obj_entries (documents (parseDocumentBlocks scenarioA)))
  /\ ~ occurs fence (js ("# My PRD" ++ nl ++ "content")).
Proof.
  assert (Hin : In (js "PRD", js ("# My PRD" ++ nl ++ "content"))
                   (obj_entries (documents (parseDocumentBlocks scenarioA))))
    by (vm_compute; left; reflexivity).
  split; [exact Hin|].
  exact (document_content_has_no_fence scenarioA _ _ Hin).
Defined.

(** * The session page *)

Lemma mem_In x l : mem x l = true <-> In x l.
Proof.
  unfold mem. rewrite existsb_exists. split.
  - intros (y & Hy & E). apply str_eqb_eq in E. now subst.
  - intros H. exists x. split; [exact H | apply str_eqb_refl].
Qed.

Lemma own_get_is_Some {V} k (o : JsObject V) :
  is_Some (own_get k o) <-> In k (map fst o).
Proof.
  induction o as [|[k' v'] o IH]; simpl.
  - split; [intros [? ?]; discriminate | easy].
  - destruct (str_eqb k k') eqn:E.
    + apply str_eqb_eq in E as ->. split; [now left | eauto].
    + apply str_eqb_neq in E. rewrite IH. split; [now right|].
      intros [H | H]; [congruence | exact H].
Qed.

Lemma own_get_wf {V} k (v : V) o :
  obj_wf o -> In (k, v) o -> own_get k o = Some v.
Proof.
  unfold obj_wf. induction o as [|[k' v'] o IH]; [easy|]. simpl.
  intros Hnd Hin. apply NoDup_cons in Hnd as [Hk' Hnd].
  destruct Hin as [[= -> ->] | Hin].
  - now rewrite str_eqb_refl.
  - destruct (str_eqb k k') eqn:E; [|now apply IH].
    apply str_eqb_eq in E as ->. exfalso. apply Hk'.
    apply list_elem_of_In. now apply (in_map fst) in Hin.
Qed.

Lemma filter_key_none {V} k (o : JsObject V) :
  ~ In k (map fst o) -> List.filter (fun e => str_eqb (fst e) k) o = [].
Proof.
  intros H. induction o as [|[k0 v0] o IH]; [reflexivity|].
  simpl. destruct (str_eqb k0 k) eqn:E.
  - apply str_eqb_eq in E as ->. exfalso. apply H. now left.
  - apply IH. intros Hin. apply H. now right.
Qed.

Lemma filter_key_wf {V} k (v : V) o :
  obj_wf o -> In (k, v) o ->
  List.filter (fun e => str_eqb (fst e) k) o = [(k, v)].
Proof.
  unfold obj_wf. induction o as [|[k' v'] o IH]; [easy|]. simpl.
  intros Hnd Hin. apply NoDup_cons in Hnd as [Hk' Hnd].
  destruct Hin as [[= -> ->] | Hin].
  - rewrite str_eqb_refl. f_equal. apply filter_key_none.
    intros H. apply Hk'. now apply list_elem_of_In.
  - destruct (str_eqb k' k) eqn:E; [|now apply IH].
    apply str_eqb_eq in E as ->. exfalso. apply Hk'.
    apply list_elem_of_In. now apply (in_map fst) in Hin.
Qed.

Lemma obj_entries_wf {V} (o : JsObject V) : obj_wf o -> obj_wf (obj_entries o).
Proof. unfold obj_wf. intros H. now rewrite (obj_keys_perm o). Qed.

(** *** Merging *)

Lemma fold_assign_entries_keeps k (es : list (jsstring * jsstring)) o :
  ~ In k (map fst es) ->
  own_get k (fold_left (fun m e => obj_assign (fst e) (snd e) m) es o)
  = own_get k o.
Proof.
  revert o; induction es as [|[k' v'] es IH]; intros o H; [reflexivity|].
  cbn [fold_left fst snd]. rewrite IH.
  - apply obj_assign_get_ne. intros ->. apply H. now left.
  - intros Hin. apply H. now right.
Qed.

Lemma fold_assign_entries_get k v (es : list (jsstring * jsstring)) o :
  NoDup (map fst es) -> In (k, v) es ->
  is_Some (own_get k o) \/ k <> proto_key ->
  own_get k (fold_left (fun m e => obj_assign (fst e) (snd e) m) es o)
  = Some v.
Proof.
  revert o; induction es as [|[k' v'] es IH]; intros o Hnd Hin Hk; [easy|].
  cbn [map fst] in Hnd. apply NoDup_cons in Hnd as [Hk' Hnd].
  cbn [fold_left fst snd]. destruct Hin as [[= -> ->] | Hin].
  - rewrite fold_assign_entries_keeps.
    + destruct Hk as [Hk | Hk];
        [now apply obj_assign_get_own | now apply obj_assign_get_eq].
    + intros H. apply Hk'. now apply list_elem_of_In.
  - apply IH; [exact Hnd | exact Hin |].
    destruct Hk as [Hk | Hk]; [left | now right].
    destruct (str_eqb k k') eqn:E.
    + apply str_eqb_eq in E as ->. exfalso. apply Hk'.
      apply list_elem_of_In. now apply (in_map fst) in Hin.
    + apply str_eqb_neq in E. now rewrite obj_assign_get_ne.
Qed.

Lemma merge_documents_get k v newDocs prevDocs :
  obj_wf newDocs -> own_get k newDocs = Some v ->
  is_Some (own_get k prevDocs) \/ k <> proto_key ->
  own_get k (merge_documents newDocs prevDocs) = Some v.
Proof.
  intros Hwf Hget Hk. unfold merge_documents.
  apply fold_assign_entries_get.
  - now apply obj_entries_wf.
  - apply obj_entries_In. now apply own_get_In.
  - destruct Hk as [Hk | Hk]; [left | now right].
    unfold obj_spread. apply own_get_is_Some.
    apply own_get_is_Some in Hk.
    eapply Permutation_in; [|exact Hk]. symmetry. apply obj_keys_perm.
Qed.

(** *** Snapshots *)

Lemma new_versions_of k v now docs src :
  obj_wf docs -> own_get k docs = Some v ->
  versions_of k (new_versions now docs src)
  = [{| docType := k; content := v; timestamp := now; source := src |}].
Proof.
  intros Hwf Hget. unfold versions_of, new_versions.
  assert (E : forall es : list (jsstring * jsstring),
            List.filter (fun x => str_eqb (docType x) k)
              (map (fun e => {| docType := fst e; content := snd e;
                                timestamp := now; source := src |}) es)
            = map (fun e => {| docType := fst e; content := snd e;
                               timestamp := now; source := src |})
                (List.filter (fun e => str_eqb (fst e) k) es)).
  { induction es as [|e es IH]; [reflexivity|]. simpl.
    destruct (str_eqb (fst e) k); simpl; now rewrite IH. }
  rewrite E, (filter_key_wf k v).
  - reflexivity.
  - now apply obj_entries_wf.
  - apply obj_entries_In. now apply own_get_In.
Qed.

Lemma versions_of_app d h1 h2 :
  versions_of d (h1 ++ h2) = versions_of d h1 ++ versions_of d h2.
Proof. apply List.filter_app. Qed.

(** C4.  A snapshot with source [edited] of a document whose content is [A],
    followed by a merge of content [B] under the same key, leaves [A] with
    source [edited] as the most recent version recorded for the key, and [B]
    as the live document. *)
Theorem snapshot_before_merge t1 t2 p prev docs newDocs k A B :
  session p = Some prev ->
  own_get k (s_documents prev) = Some A ->
  obj_wf docs -> own_get k docs = Some A ->
  obj_wf newDocs -> own_get k newDocs = Some B ->
  exists s',
    session (handleDocumentsUpdate t2 newDocs
               (handleSnapshotVersions t1 docs edited p)) = Some s'
    /\ last (versions_of k (s_documentHistory s'))
       = Some {| docType := k; content := A; timestamp := t1;
                 source := edited |}
    /\ own_get k (s_documents s') = Some B.
Proof.
  intros Hs Hlive Hwf HA Hwf' HB.
  unfold handleSnapshotVersions. rewrite Hs.
  unfold handleDocumentsUpdate, set_session; cbn [session].
  eexists. split.
  - destruct (obj_keys newDocs) as [|[|? ?] ?]; reflexivity.
  - cbn [s_documentHistory s_documents]. split.
    + rewrite versions_of_app, (new_versions_of k A) by assumption.
      apply last_snoc.
    + apply merge_documents_get; try assumption. left. rewrite Hlive. eauto.
Qed.

(** P4 on a session whose only document is [PRD] with content [A]. *)
Lemma snapshot_before_merge_witness :
  let p := example_page [(js "PRD", js "A")] INITIAL_VERIFIER_STATE in
  let docs : JsObject jsstring := [(js "PRD", js "A")] in
  let newDocs : JsObject jsstring := [(js "PRD", js "B")] in
  exists s',
    session (handleDocumentsUpdate 6 newDocs
               (handleSnapshotVersions 5 docs edited p)) = Some s'
    /\ last (versions_of (js "PRD") (s_documentHistory s'))
       = Some {| docType := js "PRD"; content := js "A"; timestamp := 5;
                 source := edited |}
    /\ own_get (js "PRD") (s_documents s') = Some (js "B").
Proof.
  intros p docs newDocs.
  apply (snapshot_before_merge 5 6 p (example_session docs []) docs newDocs
           (js "PRD") (js "A") (js "B")).
  - reflexivity.
  - reflexivity.
  - unfold obj_wf. vm_compute. repeat constructor. intros H. inversion H.
  - reflexivity.
  - unfold obj_wf. vm_compute. repeat constructor. intros H. inversion H.
  - reflexivity.
Defined.

(** * The verifier panel *)

Lemma remaining_issues_spec vs i :
  In i (remaining_issues vs)
  <-> In i (issues vs) /\ ~ In (i_id i) (dismissed vs)
      /\ ~ In (i_id i) (applied vs) /\ i_severity i <> info.
Proof.
  unfold remaining_issues. rewrite filter_In, !andb_true_iff, !negb_true_iff.
  rewrite <- !not_true_iff_false, !mem_In.
  assert (Hinfo : is_info (i_severity i) <> true <-> i_severity i <> info)
    by (destruct (i_severity i); simpl; split; congruence).
  rewrite Hinfo. tauto.
Qed.

Lemma remaining_without_info vs :
  remaining_issues (without_info vs) = remaining_issues vs.
Proof.
  unfold remaining_issues, without_info; cbn [issues dismissed applied].
  induction (issues vs) as [|i l IH]; [reflexivity|]. cbn [List.filter].
  destruct (is_info (i_severity i)) eqn:E; cbn [negb].
  - rewrite !andb_false_r. exact IH.
  - cbn [List.filter]. rewrite E. cbn [negb]. now rewrite IH.
Qed.

Lemma handle_keeps_history now e p :
  match e with onSnapshotVersions _ _ => False | _ => True end ->
  page_history (handle now e p) = page_history p.
Proof.
  destruct e as [st | docs src | docs m r | docs]; intros H; try easy.
  unfold handle, handleDocumentsUpdate, page_history.
  destruct (session p) as [prev|] eqn:Hs;
    destruct (obj_keys docs) as [|[|? ?] ?]; cbn [session set_session];
    now rewrite ?Hs.
Qed.

Lemma handle_all_keeps_history clock n es p :
  Forall (fun e => match e with
                   | onSnapshotVersions _ _ => False
                   | _ => True
                   end) es ->
  page_history (handle_all clock n es p) = page_history p.
Proof.
  intros H. revert n p. induction H as [|e es He _ IH]; intros n p.
  - reflexivity.
  - cbn [handle_all]. rewrite IH. now apply handle_keeps_history.
Qed.

Lemma new_versions_spec now docs src :
  map docType (new_versions now docs src) = obj_keys docs
  /\ length (new_versions now docs src) = length docs
  /\ Forall (fun v => source v = src /\ timestamp v = now
                      /\ In (docType v, content v) docs)
       (new_versions now docs src).
Proof.
  unfold new_versions, obj_keys. split; [|split].
  - rewrite map_map. reflexivity.
  - now rewrite length_map, obj_entries_length.
  - apply List.Forall_forall. intros v Hv.
    apply in_map_iff in Hv as (e & <- & He).
    cbn [source timestamp docType content]. repeat split.
    apply (proj1 (obj_entries_In _ _)) in He. now destruct e.
Qed.

(** C3.  One apply-all run that has issues to fix makes exactly one snapshot
    call, whatever the number of issues and however the request ends, and
    the history of the session grows by exactly one version per document of
    the store: one for each existing document type, with the content of
    that document and the source [harmonized]. *)
Theorem apply_all_snapshots_once clock outcome p s :
  session p = Some s ->
  obj_wf (s_documents s) ->
  remaining_issues (verifierState p) <> [] ->
  snapshot_count (applyAllFixes (s_documents s) (verifierState p) outcome) = 1%nat
  /\ exists added,
       page_history (apply_all clock outcome p) = s_documentHistory s ++ added
       /\ map docType added = obj_keys (s_documents s)
       /\ NoDup (map docType added)
       /\ length added = length (s_documents s)
       /\ Forall (fun v => source v = harmonized
                           /\ own_get (docType v) (s_documents s)
                              = Some (content v)) added.
Proof.
  intros Hs Hwf Hrem.
  assert (Htail : forall tail : list Effect,
            Forall (fun e => match e with
                             | onSnapshotVersions _ _ => False
                             | _ => True
                             end) tail ->
            snapshot_count
              ([ onVerifierStateChange (with_phase harmonizing (verifierState p));
                 onSnapshotVersions (s_documents s) harmonized;
                 fetch_verify (s_documents s) harmonize
                   (apply_all_report (remaining_issues (verifierState p))) ]
               ++ tail) = 1%nat
            /\ page_history
                 (handle_all clock 0
                    ([ onVerifierStateChange
                         (with_phase harmonizing (verifierState p));
                       onSnapshotVersions (s_documents s) harmonized;
                       fetch_verify (s_documents s) harmonize
                         (apply_all_report
                            (remaining_issues (verifierState p))) ]
                     ++ tail) p)
               = s_documentHistory s
                 ++ new_versions (clock 1%nat) (s_documents s) harmonized).
  { intros tail Htail. split.
    - unfold snapshot_count. cbn [app List.filter length]. f_equal.
      induction Htail as [|e tail He _ IH]; [reflexivity|].
      cbn [List.filter]. now destruct e.
    - cbn [app handle_all]. rewrite handle_all_keeps_history by exact Htail.
      cbn [handle]. unfold handleSnapshotVersions; cbn [session].
      rewrite Hs. reflexivity. }
  assert (Hrun : snapshot_count
                   (applyAllFixes (s_documents s) (verifierState p) outcome)
                 = 1%nat
                 /\ page_history (apply_all clock outcome p)
                    = s_documentHistory s
                      ++ new_versions (clock 1%nat) (s_documents s) harmonized).
  { unfold apply_all. rewrite Hs. unfold applyAllFixes.
    destruct (remaining_issues (verifierState p)) as [|i rest] eqn:Er;
      [congruence|].
    apply Htail. destruct outcome as [|full].
    - repeat constructor.
    - destruct (obj_keys (documents (parseDocumentBlocks full)));
        repeat constructor. }
  destruct Hrun as [Hcount Hhist]. split; [exact Hcount|].
  exists (new_versions (clock 1%nat) (s_documents s) harmonized).
  destruct (new_versions_spec (clock 1%nat) (s_documents s) harmonized)
    as (Hkeys & Hlen & Hall).
  repeat split; try assumption.
  - rewrite Hkeys. now apply obj_keys_NoDup.
  - eapply Forall_impl; [exact Hall|]. intros v (Hsrc & _ & Hin).
    split; [exact Hsrc | now apply own_get_wf].
Qed.

(** P8: three issues to fix, two documents in the store, two versions
    appended. *)
Lemma apply_all_snapshots_once_witness :
  let p := example_page two_documents example_report in
  length (remaining_issues (verifierState p)) = 3%nat
  /\ snapshot_count
       (applyAllFixes two_documents example_report Failed) = 1%nat
  /\ exists added,
       page_history (apply_all example_clock Failed p) = [] ++ added
       /\ map docType added = obj_keys two_documents
       /\ NoDup (map docType added)
       /\ length added = 2%nat
       /\ Forall (fun v => source v = harmonized
                           /\ own_get (docType v) two_documents
                              = Some (content v)) added.
Proof.
  intros p. split; [reflexivity|].
  apply (apply_all_snapshots_once example_clock Failed p
           (example_session two_documents [])).
  - reflexivity.
  - unfold obj_wf. vm_compute. repeat constructor.
    + intros H. apply list_elem_of_In in H. vm_compute in H.
      intuition discriminate.
    + intros H. inversion H.
  - vm_compute. discriminate.
Defined.

(** C6.  When the request of an apply-all run fails, the verifier state the
    page ends with has phase [ready], and the issues, the summary, the
    dismissed ids and the applied ids it had when the run began. *)
Theorem failed_harmonize_returns_to_ready clock p s :
  session p = Some s ->
  remaining_issues (verifierState p) <> [] ->
  let after := verifierState (apply_all clock Failed p) in
  phase after = ready
  /\ issues after = issues (verifierState p)
  /\ summary after = summary (verifierState p)
  /\ dismissed after = dismissed (verifierState p)
  /\ applied after = applied (verifierState p)
  /\ rawReport after = rawReport (verifierState p).
Proof.
  intros Hs Hrem. unfold apply_all. rewrite Hs. unfold applyAllFixes.
  destruct (remaining_issues (verifierState p)) as [|i rest]; [congruence|].
  cbn [app handle_all handle verifierState]. now repeat split.
Qed.

(** The example report survives a failed request. *)
Lemma failed_harmonize_returns_to_ready_witness :
  let p := example_page two_documents example_report in
  let after := verifierState (apply_all example_clock Failed p) in
  request_count (applyAllFixes two_documents example_report Failed) = 1%nat
  /\ phase after = ready
  /\ issues after = issues example_report
  /\ summary after = summary example_report
  /\ dismissed after = dismissed example_report
  /\ applied after = applied example_report
  /\ rawReport after = rawReport example_report.
Proof.
  intros p after. split; [reflexivity|].
  apply (failed_harmonize_returns_to_ready example_clock p
           (example_session two_documents [])).
  - reflexivity.
  - vm_compute. discriminate.
Defined.

(** C10.  Apply-all works on the issues that are neither dismissed, nor
    applied, nor of severity info: the report it sends is the one it would
    send if the info issues were not in the state at all, the ids it adds to
    the applied ids are those of the issues it works on, and without such an
    issue it makes no call at all: no state change, no snapshot and no
    request. *)
Theorem apply_all_skips_info docs vs outcome :
  (forall i, In i (remaining_issues vs) ->
     In i (issues vs) /\ ~ In (i_id i) (dismissed vs)
     /\ ~ In (i_id i) (applied vs) /\ i_severity i <> info)
  /\ (forall d m report,
        In (fetch_verify d m report) (applyAllFixes docs vs outcome) ->
        report = apply_all_report (remaining_issues (without_info vs)))
  /\ (forall st,
        In (onVerifierStateChange st) (applyAllFixes docs vs outcome) ->
        applied st = applied vs
        \/ applied st = applied vs ++ map i_id (remaining_issues vs))
  /\ (remaining_issues vs = [] -> applyAllFixes docs vs outcome = []).
Proof.
  split; [|split; [|split]].
  - intros i Hi. now apply remaining_issues_spec.
  - intros d m report. rewrite remaining_without_info. unfold applyAllFixes.
    destruct (remaining_issues vs) as [|i rest]; [easy|].
    cbn [app In]. intros [H | [H | [H | H]]]; try discriminate.
    + now injection H as _ _ <-.
    + destruct outcome as [|full]; cbn [In] in H.
      * destruct H as [H | []]. discriminate.
      * apply in_app_or in H as [H | [H | []]]; [|discriminate].
        destruct (obj_keys (documents (parseDocumentBlocks full)));
          [destruct H | destruct H as [H | []]; discriminate].
  - intros st. unfold applyAllFixes.
    destruct (remaining_issues vs) as [|i rest]; [easy|].
    cbn [app In]. intros [H | [H | [H | H]]]; try discriminate.
    + injection H as <-. now left.
    + destruct outcome as [|full]; cbn [In] in H.
      * destruct H as [H | []]. injection H as <-. now left.
      * apply in_app_or in H as [H | [H | []]].
        -- destruct (obj_keys (documents (parseDocumentBlocks full)));
             [destruct H | destruct H as [H | []]; discriminate].
        -- injection H as <-. now right.
  - intros H. unfold applyAllFixes. now rewrite H.
Qed.

(** A report with one info issue only: apply-all does nothing; and the ids
    apply-all works on in the example report. *)
Lemma apply_all_skips_info_witness :
  remaining_issues info_only_report = []
  /\ applyAllFixes two_documents info_only_report (Streamed scenarioA) = []
  /\ map i_id (remaining_issues example_report)
     = [js "R-001"; js "R-002"; js "R-003"].
Proof.
  assert (H : remaining_issues info_only_report = []) by reflexivity.
  split; [exact H|]. split.
  - exact (proj2 (proj2 (proj2
             (apply_all_skips_info two_documents info_only_report
                (Streamed scenarioA)))) H).
  - reflexivity.
Defined.

(** * The issues block *)

Lemma regex_search_absent {R} (pattern_at : jsstring -> option R) w s :
  (forall t, strip_prefix w t = None -> pattern_at t = None) ->
  ~ occurs w s -> regex_search pattern_at s = None.
Proof.
  intros Hpat. induction s as [|c s IH]; intros Hocc; cbn [regex_search].
  - rewrite Hpat; [reflexivity|].
    destruct (strip_prefix w []) eqn:E; [|reflexivity].
    exfalso. apply Hocc. apply strip_prefix_Some in E. now exists [], l.
  - rewrite Hpat.
    + apply IH. intros H. apply Hocc. now apply occurs_cons.
    + destruct (strip_prefix w (c :: s)) eqn:E; [|reflexivity].
      exfalso. apply Hocc. apply strip_prefix_Some in E. now exists [], l.
Qed.

(** C8.  The issues extractor never throws; it returns the empty list when
    the interior of the issues block is not parseable as JSON, and when the
    text holds no issues block. *)
Theorem malformed_issues_yield_empty
    (JSON_parse : jsstring -> Completion (list VerifierIssue)) text :
  (forall e, parseIssuesFromResponse JSON_parse text <> Throw e)
  /\ (forall interior e,
        regex_search issuesRegex_at text = Some interior ->
        JSON_parse interior = Throw e ->
        parseIssuesFromResponse JSON_parse text = Normal [])
  /\ (regex_search issuesRegex_at text = None ->
      parseIssuesFromResponse JSON_parse text = Normal [])
  /\ (~ occurs (js "~~~issues") text ->
      parseIssuesFromResponse JSON_parse text = Normal []).
Proof.
  unfold parseIssuesFromResponse. split; [|split; [|split]].
  - intros e. destruct (regex_search issuesRegex_at text) as [interior|];
      [|discriminate].
    destruct (JSON_parse interior); discriminate.
  - intros interior e -> ->. reflexivity.
  - intros ->. reflexivity.
  - intros H. rewrite (regex_search_absent issuesRegex_at (js "~~~issues"));
      [reflexivity | | exact H].
    intros t E. unfold issuesRegex_at, lit at 1. now rewrite E.
Qed.

(** P9, and a text without an issues block. *)
Lemma malformed_issues_yield_empty_witness :
  regex_search issuesRegex_at malformed_issues = Some (js "NOT_JSON")
  /\ parse_empty_array_only (js "NOT_JSON") = Throw SyntaxError
  /\ parseIssuesFromResponse parse_empty_array_only malformed_issues
     = Normal []
  /\ parseIssuesFromResponse parse_empty_array_only scenarioA = Normal [].
Proof.
  assert (H1 : regex_search issuesRegex_at malformed_issues
               = Some (js "NOT_JSON")) by (vm_compute; reflexivity).
  assert (H2 : parse_empty_array_only (js "NOT_JSON") = Throw SyntaxError)
    by (vm_compute; reflexivity).
  assert (H3 : ~ occurs (js "~~~issues") scenarioA) by absent_by_evaluation.
  destruct (malformed_issues_yield_empty parse_empty_array_only
              malformed_issues) as (_ & Hbad & _).
  destruct (malformed_issues_yield_empty parse_empty_array_only scenarioA)
    as (_ & _ & _ & Habsent).
  split; [exact H1|]. split; [exact H2|]. split.
  - exact (Hbad _ _ H1 H2).
  - exact (Habsent H3).
Defined.

(** * Persisting a session *)

Section SortSorted.
Context {A : Type} (cmp : A -> A -> Z).
Hypothesis cmp_trans :
  forall x y z, (cmp x y <= 0 -> cmp y z <= 0 -> cmp x z <= 0)%Z.
Hypothesis cmp_total : forall x y, (cmp x y <= 0 \/ cmp y x <= 0)%Z.

Lemma sort_insert_sorted x l :
  StronglySorted (fun a b => (cmp a b <= 0)%Z) l ->
  StronglySorted (fun a b => (cmp a b <= 0)%Z) (sort_insert cmp x l).
Proof.
  induction 1 as [|y l Hl IH Hy]; simpl.
  - repeat constructor.
  - destruct (Z.leb_spec (cmp x y) 0) as [Hxy | Hxy].
    + constructor; [now constructor|].
      constructor; [exact Hxy|].
      eapply Forall_impl; [exact Hy|]. intros z Hz. now apply (cmp_trans x y z).
    + constructor; [exact IH|].
      assert (Hyx : (cmp y x <= 0)%Z) by (destruct (cmp_total x y); lia).
      apply List.Forall_forall. intros z Hz.
      apply (Permutation_in _ (sort_insert_perm cmp x l)) in Hz.
      destruct Hz as [<- | Hz]; [exact Hyx|].
      rewrite List.Forall_forall in Hy. now apply Hy.
Qed.

Lemma array_sort_sorted l :
  StronglySorted (fun a b => (cmp a b <= 0)%Z) (array_sort cmp l).
Proof.
  induction l as [|x l IH]; simpl; [constructor|].
  now apply sort_insert_sorted.
Qed.

End SortSorted.

Lemma StronglySorted_weaken {A} (R R' : A -> A -> Prop) l :
  (forall a b, R a b -> R' a b) -> StronglySorted R l -> StronglySorted R' l.
Proof.
  intros HR. induction 1 as [|x l Hl IH Hx]; constructor; [exact IH|].
  eapply Forall_impl; [exact Hx|]. intros y. apply HR.
Qed.

Lemma newest_first_sorted l :
  StronglySorted (fun a b => (timestamp b <= timestamp a)%Z)
    (array_sort newest_first l).
Proof.
  apply (StronglySorted_weaken (fun a b => (newest_first a b <= 0)%Z)).
  - unfold newest_first. intros a b. lia.
  - apply array_sort_sorted; unfold newest_first; intros; lia.
Qed.

Lemma oldest_first_sorted l :
  StronglySorted (fun a b => (timestamp a <= timestamp b)%Z)
    (array_sort oldest_first l).
Proof.
  apply (StronglySorted_weaken (fun a b => (oldest_first a b <= 0)%Z)).
  - unfold oldest_first. intros a b. lia.
  - apply array_sort_sorted; unfold oldest_first; intros; lia.
Qed.

(** *** Grouping by document type *)

Lemma own_update_keys {V} k (v : V) o :
  map fst (own_update k v o) = map fst o.
Proof.
  induction o as [|[k' v'] o IH]; [reflexivity|]. simpl.
  destruct (str_eqb k k'); simpl; [reflexivity | now rewrite IH].
Qed.

Lemma own_update_In_other {V} k (v : V) o k' v' :
  obj_wf o -> is_Some (own_get k o) ->
  In (k', v') (own_update k v o) ->
  (k' = k /\ v' = v) \/ (k' <> k /\ In (k', v') o).
Proof.
  unfold obj_wf. induction o as [|[k0 v0] o IH]; [easy|]. simpl.
  intros Hnd Hsome. apply NoDup_cons in Hnd as [Hk0 Hnd].
  destruct (str_eqb k k0) eqn:E.
  - apply str_eqb_eq in E as ->. intros [[= <- <-] | H]; [auto|].
    right. split; [|auto]. intros ->. apply Hk0.
    apply list_elem_of_In. now apply (in_map fst) in H.
  - apply str_eqb_neq in E. intros [[= <- <-] | H].
    + right. split; [congruence | auto].
    + destruct (IH Hnd Hsome H) as [? | [? ?]]; auto.
Qed.

Lemma versions_of_snoc d h v :
  versions_of d (h ++ [v])
  = versions_of d h ++ (if str_eqb (docType v) d then [v] else []).
Proof. rewrite versions_of_app. reflexivity. Qed.

Lemma versions_of_none d h :
  (forall v, In v h -> docType v <> d) -> versions_of d h = [].
Proof.
  intros H. induction h as [|v h IH]; [reflexivity|]. unfold versions_of.
  cbn [List.filter]. destruct (str_eqb (docType v) d) eqn:E.
  - apply str_eqb_eq in E. exfalso. apply (H v); [now left | exact E].
  - apply IH. intros w Hw. apply H. now right.
Qed.

Lemma versions_of_docType d h v : In v (versions_of d h) -> docType v = d.
Proof.
  unfold versions_of. rewrite filter_In. intros [_ E]. now apply str_eqb_eq.
Qed.

Lemma grouped_nil : grouped [] [].
Proof. repeat split; try easy. constructor. Qed.

Lemma group_push_grouped v g g' h :
  grouped g h -> group_push v g = Normal g' -> grouped g' (h ++ [v]).
Proof.
  intros (Hwf & Hvs & Hcov). unfold group_push.
  destruct (own_get (docType v) g) as [versions|] eqn:G.
  - intros [= <-]. repeat split.
    + unfold obj_wf. now rewrite own_update_keys.
    + intros k vs Hin.
      apply own_update_In_other in Hin as [[-> ->] | [Hk Hin]];
        [| |exact Hwf | rewrite G; eauto].
      * rewrite versions_of_snoc, str_eqb_refl. f_equal.
        apply Hvs. now apply own_get_In.
      * rewrite versions_of_snoc. apply str_eqb_neq in Hk.
        assert (E : str_eqb (docType v) k = false).
        { apply str_eqb_neq. apply str_eqb_neq in Hk. congruence. }
        rewrite E, app_nil_r. now apply Hvs.
    + intros w Hw. rewrite own_update_keys.
      apply in_app_or in Hw as [Hw | [<- | []]]; [now apply Hcov|].
      apply own_get_is_Some. rewrite G. eauto.
  - destruct (inherited (docType v)); [discriminate|]. intros [= <-].
    assert (Hfresh : ~ In (docType v) (map fst g)).
    { intros H. apply own_get_is_Some in H as [x Hx]. congruence. }
    repeat split.
    + unfold obj_wf. rewrite map_app. cbn [map fst].
      apply NoDup_app. split; [exact Hwf|]. split.
      * intros k Hk [<-|[]]%list_elem_of_In. apply Hfresh.
        now apply list_elem_of_In.
      * repeat constructor. intros H. inversion H.
    + intros k vs Hin. apply in_app_or in Hin as [Hin | [[= <- <-] | []]].
      * rewrite versions_of_snoc.
        assert (E : str_eqb (docType v) k = false).
        { apply str_eqb_neq. intros <-. apply Hfresh.
          now apply (in_map fst) in Hin. }
        rewrite E, app_nil_r. now apply Hvs.
      * rewrite versions_of_snoc, str_eqb_refl.
        rewrite versions_of_none; [reflexivity|].
        intros w Hw E. apply Hfresh. rewrite <- E. now apply Hcov.
    + intros w Hw. rewrite map_app. apply in_or_app.
      apply in_app_or in Hw as [Hw | [<- | []]]; [left; now apply Hcov|].
      right. now left.
Qed.

Lemma group_versions_grouped h2 g h1 g' :
  grouped g h1 -> group_versions h2 g = Normal g' -> grouped g' (h1 ++ h2).
Proof.
  revert g h1; induction h2 as [|v h2 IH]; intros g h1 Hg; cbn [group_versions].
  - intros [= <-]. now rewrite app_nil_r.
  - destruct (group_push v g) as [g1|] eqn:E; [|discriminate].
    intros H. replace (h1 ++ v :: h2) with ((h1 ++ [v]) ++ h2)
      by now rewrite <- app_assoc.
    eapply IH; [|exact H]. now apply (group_push_grouped v g).
Qed.

(** *** What is kept *)

Lemma versions_of_all d l :
  (forall v, In v l -> docType v = d) -> versions_of d l = l.
Proof.
  intros H. induction l as [|v l IH]; [reflexivity|]. unfold versions_of.
  cbn [List.filter]. rewrite (proj2 (str_eqb_eq _ _) (H v (or_introl eq_refl))).
  f_equal. apply IH. intros w Hw. apply H. now right.
Qed.

Lemma versions_of_perm d l l' :
  Permutation l l' -> Permutation (versions_of d l) (versions_of d l').
Proof.
  unfold versions_of. induction 1 as [|x l l' _ IH|x y l|l l' l'' _ IH1 _ IH2].
  - reflexivity.
  - cbn [List.filter]. destruct (str_eqb (docType x) d); [now constructor|].
    exact IH.
  - cbn [List.filter].
    destruct (str_eqb (docType x) d), (str_eqb (docType y) d);
      try reflexivity. apply perm_swap.
  - now transitivity (List.filter (fun v => str_eqb (docType v) d) l').
Qed.

Lemma keep_newest_In v vs : In v (keep_newest vs) -> In v vs.
Proof.
  unfold keep_newest. intros H.
  apply (array_sort_In newest_first). revert H.
  generalize (array_sort newest_first vs) as l.
  induction MAX_VERSIONS_PER_DOC as [|n IH]; intros [|x l]; simpl; try easy.
  intros [<- | H]; [now left | right; now apply IH].
Qed.

Lemma kept_versions_of d h (g : JsObject (list DocVersion)) :
  obj_wf g ->
  (forall k vs, In (k, vs) g -> vs = versions_of k h) ->
  versions_of d (flat_map keep_newest (map snd g))
  = if existsb (str_eqb d) (map fst g)
    then keep_newest (versions_of d h) else [].
Proof.
  unfold obj_wf. induction g as [|[k vs] g IH]; intros Hnd Hvs; [reflexivity|].
  cbn [map fst snd flat_map existsb] in *.
  apply NoDup_cons in Hnd as [Hk Hnd].
  rewrite versions_of_app, IH; [|exact Hnd|];
    [|intros k' vs' Hin; apply Hvs; now right].
  rewrite (Hvs k vs) by now left.
  destruct (str_eqb d k) eqn:E; cbn [orb].
  - apply str_eqb_eq in E as <-.
    assert (Hno : existsb (str_eqb d) (map fst g) = false).
    { apply not_true_iff_false. intros H. apply Hk.
      apply list_elem_of_In. now apply mem_In. }
    rewrite Hno, app_nil_r. apply versions_of_all.
    intros v Hv. apply keep_newest_In in Hv. now apply versions_of_docType in Hv.
  - rewrite versions_of_none; [reflexivity|].
    intros v Hv. apply keep_newest_In, versions_of_docType in Hv.
    apply str_eqb_neq in E. congruence.
Qed.

Lemma StronglySorted_app_inv {A} (R : A -> A -> Prop) l1 l2 :
  StronglySorted R (l1 ++ l2) ->
  forall x y, In x l1 -> In y l2 -> R x y.
Proof.
  induction l1 as [|a l1 IH]; [easy|]. cbn [app]. intros H x y Hx Hy.
  apply StronglySorted_inv in H as [Hs Ha]. destruct Hx as [<- | Hx].
  - rewrite List.Forall_forall in Ha. apply Ha. apply in_or_app. now right.
  - now apply IH.
Qed.

(** What is kept of one document type: the most recent versions, at most
    [MAX_VERSIONS_PER_DOC] of them. *)
Lemma keep_newest_spec vs :
  length (keep_newest vs) = Nat.min MAX_VERSIONS_PER_DOC (length vs)
  /\ exists dropped,
       Permutation vs (keep_newest vs ++ dropped)
       /\ forall v w, In v (keep_newest vs) -> In w dropped ->
                      (timestamp w <= timestamp v)%Z.
Proof.
  unfold keep_newest. split.
  - now rewrite length_take, array_sort_length.
  - exists (drop MAX_VERSIONS_PER_DOC (array_sort newest_first vs)). split.
    + rewrite take_drop. symmetry. apply array_sort_perm.
    + apply (StronglySorted_app_inv
               (fun a b => (timestamp b <= timestamp a)%Z)).
      rewrite take_drop. apply newest_first_sorted.
Qed.

Lemma trimSession_history sess trimmed :
  trimSession sess = Normal trimmed ->
  s_id trimmed = s_id sess
  /\ StronglySorted (fun a b => (timestamp a <= timestamp b)%Z)
       (s_documentHistory trimmed)
  /\ forall d,
       Permutation (versions_of d (s_documentHistory trimmed))
         (keep_newest (versions_of d (s_documentHistory sess))).
Proof.
  unfold trimSession.
  destruct (s_documentHistory sess) as [|v0 h0] eqn:Eh.
  - intros [= <-]. cbn [s_id s_documentHistory].
    split; [reflexivity|]. split; [constructor|]. intros d. reflexivity.
  - rewrite <- Eh.
    destruct (group_versions (s_documentHistory sess) []) as [g|] eqn:G;
      [|discriminate].
    intros [= <-]. cbn [s_id s_documentHistory].
    split; [reflexivity|]. split; [apply oldest_first_sorted|]. intros d.
    pose proof (group_versions_grouped _ _ [] _ grouped_nil G)
      as (Hwf & Hvs & Hcov). cbn [app] in Hvs, Hcov.
    rewrite (versions_of_perm d _ _ (array_sort_perm oldest_first _)).
    unfold obj_values.
    rewrite (kept_versions_of d (s_documentHistory sess) (obj_entries g)).
    + destruct (existsb (str_eqb d) (map fst (obj_entries g))) eqn:E;
        [reflexivity|].
      rewrite versions_of_none; [reflexivity|].
      intros v Hv Hd. apply not_true_iff_false in E. apply E.
      apply mem_In. apply Hcov in Hv. rewrite Hd in Hv.
      eapply Permutation_in; [|exact Hv]. symmetry. apply obj_keys_perm.
    + now apply obj_entries_wf.
    + intros k vs Hin. apply Hvs. now apply obj_entries_In.
Qed.

(** C5.  When [saveSession] has stored a session, the stored history is in
    ascending order of timestamp, and of each document type it holds the
    most recent versions by timestamp, at most three of them: every
    version left out is at most as recent as every version kept.  So of five
    versions of one document type exactly three remain. *)
Theorem saved_history_is_trimmed db db' sess :
  saveSession true db sess = Normal db' ->
  exists stored,
    db' !! s_id sess = Some stored
    /\ StronglySorted (fun a b => (timestamp a <= timestamp b)%Z)
         (s_documentHistory stored)
    /\ forall d,
         (length (versions_of d (s_documentHistory stored)) <= 3)%nat
         /\ length (versions_of d (s_documentHistory stored))
            = Nat.min 3 (length (versions_of d (s_documentHistory sess)))
         /\ exists dropped,
              Permutation (versions_of d (s_documentHistory sess))
                (versions_of d (s_documentHistory stored) ++ dropped)
              /\ forall v w,
                   In v (versions_of d (s_documentHistory stored)) ->
                   In w dropped -> (timestamp w <= timestamp v)%Z.
Proof.
  unfold saveSession.
  destruct (trimSession sess) as [trimmed|] eqn:E; [|discriminate].
  intros [= <-]. apply trimSession_history in E as (Hid & Hsorted & Hkept).
  exists trimmed. split; [rewrite Hid; apply lookup_insert_eq|].
  split; [exact Hsorted|]. intros d. specialize (Hkept d).
  destruct (keep_newest_spec (versions_of d (s_documentHistory sess)))
    as (Hlen & dropped & Hperm & Hle).
  assert (Hlen' : length (versions_of d (s_documentHistory trimmed))
                  = Nat.min 3 (length (versions_of d (s_documentHistory sess)))).
  { rewrite (Permutation_length Hkept). exact Hlen. }
  split; [lia|]. split; [exact Hlen'|].
  exists dropped. split.
  - rewrite Hkept. exact Hperm.
  - intros v w Hv Hw. apply Hle; [|exact Hw].
    eapply Permutation_in; [exact Hkept | exact Hv].
Qed.

(** P5: five versions of [PRD] in the session, the three most recent in the
    store, oldest first. *)
Lemma saved_history_is_trimmed_witness :
  let sess := example_session two_documents five_versions in
  let stored :=
    example_session two_documents
      [version_at "PRD" 30; version_at "PRD" 40; version_at "PRD" 50] in
  saveSession true ∅ sess = Normal (<[js "s-1" := stored]> ∅)
  /\ length (versions_of (js "PRD") (s_documentHistory sess)) = 5%nat
  /\ exists stored',
       (<[js "s-1" := stored]> ∅ : SessionStore) !! s_id sess = Some stored'
       /\ StronglySorted (fun a b => (timestamp a <= timestamp b)%Z)
            (s_documentHistory stored')
       /\ forall d,
            (length (versions_of d (s_documentHistory stored')) <= 3)%nat
            /\ length (versions_of d (s_documentHistory stored'))
               = Nat.min 3 (length (versions_of d (s_documentHistory sess)))
            /\ exists dropped,
                 Permutation (versions_of d (s_documentHistory sess))
                   (versions_of d (s_documentHistory stored') ++ dropped)
                 /\ forall v w,
                      In v (versions_of d (s_documentHistory stored')) ->
                      In w dropped -> (timestamp w <= timestamp v)%Z.
Proof.
  intros sess stored.
  assert (H : saveSession true ∅ sess = Normal (<[js "s-1" := stored]> ∅))
    by (vm_compute; reflexivity).
  split; [exact H|]. split; [reflexivity|].
  exact (saved_history_is_trimmed ∅ _ sess H).
Defined.

(** Saving succeeds when no document type of the history is the name of a
    property of [Object.prototype]. *)
Lemma group_versions_succeeds h g :
  Forall (fun v => inherited (docType v) = false) h ->
  exists g', group_versions h g = Normal g'.
Proof.
  intros H. revert g. induction H as [|v h Hv _ IH]; intros g.
  - now exists g.
  - cbn [group_versions]. unfold group_push. rewrite Hv.
    destruct (own_get (docType v) g); apply IH.
Qed.

Lemma saveSession_succeeds db sess :
  Forall (fun v => inherited (docType v) = false) (s_documentHistory sess) ->
  exists db', saveSession true db sess = Normal db'.
Proof.
  intros H. unfold saveSession, trimSession.
  destruct (s_documentHistory sess) as [|v h] eqn:E; [eauto|].
  destruct (group_versions_succeeds (v :: h) [] H) as [g ->]. eauto.
Qed.

(** A history that records a document type named like a property of
    [Object.prototype] makes the trimming throw, and nothing is stored. *)
Lemma trimSession_throws_on_inherited_key :
  trimSession (example_session [] [version_at "toString" 1])
  = Throw TypeError.
Proof. reflexivity. Qed.

(** * More of the block parser *)

(** ** Global matching *)

Section GlobalFacts.
Context {R : Type} (pattern_at : bool -> jsstring -> option (R * jsstring)).

Lemma split_matches_covered u r :
  split_matches pattern_at false (length u) (u ++ r)
  = split_matches pattern_at false 0 r.
Proof. induction u as [|c u IH]; [reflexivity | exact IH]. Qed.

Lemma split_matches_found b c u x rest :
  pattern_at b (c :: u ++ rest) = Some (x, rest) ->
  split_matches pattern_at b 0 (c :: u ++ rest)
  = Found x :: split_matches pattern_at false 0 rest.
Proof.
  intros E. cbn [split_matches]. rewrite E. f_equal.
  rewrite length_app, Nat.add_sub. apply split_matches_covered.
Qed.

Lemma split_matches_kept b c s :
  pattern_at b (c :: s) = None ->
  split_matches pattern_at b 0 (c :: s)
  = Kept c :: split_matches pattern_at false 0 s.
Proof. intros E. cbn [split_matches]. now rewrite E. Qed.

(** whatever holds of every match of the pattern holds of every match the
    global iteration finds *)
Lemma found_matches_Forall (P : R -> Prop) :
  (forall b s x rest, pattern_at b s = Some (x, rest) -> P x) ->
  forall s b covered,
    Forall P (found_matches (split_matches pattern_at b covered s)).
Proof.
  intros HP. induction s as [|c s IH]; intros b covered; [constructor|].
  cbn [split_matches]. destruct covered as [|n]; [|apply IH].
  destruct (pattern_at b (c :: s)) as [[x rest]|] eqn:E.
  - cbn. constructor; [now apply (HP _ _ _ _ E) | apply IH].
  - apply IH.
Qed.

End GlobalFacts.

Lemma found_matches_app {R} (ps qs : list (part R)) :
  found_matches (ps ++ qs) = found_matches ps ++ found_matches qs.
Proof. apply flat_map_app. Qed.

Lemma found_matches_found {R} (r : R) ps :
  found_matches (Found r :: ps) = r :: found_matches ps.
Proof. reflexivity. Qed.

Lemma found_matches_kept {R} s : found_matches (map (@Kept R) s) = [].
Proof. induction s as [|c s IH]; [reflexivity | exact IH]. Qed.

(** a greedy star followed by a literal that starts with a code unit outside
    the class: the star takes the whole run *)
Lemma greedy_star_then_lit {R} p c0 w (k : jsstring -> jsstring -> option R) s :
  p c0 = false ->
  greedy_star p s (fun cap rest => lit (c0 :: w) rest (k cap))
  = match strip_prefix (c0 :: w) (drop_while p s) with
    | Some r => k (take_while p s) r
    | None => None
    end.
Proof.
  intros Hc0. revert k; induction s as [|c s IH]; intros k.
  - reflexivity.
  - cbn [greedy_star drop_while take_while].
    destruct (p c) eqn:Hc; [|reflexivity].
    rewrite (IH (fun cap => k (c :: cap))).
    assert (Hlit : lit (c0 :: w) (c :: s) (k []) = None).
    { unfold lit; cbn [strip_prefix].
      destruct (N.eqb_spec c0 c) as [->|_]; [congruence | reflexivity]. }
    rewrite Hlit.
    now destruct (strip_prefix (c0 :: w) (drop_while p s)) as [r|];
      [destruct (k (c :: take_while p s) r)|].
Qed.

(** ** Image markers *)

Lemma not_tilde_true c : not_tilde c = true <-> c <> tilde.
Proof.
  unfold not_tilde. destruct (N.eqb_spec c tilde); simpl; split; congruence.
Qed.

Lemma imageRegex_at_direct b s : imageRegex_at b s = imageRegex_direct s.
Proof.
  unfold imageRegex_at, imageRegex_direct, lit at 1.
  destruct (strip_prefix image_marker s) as [s1|]; [|reflexivity].
  destruct s1 as [|c s1]; [reflexivity|].
  cbn [greedy_plus take_while drop_while].
  destruct (not_tilde c); [|reflexivity].
  change fence with (tilde :: [tilde; tilde]).
  now rewrite (greedy_star_then_lit not_tilde tilde [tilde; tilde]
                 (fun cap s2 => Some (c :: cap, s2))).
Qed.

Lemma imageRegex_at_Some b s d rest :
  imageRegex_at b s = Some (d, rest) ->
  s = image_marker ++ d ++ fence ++ rest /\ d <> [] /\ ~ In tilde d.
Proof.
  rewrite imageRegex_at_direct. unfold imageRegex_direct.
  destruct (strip_prefix image_marker s) as [s1|] eqn:E; [|discriminate].
  apply strip_prefix_Some in E.
  pose proof (take_drop_while not_tilde s1) as Hsplit.
  pose proof (take_while_Forall not_tilde s1) as Hd.
  destruct (take_while not_tilde s1) as [|c d']; [discriminate|].
  destruct (strip_prefix fence (drop_while not_tilde s1)) as [r|] eqn:F;
    [|discriminate].
  apply strip_prefix_Some in F. intros [= <- <-]. repeat split.
  - now rewrite E, <- Hsplit, F.
  - discriminate.
  - intros Hin. rewrite List.Forall_forall in Hd. apply Hd in Hin.
    now apply not_tilde_true in Hin.
Qed.

Lemma imageRegex_at_exact b d rest :
  d <> [] -> ~ In tilde d ->
  imageRegex_at b (image_marker ++ d ++ fence ++ rest) = Some (d, rest).
Proof.
  intros Hne Hd. rewrite imageRegex_at_direct. unfold imageRegex_direct.
  rewrite strip_prefix_app.
  change fence with (tilde :: [tilde; tilde]).
  destruct (take_while_app_stop not_tilde d tilde ([tilde; tilde] ++ rest))
    as [E1 E2].
  - apply List.Forall_forall. intros c Hc. apply not_tilde_true. congruence.
  - reflexivity.
  - cbn [app] in *. rewrite E1, E2.
    destruct d; [congruence|].
    change (tilde :: tilde :: tilde :: rest)
      with ((tilde :: [tilde; tilde]) ++ rest).
    now rewrite strip_prefix_app.
Qed.

Lemma imageRegex_at_tilde b c s : c <> tilde -> imageRegex_at b (c :: s) = None.
Proof.
  intros Hc. destruct (imageRegex_at b (c :: s)) as [[d r]|] eqn:E;
    [|reflexivity].
  apply imageRegex_at_Some in E as [E _]. now injection E.
Qed.

(** ** [trim], again *)

Lemma drop_while_app_stop p l c :
  p c = false -> drop_while p (l ++ [c]) = drop_while p l ++ [c].
Proof.
  intros Hc. induction l as [|x l IH]; simpl; [now rewrite Hc|].
  now destruct (p x).
Qed.

Lemma drop_while_fixed p c s : p c = false -> drop_while p (c :: s) = c :: s.
Proof. intros Hc. simpl. now rewrite Hc. Qed.

Lemma trimEnd_cons c s :
  is_white c = false -> trimEnd (c :: s) = c :: trimEnd s.
Proof.
  intros Hc. unfold trimEnd. cbn [rev].
  rewrite drop_while_app_stop by exact Hc. now rewrite rev_app_distr.
Qed.

Lemma trimEnd_idempotent s : trimEnd (trimEnd s) = trimEnd s.
Proof.
  unfold trimEnd. rewrite rev_involutive. f_equal.
  destruct (drop_while is_white (rev s)) as [|c l] eqn:E; [reflexivity|].
  apply drop_while_fixed. now apply drop_while_head in E.
Qed.

(** trimming a trimmed string changes nothing *)
Lemma trim_idempotent s : trim (trim s) = trim s.
Proof.
  unfold trim, trimStart.
  destruct (drop_while is_white s) as [|c l] eqn:E.
  - reflexivity.
  - pose proof (drop_while_head _ _ _ _ E) as Hc.
    rewrite trimEnd_cons by exact Hc.
    rewrite drop_while_fixed by exact Hc.
    rewrite <- trimEnd_cons by exact Hc. apply trimEnd_idempotent.
Qed.

(** X1.  No prompt that [parseImageMarkers] returns contains a tilde, and
    each one is trimmed: it has no white space left at either end. *)
Theorem image_prompts_are_clean text prompt :
  In prompt (parseImageMarkers text) ->
  ~ In tilde prompt /\ trim prompt = prompt.
Proof.
  unfold parseImageMarkers. intros Hin.
  apply in_map_iff in Hin as (d & <- & Hd). split; [|apply trim_idempotent].
  intros Ht. apply trim_In in Ht.
  assert (H : Forall (fun d => ~ In tilde d)
                (found_matches (split_matches imageRegex_at true 0 text))).
  { apply found_matches_Forall. intros b s x rest E.
    now apply imageRegex_at_Some in E as (_ & _ & Hx). }
  rewrite List.Forall_forall in H. exact (H d Hd Ht).
Qed.

Lemma image_prompts_are_clean_witness :
  parseImageMarkers image_example
  = [js "login flow"; js "schema"; js "login flow"]
  /\ ~ In tilde (js "login flow") /\ trim (js "login flow") = js "login flow".
Proof.
  assert (E : parseImageMarkers image_example
              = [js "login flow"; js "schema"; js "login flow"])
    by (vm_compute; reflexivity).
  split; [exact E|].
  apply (image_prompts_are_clean image_example). rewrite E. now left.
Defined.

(** ** Streams of image markers *)

Lemma split_image_prose p t b :
  ~ In tilde p ->
  split_matches imageRegex_at b 0 (p ++ t)
  = map Kept p
    ++ split_matches imageRegex_at (match p with [] => b | _ => false end) 0 t.
Proof.
  revert b; induction p as [|c p IH]; intros b Hp; [reflexivity|].
  cbn [app map]. rewrite split_matches_kept.
  - f_equal. rewrite IH by (intros H; apply Hp; now right).
    now destruct p.
  - apply imageRegex_at_tilde. intros ->. apply Hp. now left.
Qed.

Lemma split_image_marker d t b :
  d <> [] -> ~ In tilde d ->
  split_matches imageRegex_at b 0 (image_marker ++ d ++ fence ++ t)
  = Found d :: split_matches imageRegex_at false 0 t.
Proof.
  intros Hne Hd.
  pose proof (imageRegex_at_exact b d t Hne Hd) as E.
  change (image_marker ++ d ++ fence ++ t)
    with (126 :: tl image_marker ++ d ++ fence ++ t) in *.
  replace (tl image_marker ++ d ++ fence ++ t)
    with ((tl image_marker ++ d ++ fence) ++ t) in *
    by now rewrite <- !app_assoc.
  now apply split_matches_found.
Qed.

(** X2.  For a text made of prose that holds no tilde and of image markers
    [~~~image:<description>~~~] whose descriptions are not empty and hold
    no tilde, [parseImageMarkers] returns the trimmed descriptions, all of
    them, in the order of the text, duplicates included. *)
Theorem image_prompts_in_order prose rest :
  ~ In tilde prose ->
  Forall (fun dp => fst dp <> [] /\ ~ In tilde (fst dp)
                    /\ ~ In tilde (snd dp)) rest ->
  parseImageMarkers (image_stream prose rest) = map (fun dp => trim (fst dp)) rest.
Proof.
  intros Hp Hrest. unfold parseImageMarkers, image_stream.
  rewrite split_image_prose by exact Hp.
  rewrite found_matches_app, found_matches_kept. cbn [app].
  generalize (match prose with [] => true | _ => false end) as b.
  clear prose Hp.
  induction Hrest as [|[d p] rest (Hne & Hd & Hpr) _ IH]; intros b;
    [reflexivity|].
  cbn [flat_map fst snd map] in *. rewrite <- !app_assoc.
  rewrite split_image_marker by assumption.
  rewrite split_image_prose by exact Hpr.
  rewrite found_matches_found, found_matches_app, found_matches_kept.
  cbn [app map]. f_equal. apply IH.
Qed.

Lemma image_prompts_in_order_witness :
  image_stream (js "See ")
    [(js " login flow ", js " and "); (js "schema", js ", then ");
     (js " login flow ", js ".")]
  = image_example
  /\ parseImageMarkers image_example
     = [js "login flow"; js "schema"; js "login flow"].
Proof.
  assert (Es : image_stream (js "See ")
                 [(js " login flow ", js " and "); (js "schema", js ", then ");
                  (js " login flow ", js ".")] = image_example)
    by (vm_compute; reflexivity).
  split; [exact Es|]. rewrite <- Es.
  rewrite image_prompts_in_order.
  - vm_compute. reflexivity.
  - absent_by_evaluation.
  - repeat constructor; cbn [fst snd];
      try discriminate; absent_by_evaluation.
Defined.

(** ** [truncate] *)

(** X3.  For a bound that is not negative, [truncate] returns a string no
    longer than the bound plus one and no longer than the original, which
    agrees with the original on its first [maxLength] code units; it is the
    original when that fits the bound, and otherwise its first [maxLength]
    code units followed by the ellipsis. *)
Theorem truncate_bounds str maxLength :
  (0 <= maxLength)%Z ->
  (Z.of_nat (length (truncate str maxLength)) <= maxLength + 1)%Z
  /\ (length (truncate str maxLength) <= length str)%nat
  /\ take (Z.to_nat maxLength) (truncate str maxLength)
     = take (Z.to_nat maxLength) str
  /\ ((Z.of_nat (length str) <= maxLength)%Z -> truncate str maxLength = str)
  /\ ((maxLength < Z.of_nat (length str))%Z ->
      truncate str maxLength = take (Z.to_nat maxLength) str ++ [ellipsis]).
Proof.
  intros Hn. unfold truncate, slice_to.
  destruct (Z.leb_spec (Z.of_nat (length str)) maxLength) as [Hle | Hgt].
  - repeat split; try lia; try reflexivity.
  - destruct (Z.ltb_spec maxLength 0) as [Hneg | _]; [lia|].
    assert (Hlen : length (take (Z.to_nat maxLength) str) = Z.to_nat maxLength)
      by (rewrite length_take; lia).
    repeat split; try lia.
    + rewrite length_app, Hlen. cbn [length]. lia.
    + rewrite length_app, Hlen. cbn [length]. lia.
    + rewrite take_app_le by lia. apply take_take_eq || (rewrite take_take; f_equal; lia).
Qed.

Lemma truncate_bounds_witness :
  truncate (js "documentation") 3 = js "doc" ++ [ellipsis]
  /\ (Z.of_nat (length (truncate (js "documentation") 3)) <= 3 + 1)%Z
  /\ truncate (js "doc") 3 = js "doc".
Proof.
  destruct (truncate_bounds (js "documentation") 3 ltac:(lia))
    as (Hlen & _ & _ & _ & Hlong).
  destruct (truncate_bounds (js "doc") 3 ltac:(lia)) as (_ & _ & _ & Hshort & _).
  split; [|split].
  - rewrite Hlong by (vm_compute; reflexivity). reflexivity.
  - exact Hlen.
  - apply Hshort. vm_compute. discriminate.
Defined.

(** ** A growing stream *)

Lemma strip_prefix_app_Some w s r q :
  strip_prefix w s = Some r -> strip_prefix w (s ++ q) = Some (r ++ q).
Proof.
  intros E. apply strip_prefix_Some in E as ->.
  rewrite <- app_assoc. apply strip_prefix_app.
Qed.

Lemma strip_prefix_app_inv w s q :
  (length w <= length s)%nat ->
  is_Some (strip_prefix w (s ++ q)) -> is_Some (strip_prefix w s).
Proof.
  revert s; induction w as [|a w IH]; intros s Hlen; simpl; [eauto|].
  destruct s as [|c s]; [simpl in Hlen; lia|]. cbn [app].
  destruct (a =? c); [|easy]. apply IH. simpl in Hlen. lia.
Qed.

Lemma find_fence_app s b r q :
  find_fence s = Some (b, r) -> find_fence (s ++ q) = Some (b, r ++ q).
Proof.
  revert b; induction s as [|c s IH]; intros b; cbn [find_fence].
  - destruct (strip_prefix fence []) eqn:E; discriminate.
  - destruct (strip_prefix fence (c :: s)) as [rest|] eqn:E.
    + intros [= <- <-]. apply strip_prefix_Some in E. rewrite E.
      rewrite <- app_assoc. apply find_fence_here.
    + destruct (find_fence s) as [[b' r']|] eqn:F; [|discriminate].
      intros [= <- <-]. cbn [app find_fence].
      assert (E' : strip_prefix fence (c :: s ++ q) = None).
      { destruct (strip_prefix fence (c :: s ++ q)) eqn:E'; [|reflexivity].
        exfalso.
        assert (Hlen : (length fence <= length (c :: s))%nat).
        { apply find_fence_decomp in F. rewrite F.
          cbn [length]. rewrite !length_app. lia. }
        destruct (strip_prefix_app_inv fence (c :: s) q Hlen) as [x Hx].
        - cbn [app]. rewrite E'. eauto.
        - congruence. }
      rewrite E', (IH b' eq_refl). reflexivity.
Qed.

Lemma take_while_app_more p s d s3 q :
  drop_while p s = d :: s3 ->
  take_while p (s ++ q) = take_while p s
  /\ drop_while p (s ++ q) = d :: s3 ++ q.
Proof.
  intros E. pose proof (take_drop_while p s) as Hs. rewrite E in Hs.
  rewrite <- Hs at 1 3. rewrite <- app_assoc. cbn [app].
  apply take_while_app_stop.
  - apply take_while_Forall.
  - now apply drop_while_head in E.
Qed.

Lemma docRegex_at_app s m q :
  docRegex_at s = Some m ->
  docRegex_at (s ++ q)
  = Some {| m_label := m_label m; m_body := m_body m;
            m_rest := m_rest m ++ q |}.
Proof.
  rewrite !docRegex_at_direct. unfold docRegex_direct.
  destruct (strip_prefix doc_marker s) as [s1|] eqn:E; [|discriminate].
  rewrite (strip_prefix_app_Some _ _ _ q E).
  destruct (take_while not_newline s1) as [|c label] eqn:T; [discriminate|].
  destruct (drop_while not_newline s1) as [|d s3] eqn:D; [discriminate|].
  destruct (take_while_app_more _ _ _ _ q D) as [-> ->]. rewrite T.
  destruct (find_fence s3) as [[body rest]|] eqn:F; [|discriminate].
  intros [= <-]. now rewrite (find_fence_app _ _ _ q F).
Qed.

Lemma first_newline_suffix a b u tail :
  ~ In newline a -> a ++ newline :: b = u ++ newline :: tail ->
  exists w, b = w ++ tail.
Proof.
  revert u; induction a as [|x a IH]; intros u Ha E.
  - destruct u as [|y u]; cbn [app] in E.
    + injection E as ->. now exists [].
    + injection E as _ ->. exists (u ++ [newline]). now rewrite <- app_assoc.
  - destruct u as [|y u]; cbn [app] in E.
    + injection E as Hx _. exfalso. apply Ha. left. exact Hx.
    + injection E as _ E. apply (IH u); [|exact E].
      intros H. apply Ha. now right.
Qed.

Lemma after_marker c s s1 :
  c :: s = doc_marker ++ s1 -> s = tl doc_marker ++ s1.
Proof. intros H. apply (f_equal (@tl N)) in H. exact H. Qed.

Lemma no_newline_in_marker : ~ In newline (tl doc_marker).
Proof. vm_compute. intuition discriminate. Qed.

(** a marker that nothing closes yet leaves no block after it *)
Lemma unclosed_marker_blocks_the_rest c s q m :
  docRegex_at (c :: s) = None -> docRegex_at (c :: s ++ q) = Some m ->
  ~ has_closed_block s.
Proof.
  rewrite !docRegex_at_direct. unfold docRegex_direct.
  intros Hnone Hsome (pre & label & tail & Hs & Hne & Hnl & Hocc).
  assert (Hlen : (length doc_marker <= length (c :: s))%nat).
  { rewrite Hs. cbn [length]. rewrite !length_app. cbn. lia. }
  destruct (strip_prefix doc_marker (c :: s ++ q)) as [s1'|] eqn:E';
    [|discriminate].
  destruct (strip_prefix_app_inv doc_marker (c :: s) q Hlen) as [s1 E].
  { cbn [app]. rewrite E'. eauto. }
  rewrite E in Hnone.
  pose proof (strip_prefix_app_Some _ _ _ q E) as E2. cbn [app] in E2.
  rewrite E' in E2. injection E2 as ->.
  apply strip_prefix_Some, after_marker in E.
  pose proof (take_drop_while not_newline s1) as Hsplit.
  pose proof (take_while_Forall not_newline s1) as Hlab.
  assert (Hlab' : ~ In newline (tl doc_marker ++ take_while not_newline s1)).
  { intros H. apply in_app_or in H as [H | H].
    - now apply no_newline_in_marker.
    - rewrite List.Forall_forall in Hlab. apply Hlab in H.
      now apply not_newline_true in H. }
  destruct (drop_while not_newline s1) as [|d s3] eqn:D.
  - (* no line break after the marker *)
    rewrite app_nil_r in Hsplit. apply Hlab'. rewrite Hsplit, <- E, Hs.
    apply in_or_app; right. apply in_or_app; right. apply in_or_app; right.
    now left.
  - pose proof (drop_while_head _ _ _ _ D) as Hd.
    apply not_newline_false in Hd. subst d.
    assert (Hs' : (tl doc_marker ++ take_while not_newline s1) ++ newline :: s3
                  = (pre ++ doc_marker ++ label) ++ newline :: tail).
    { rewrite <- (app_assoc (tl doc_marker)), Hsplit, <- E, Hs.
      now rewrite <- !app_assoc. }
    destruct (first_newline_suffix _ _ _ _ Hlab' Hs') as [w Hw].
    assert (Hf : is_Some (find_fence s3)).
    { apply find_fence_complete. rewrite Hw. now apply occurs_app_l. }
    destruct Hf as [[body rest] Hf]. rewrite Hf in Hnone.
    destruct (take_while not_newline s1) as [|x label0] eqn:T;
      [|discriminate].
    (* the label line is empty: in the longer text as well *)
    cbn [app] in Hsplit. rewrite <- Hsplit in Hsome. cbn [app] in Hsome.
    unfold take_while in Hsome. fold take_while in Hsome.
    assert (Hn : not_newline newline = false) by reflexivity.
    now rewrite Hn in Hsome.
Qed.

(** X4.  Parsing a longer text finds the blocks of every prefix first: the
    matches of [p ++ q] are the matches of [p] followed by further ones, and
    the documents of [p ++ q] are the documents of [p] updated by the
    further blocks.  A growing stream never retracts a block it has
    delivered. *)
Theorem parsed_blocks_grow_with_the_stream p q :
  exists later,
    matched_blocks (scan 0 (p ++ q)) = matched_blocks (scan 0 p) ++ later
    /\ documents (parseDocumentBlocks (p ++ q))
       = fold_left
           (fun docs m => obj_assign (trim (fst m)) (trim (snd m)) docs)
           later (documents (parseDocumentBlocks p)).
Proof.
  assert (H : exists later,
             matched_blocks (scan 0 (p ++ q))
             = matched_blocks (scan 0 p) ++ later).
  { apply (scan_induction (fun s ps => exists later,
             matched_blocks (scan 0 (s ++ q)) = matched_blocks ps ++ later)).
    - now exists (matched_blocks (scan 0 q)).
    - intros s m E [later IH].
      rewrite (scan_match _ _ (docRegex_at_app _ _ q E)).
      cbn [m_label m_body m_rest]. rewrite !matched_blocks_matched, IH.
      now exists later.
    - intros c s E [later IH]. cbn [app].
      destruct (docRegex_at (c :: s ++ q)) as [m|] eqn:E'.
      + pose proof (unclosed_marker_blocks_the_rest _ _ _ _ E E') as Hno.
        rewrite (scan_without_block s Hno).
        change (Outside c :: map Outside s) with (map Outside (c :: s)).
        rewrite matched_blocks_all. eexists. reflexivity.
      + rewrite (scan_nomatch _ _ E'). exact (ex_intro _ later IH). }
  destruct H as [later H]. exists later. split; [exact H|].
  unfold parseDocumentBlocks; cbn [documents]. unfold collect_documents.
  now rewrite H, fold_left_app.
Qed.

(** ** Streams with distinct labels *)

Lemma fold_assign_fresh ms (o : JsObject jsstring) :
  NoDup (map (fun m => trim (fst m)) ms) ->
  Forall (fun m => trim (fst m) <> proto_key
                   /\ own_get (trim (fst m)) o = None) ms ->
  fold_left (fun docs m => obj_assign (trim (fst m)) (trim (snd m)) docs) ms o
  = o ++ map (fun m => (trim (fst m), trim (snd m))) ms.
Proof.
  revert o; induction ms as [|m ms IH]; intros o Hnd Hall.
  - now rewrite app_nil_r.
  - cbn [map] in Hnd. apply NoDup_cons in Hnd as [Hm Hnd].
    apply Forall_cons in Hall as [[Hp Ho] Hall]. cbn [fold_left map].
    unfold obj_assign at 2. rewrite Ho.
    apply str_eqb_neq in Hp. rewrite Hp. rewrite IH.
    + now rewrite <- app_assoc.
    + exact Hnd.
    + rewrite List.Forall_forall in *. intros m' Hm'.
      destruct (Hall m' Hm') as [Hp' Ho']. split; [exact Hp'|].
      rewrite own_get_app, Ho'. cbn [own_get].
      destruct (str_eqb (trim (fst m')) (trim (fst m))) eqn:E; [|reflexivity].
      apply str_eqb_eq in E. exfalso. apply Hm. rewrite <- E.
      apply list_elem_of_In. now apply (in_map (fun m => trim (fst m))).
Qed.

Lemma flat_map_quiet {A B} (f : A -> list B) l :
  Forall (fun x => f x = []) l -> flat_map f l = [].
Proof.
  induction 1 as [|x l Hx _ IH]; [reflexivity|]. cbn [flat_map].
  now rewrite Hx, IH.
Qed.

Lemma filter_id {A} (f : A -> bool) l :
  Forall (fun x => f x = true) l -> List.filter f l = l.
Proof.
  induction 1 as [|x l Hx _ IH]; [reflexivity|]. cbn [List.filter].
  now rewrite Hx, IH.
Qed.

Lemma obj_entries_named {V} (o : JsObject V) :
  Forall (fun e => array_index (fst e) = None) o -> obj_entries o = o.
Proof.
  intros H. unfold obj_entries, index_entries, named_entries.
  rewrite flat_map_quiet, filter_id; [reflexivity| |];
    (eapply Forall_impl; [exact H|]); intros e He; now rewrite He.
Qed.

(** the properties are created in the order of the blocks *)
Lemma documents_created_in_order prose rest :
  ~ occurs doc_marker prose ->
  Forall (fun bp => closed_block (fst bp) /\ ~ occurs doc_marker (snd bp))
    rest ->
  NoDup (map (fun bp => trim (b_label (fst bp))) rest) ->
  Forall (fun bp => trim (b_label (fst bp)) <> proto_key) rest ->
  documents (parseDocumentBlocks (stream_text prose rest))
  = map (fun bp => (trim (b_label (fst bp)), trim (b_body (fst bp)))) rest.
Proof.
  intros Hp Hrest Hnd Hproto.
  unfold parseDocumentBlocks; cbn [documents].
  rewrite scan_stream_marker, matched_blocks_stream by assumption.
  unfold collect_documents. rewrite fold_assign_fresh.
  - cbn [app]. now rewrite map_map.
  - now rewrite map_map.
  - apply List.Forall_forall. intros m Hm.
    apply in_map_iff in Hm as (bp & <- & Hbp). cbn [fst]. split; [|reflexivity].
    rewrite List.Forall_forall in Hproto. now apply Hproto.
Qed.

(** X5.  For a text made of prose that holds no [~~~doc:] and of closed
    blocks whose trimmed labels differ from one another and from
    [__proto__], the documents returned have one own property per block,
    which binds the trimmed label to the trimmed body, and no other; and
    when no trimmed label is an array index, their enumeration lists them in
    the order of the text. *)
Theorem documents_of_a_stream prose rest :
  ~ occurs doc_marker prose ->
  Forall (fun bp => closed_block (fst bp) /\ ~ occurs doc_marker (snd bp))
    rest ->
  NoDup (map (fun bp => trim (b_label (fst bp))) rest) ->
  Forall (fun bp => trim (b_label (fst bp)) <> proto_key) rest ->
  (forall bp, In bp rest ->
     own_get (trim (b_label (fst bp)))
       (documents (parseDocumentBlocks (stream_text prose rest)))
     = Some (trim (b_body (fst bp))))
  /\ Permutation
       (obj_entries (documents (parseDocumentBlocks (stream_text prose rest))))
       (map (fun bp => (trim (b_label (fst bp)), trim (b_body (fst bp)))) rest)
  /\ (Forall (fun bp => array_index (trim (b_label (fst bp))) = None) rest ->
      obj_entries (documents (parseDocumentBlocks (stream_text prose rest)))
      = map (fun bp => (trim (b_label (fst bp)), trim (b_body (fst bp))))
          rest).
Proof.
  intros Hp Hrest Hnd Hproto.
  rewrite (documents_created_in_order prose rest Hp Hrest Hnd Hproto).
  split; [|split].
  - intros bp Hbp. apply own_get_wf.
    + unfold obj_wf. now rewrite map_map.
    + now apply (in_map (fun bp => (trim (b_label (fst bp)),
                                    trim (b_body (fst bp))))) in Hbp.
  - apply obj_entries_perm.
  - intros Hnamed. apply obj_entries_named.
    apply List.Forall_forall. intros e He.
    apply in_map_iff in He as (bp & <- & Hbp). cbn [fst].
    rewrite List.Forall_forall in Hnamed. now apply Hnamed.
Qed.

Lemma documents_of_a_stream_witness :
  obj_entries (documents (parseDocumentBlocks scenarioA))
  = [(js "PRD", js ("# My PRD" ++ nl ++ "content"))].
Proof.
  assert (Hs : stream_text scenarioA_prose scenarioA_rest = scenarioA)
    by (vm_compute; reflexivity).
  rewrite <- Hs.
  destruct (documents_of_a_stream scenarioA_prose scenarioA_rest)
    as (_ & _ & H).
  - absent_by_evaluation.
  - repeat constructor; cbn [fst snd b_label b_body];
      try discriminate; absent_by_evaluation.
  - cbn. repeat constructor. intros H. inversion H.
  - repeat constructor. vm_compute. discriminate.
  - rewrite H; [vm_compute; reflexivity | repeat constructor].
Defined.

(** Labels that are array indices are enumerated in numeric order, whatever
    the order of their blocks. *)
Example numeric_labels_are_enumerated_first :
  documents (parseDocumentBlocks numeric_labels)
  = [(js "2", js "second"); (js "1", js "first")]
  /\ obj_entries (documents (parseDocumentBlocks numeric_labels))
     = [(js "1", js "first"); (js "2", js "second")].
Proof. vm_compute. split; reflexivity. Qed.

(** * More of the storage module *)

(** ** What trimming leaves alone *)

Lemma trimSession_fields sess trimmed :
  trimSession sess = Normal trimmed ->
  s_id trimmed = s_id sess /\ s_name trimmed = s_name sess
  /\ s_instructionKey trimmed = s_instructionKey sess
  /\ s_createdAt trimmed = s_createdAt sess
  /\ s_updatedAt trimmed = s_updatedAt sess
  /\ s_documents trimmed = s_documents sess
  /\ s_messages trimmed = trim_messages (s_messages sess).
Proof.
  unfold trimSession. destruct (s_documentHistory sess) as [|v h].
  - intros [= <-]. now repeat split.
  - destruct (group_versions (v :: h) []); [|discriminate].
    intros [= <-]. now repeat split.
Qed.

(** X6.  Trimming touches the messages and the history only: the other
    fields, the documents among them, are stored as they are.  Of the
    messages the last 200 are kept, in their order; up to 200 messages are
    all kept. *)
Theorem trimSession_keeps_last_messages sess trimmed :
  trimSession sess = Normal trimmed ->
  s_documents trimmed = s_documents sess
  /\ s_name trimmed = s_name sess
  /\ s_instructionKey trimmed = s_instructionKey sess
  /\ s_createdAt trimmed = s_createdAt sess
  /\ s_updatedAt trimmed = s_updatedAt sess
  /\ length (s_messages trimmed)
     = Nat.min 200 (length (s_messages sess))
  /\ exists dropped, s_messages sess = dropped ++ s_messages trimmed.
Proof.
  intros H. apply trimSession_fields in H as (_ & Hn & Hk & Hc & Hu & Hd & Hm).
  repeat (split; [assumption|]). rewrite Hm. unfold trim_messages, MAX_MESSAGES.
  destruct (Nat.ltb_spec 200 (length (s_messages sess))) as [Hlt | Hle].
  - split.
    + rewrite length_drop. clear - Hlt. lia.
    + exists (take (length (s_messages sess) - 200) (s_messages sess)).
      now rewrite take_drop.
  - split; [clear - Hle; lia|]. now exists [].
Qed.

Lemma trimSession_keeps_last_messages_witness :
  exists trimmed,
    trimSession long_chat = Normal trimmed
    /\ length (s_messages trimmed) = 200%nat
    /\ s_messages long_chat
       = [example_message "first" "hello"] ++ s_messages trimmed
    /\ s_documents trimmed = two_documents.
Proof.
  destruct (trimSession long_chat) as [trimmed|] eqn:E;
    [|vm_compute in E; discriminate].
  exists trimmed. split; [reflexivity|].
  destruct (trimSession_keeps_last_messages _ _ E)
    as (Hd & _ & _ & _ & _ & Hl & _).
  split; [exact Hl|]. split; [|exact Hd].
  vm_compute in E. injection E as <-. reflexivity.
Defined.

(** ** Histories that need no trimming *)

Lemma versions_of_cons d v h :
  versions_of d (v :: h)
  = (if str_eqb (docType v) d then [v] else []) ++ versions_of d h.
Proof.
  unfold versions_of. cbn [List.filter].
  now destruct (str_eqb (docType v) d).
Qed.

Lemma versions_of_In d v h :
  In v (versions_of d h) <-> In v h /\ docType v = d.
Proof.
  unfold versions_of. rewrite filter_In.
  split; intros [H1 H2]; (split; [exact H1|]); now apply str_eqb_eq.
Qed.

(** two histories that agree type by type agree as a whole *)
Lemma perm_by_docType l l' :
  (forall d, Permutation (versions_of d l) (versions_of d l')) ->
  Permutation l l'.
Proof.
  revert l'; induction l as [|v l IH]; intros l' H.
  - destruct l' as [|w l']; [reflexivity|]. exfalso.
    specialize (H (docType w)). rewrite versions_of_cons, str_eqb_refl in H.
    cbn [versions_of List.filter app] in H.
    now apply Permutation_nil in H.
  - assert (Hin : In v l').
    { apply (versions_of_In (docType v)).
      apply (Permutation_in _ (H (docType v))).
      rewrite versions_of_cons, str_eqb_refl. now left. }
    apply in_split in Hin as (a & b & ->).
    apply Permutation_cons_app. apply IH. intros d. specialize (H d).
    rewrite versions_of_app, versions_of_cons in H.
    rewrite versions_of_cons in H. rewrite versions_of_app.
    destruct (str_eqb (docType v) d); cbn [app] in H.
    + now apply Permutation_cons_app_inv in H.
    + exact H.
Qed.

Lemma keep_newest_short vs :
  (length vs <= MAX_VERSIONS_PER_DOC)%nat -> Permutation (keep_newest vs) vs.
Proof.
  intros H. unfold keep_newest. rewrite take_ge.
  - apply array_sort_perm.
  - now rewrite array_sort_length.
Qed.

(** X7.  A history that holds at most three versions of every document type
    loses nothing when it is trimmed: what is stored is the same versions,
    reordered by time stamp. *)
Theorem short_history_is_kept sess trimmed :
  (forall d, (length (versions_of d (s_documentHistory sess)) <= 3)%nat) ->
  trimSession sess = Normal trimmed ->
  Permutation (s_documentHistory trimmed) (s_documentHistory sess)
  /\ StronglySorted (fun a b => (timestamp a <= timestamp b)%Z)
       (s_documentHistory trimmed).
Proof.
  intros Hshort H. apply trimSession_history in H as (_ & Hsorted & Hperm).
  split; [|exact Hsorted]. apply perm_by_docType. intros d.
  rewrite (Hperm d). apply keep_newest_short, Hshort.
Qed.

Lemma short_history_is_kept_witness :
  Permutation
    [version_at "Roadmap" 10; version_at "Roadmap" 20; version_at "PRD" 30;
     version_at "PRD" 40; version_at "PRD" 50]
    mixed_versions.
Proof.
  assert (H : trimSession (example_session [] mixed_versions)
              = Normal (example_session []
                          [version_at "Roadmap" 10; version_at "Roadmap" 20;
                           version_at "PRD" 30; version_at "PRD" 40;
                           version_at "PRD" 50]))
    by (vm_compute; reflexivity).
  refine (proj1 (short_history_is_kept _ _ _ H)).
  intros d. cbn [example_session s_documentHistory].
  destruct (str_eqb (js "PRD") d) eqn:E.
  - apply str_eqb_eq in E as <-. vm_compute. lia.
  - unfold mixed_versions, versions_of, version_at.
    cbn [List.filter docType]. rewrite !E.
    destruct (str_eqb (js "Roadmap") d); cbn [length]; lia.
Defined.

(** X8.  Trimming invents nothing and never loses the latest state of a
    document: every stored version is one of the history, and for every
    version of the history a version of the same document type that is at
    least as recent is stored. *)
Theorem newest_version_survives sess trimmed :
  trimSession sess = Normal trimmed ->
  (forall v, In v (s_documentHistory trimmed) ->
             In v (s_documentHistory sess))
  /\ forall v, In v (s_documentHistory sess) ->
       exists w, In w (s_documentHistory trimmed)
                 /\ docType w = docType v
                 /\ (timestamp v <= timestamp w)%Z.
Proof.
  intros H. apply trimSession_history in H as (_ & _ & Hperm). split.
  - intros v Hv.
    assert (Hv' : In v (versions_of (docType v) (s_documentHistory trimmed)))
      by now apply versions_of_In.
    apply (Permutation_in _ (Hperm _)), keep_newest_In in Hv'.
    now apply versions_of_In in Hv'.
  - intros v Hv. set (d := docType v).
    assert (Hv' : In v (versions_of d (s_documentHistory sess)))
      by now apply versions_of_In.
    destruct (keep_newest_spec (versions_of d (s_documentHistory sess)))
      as (Hlen & dropped & Hsplit & Hle).
    assert (Hback : forall w,
               In w (keep_newest (versions_of d (s_documentHistory sess))) ->
               In w (s_documentHistory trimmed) /\ docType w = d).
    { intros w Hw. apply (versions_of_In d).
      now apply (Permutation_in _ (Permutation_sym (Hperm d))). }
    pose proof (Permutation_in _ Hsplit Hv') as Hcase.
    apply in_app_or in Hcase as [Hk | Hd].
    + exists v. destruct (Hback v Hk) as [Hin _]. repeat split; [exact Hin|lia].
    + destruct (keep_newest (versions_of d (s_documentHistory sess)))
        as [|w kept] eqn:E.
      * exfalso. cbn [length] in Hlen.
        destruct (versions_of d (s_documentHistory sess)); [easy|].
        unfold MAX_VERSIONS_PER_DOC in Hlen. cbn [length] in Hlen. lia.
      * exists w. destruct (Hback w (or_introl eq_refl)) as [Hin Hdw].
        repeat split; [exact Hin | exact Hdw |].
        apply Hle; [now left | exact Hd].
Qed.

Lemma newest_version_survives_witness :
  exists w, In w [version_at "PRD" 30; version_at "PRD" 40;
                  version_at "PRD" 50]
            /\ docType w = js "PRD" /\ (10 <= timestamp w)%Z.
Proof.
  assert (H : trimSession (example_session [] five_versions)
              = Normal (example_session []
                          [version_at "PRD" 30; version_at "PRD" 40;
                           version_at "PRD" 50]))
    by (vm_compute; reflexivity).
  refine (proj2 (newest_version_survives _ _ H) (version_at "PRD" 10) _).
  cbn. tauto.
Defined.

(** ** The debounced save *)

Lemma trimSession_succeeds sess :
  Forall (fun v => inherited (docType v) = false) (s_documentHistory sess) ->
  exists trimmed, trimSession sess = Normal trimmed.
Proof.
  intros H. unfold trimSession.
  destruct (s_documentHistory sess) as [|v h] eqn:E; [eauto|].
  destruct (group_versions_succeeds (v :: h) [] H) as [g ->]. eauto.
Qed.

Lemma save_and_forget_lookup db sess trimmed :
  trimSession sess = Normal trimmed ->
  save_and_forget db sess !! s_id sess = Some trimmed.
Proof.
  intros H. unfold save_and_forget, saveSession. rewrite H.
  apply trimSession_fields in H as (-> & _). apply lookup_insert_eq.
Qed.

Lemma debounce_all_snoc ss s a :
  debounce_all (ss ++ [s]) a
  = {| page := page a; debounceTimer := Some 300%Z;
       pendingSession := Some s |}.
Proof.
  unfold debounce_all. rewrite fold_left_app. cbn [fold_left].
  unfold debouncedSaveSession at 1. f_equal.
  generalize a. induction ss as [|s' ss IH]; intros a0; [reflexivity|].
  cbn [fold_left]. now rewrite IH.
Qed.

(** X9.  Calls of [debouncedSaveSession] in a row write nothing; when the
    timer then fires, or the pending save is flushed, the session of the
    last call is saved, and no other; after that nothing is pending, and a
    timer that fires again writes nothing. *)
Theorem debounced_saves_coalesce ss s a :
  store (page (debounce_all (ss ++ [s]) a)) = store (page a)
  /\ timer_fires (debounce_all (ss ++ [s]) a)
     = flushPendingSave (debounce_all (ss ++ [s]) a)
  /\ store (page (timer_fires (debounce_all (ss ++ [s]) a)))
     = save_and_forget (store (page a)) s
  /\ pendingSession (timer_fires (debounce_all (ss ++ [s]) a)) = None
  /\ timer_fires (timer_fires (debounce_all (ss ++ [s]) a))
     = timer_fires (debounce_all (ss ++ [s]) a).
Proof.
  rewrite debounce_all_snoc. repeat split.
Qed.

(** X10.  A messages update followed by a documents update before the timer
    fires (the order in which [sendMessage] and [handleStop] call them)
    ends, once the timer fires, with the session of the messages update in
    the store: the stored documents are the ones from before the merge,
    while the page shows the merged ones. *)
Theorem debounced_save_stores_old_documents now1 now2 messages newDocs a prev :
  session (page a) = Some prev ->
  Forall (fun v => inherited (docType v) = false) (s_documentHistory prev) ->
  exists stored live,
    store (page (timer_fires
                   (on_page (handleDocumentsUpdate now2 newDocs)
                      (handleMessagesUpdate now1 messages a))))
      !! s_id prev = Some stored
    /\ session (page (timer_fires
                        (on_page (handleDocumentsUpdate now2 newDocs)
                           (handleMessagesUpdate now1 messages a))))
       = Some live
    /\ s_documents stored = s_documents prev
    /\ s_documents live = merge_documents newDocs (s_documents prev)
    /\ s_messages stored = trim_messages messages
    /\ s_messages live = messages
    /\ s_updatedAt stored = now1 /\ s_updatedAt live = now2.
Proof.
  intros Hs Hh. unfold handleMessagesUpdate. rewrite Hs.
  set (updated := {| s_id := s_id prev; s_name := s_name prev;
                     s_instructionKey := s_instructionKey prev;
                     s_createdAt := s_createdAt prev; s_updatedAt := now1;
                     s_messages := messages; s_documents := s_documents prev;
                     s_documentHistory := s_documentHistory prev |}).
  destruct (trimSession_succeeds updated Hh) as [stored Ht].
  pose proof (trimSession_fields _ _ Ht) as (_ & _ & _ & _ & Hu & Hd & Hm).
  exists stored.
  unfold debouncedSaveSession, on_page, timer_fires, save_pending.
  cbn [page debounceTimer pendingSession with_store store].
  rewrite (save_and_forget_lookup _ updated stored Ht : _ !! s_id prev = _).
  unfold handleDocumentsUpdate. cbn [session].
  eexists. split; [reflexivity|]. split.
  - destruct (obj_keys newDocs) as [|[|? ?] ?]; reflexivity.
  - now repeat split.
Qed.

Lemma debounced_save_stores_old_documents_witness :
  exists stored live,
    store (page (timer_fires
                   (on_page (handleDocumentsUpdate 20 [(js "PRD", js "v2")])
                      (handleMessagesUpdate 10 [example_message "m" "hi"]
                         (example_app two_documents)))))
      !! js "s-1" = Some stored
    /\ session (page (timer_fires
                   (on_page (handleDocumentsUpdate 20 [(js "PRD", js "v2")])
                      (handleMessagesUpdate 10 [example_message "m" "hi"]
                         (example_app two_documents)))))
       = Some live
    /\ own_get (js "PRD") (s_documents stored) = Some (js "v1")
    /\ own_get (js "PRD") (s_documents live) = Some (js "v2").
Proof.
  destruct (debounced_save_stores_old_documents 10 20
              [example_message "m" "hi"] [(js "PRD", js "v2")]
              (example_app two_documents) (example_session two_documents [])
              eq_refl (List.Forall_nil _))
    as (stored & live & H1 & H2 & H3 & H4 & _).
  exists stored, live. split; [exact H1|]. split; [exact H2|].
  rewrite H3, H4. split; reflexivity.
Defined.

(** * More of the session page *)

Lemma own_get_entries {V} k (o : JsObject V) :
  obj_wf o -> own_get k (obj_entries o) = own_get k o.
Proof.
  intros Hwf. destruct (own_get k o) as [v|] eqn:E.
  - apply own_get_wf; [now apply obj_entries_wf|].
    apply obj_entries_In. now apply own_get_In.
  - destruct (own_get k (obj_entries o)) as [v|] eqn:E'; [|reflexivity].
    apply own_get_In, (proj1 (obj_entries_In _ _)) in E'.
    assert (H : is_Some (own_get k o)).
    { apply own_get_is_Some. now apply (in_map fst) in E'. }
    rewrite E in H. now destruct H.
Qed.

Lemma obj_define_get_eq {V} k (v : V) o : own_get k (obj_define k v o) = Some v.
Proof.
  unfold obj_define. destruct (own_get k o) eqn:E.
  - apply own_get_update_eq. now rewrite E.
  - rewrite own_get_app, E. cbn [own_get]. now rewrite str_eqb_refl.
Qed.

Lemma obj_define_get_ne {V} k k' (v : V) o :
  k <> k' -> own_get k (obj_define k' v o) = own_get k o.
Proof.
  intros Hne. unfold obj_define. destruct (own_get k' o) eqn:E.
  - now apply own_get_update_ne.
  - rewrite own_get_app. destruct (own_get k o); [reflexivity|].
    cbn [own_get]. apply str_eqb_neq in Hne. now rewrite Hne.
Qed.

(** X11.  An edit binds the edited document type to the new content,
    whatever the type is called ([__proto__] as well), and changes no
    other document; it records no version, and leaves the messages, the
    active document and the verifier state as they are. *)
Theorem edit_sets_one_document now d c p prev :
  session p = Some prev -> obj_wf (s_documents prev) ->
  exists updated,
    session (handleDocumentEdit now d c p) = Some updated
    /\ own_get d (s_documents updated) = Some c
    /\ (forall k, k <> d ->
          own_get k (s_documents updated) = own_get k (s_documents prev))
    /\ s_documentHistory updated = s_documentHistory prev
    /\ s_messages updated = s_messages prev
    /\ activeDoc (handleDocumentEdit now d c p) = activeDoc p
    /\ verifierState (handleDocumentEdit now d c p) = verifierState p.
Proof.
  intros Hs Hwf. unfold handleDocumentEdit. rewrite Hs.
  eexists. split; [reflexivity|]. cbn [s_documents s_documentHistory s_messages
                                       set_session activeDoc verifierState].
  split; [apply obj_define_get_eq|]. split; [|now repeat split].
  intros k Hk. rewrite obj_define_get_ne by exact Hk.
  now apply own_get_entries.
Qed.

Lemma edit_sets_one_document_witness :
  exists updated,
    session (handleDocumentEdit 7 proto_key (js "x")
               (example_page two_documents INITIAL_VERIFIER_STATE))
    = Some updated
    /\ own_get proto_key (s_documents updated) = Some (js "x")
    /\ own_get (js "PRD") (s_documents updated) = Some (js "v1").
Proof.
  destruct (edit_sets_one_document 7 proto_key (js "x")
              (example_page two_documents INITIAL_VERIFIER_STATE)
              (example_session two_documents []) eq_refl)
    as (updated & H1 & H2 & H3 & _).
  - unfold obj_wf. cbn. repeat constructor; rewrite ?list_elem_of_In;
      cbn; intuition discriminate.
  - exists updated. split; [exact H1|]. split; [exact H2|].
    rewrite H3 by discriminate. reflexivity.
Defined.

(** * More of the verifier panel *)

(** ** Runs of calls *)

Lemma handle_all_app clock n es1 es2 p :
  handle_all clock n (es1 ++ es2) p
  = handle_all clock (n + length es1) es2 (handle_all clock n es1 p).
Proof.
  revert n p; induction es1 as [|e es1 IH]; intros n p; cbn [app handle_all].
  - now rewrite Nat.add_0_r.
  - rewrite IH. cbn [length]. now rewrite Nat.add_succ_r.
Qed.

Lemma handle_session_Some now e p :
  is_Some (session p) -> is_Some (session (handle now e p)).
Proof.
  intros [s Hs]. destruct e as [st | docs src | docs m r | docs];
    cbn [handle session]; rewrite ?Hs; eauto.
  - unfold handleSnapshotVersions. rewrite Hs. cbn [set_session session]. eauto.
  - unfold handleDocumentsUpdate. rewrite Hs.
    destruct (obj_keys docs) as [|[|? ?] ?]; cbn [set_session session]; eauto.
Qed.

Lemma handle_all_session_Some clock n es p :
  is_Some (session p) -> is_Some (session (handle_all clock n es p)).
Proof.
  revert n p; induction es as [|e es IH]; intros n p H; [exact H|].
  cbn [handle_all]. apply IH. now apply handle_session_Some.
Qed.

(** the state the last state change of a run carries is the state the page
    ends with *)
Lemma handle_all_last_state clock n es st p :
  verifierState (handle_all clock n (es ++ [onVerifierStateChange st]) p) = st.
Proof. rewrite handle_all_app. reflexivity. Qed.

Lemma handle_keeps_issues now e p :
  match e with
  | onVerifierStateChange st => issues st = issues (verifierState p)
  | _ => True
  end ->
  issues (verifierState (handle now e p)) = issues (verifierState p).
Proof.
  destruct e as [st | docs src | docs m r | docs]; cbn [handle verifierState];
    try easy.
  - intros _. unfold handleSnapshotVersions.
    now destruct (session p).
  - intros _. unfold handleDocumentsUpdate.
    destruct (session p); destruct (obj_keys docs) as [|[|? ?] ?];
      reflexivity.
Qed.

(** ** Apply-all, a second time *)

Lemma remaining_after_applied ph vs :
  remaining_issues
    (with_phase_applied ph (applied vs ++ map i_id (remaining_issues vs)) vs)
  = [].
Proof.
  destruct (remaining_issues
              (with_phase_applied ph
                 (applied vs ++ map i_id (remaining_issues vs)) vs))
    as [|i l] eqn:E; [reflexivity|]. exfalso.
  assert (Hi : In i (remaining_issues
                       (with_phase_applied ph
                          (applied vs ++ map i_id (remaining_issues vs)) vs)))
    by (rewrite E; now left).
  apply remaining_issues_spec in Hi as (Hin & Hd & Ha & Hinfo).
  cbn [with_phase_applied issues dismissed applied] in *.
  apply Ha, in_or_app. right. apply in_map.
  apply remaining_issues_spec. repeat split; try assumption.
  intros H. apply Ha, in_or_app. now left.
Qed.

(** X12.  After an apply-all run whose request succeeded, no issue is left to
    work on: the page ends in phase [done], and a second click on "apply
    all" makes no call and changes nothing, however its request would end. *)
Theorem apply_all_twice_is_once clock clock' full outcome' p s :
  session p = Some s ->
  remaining_issues (verifierState p) <> [] ->
  phase (verifierState (apply_all clock (Streamed full) p)) = done
  /\ remaining_issues (verifierState (apply_all clock (Streamed full) p)) = []
  /\ apply_all clock' outcome' (apply_all clock (Streamed full) p)
     = apply_all clock (Streamed full) p.
Proof.
  intros Hs Hrem.
  assert (Hst : verifierState (apply_all clock (Streamed full) p)
                = with_phase_applied done
                    (applied (verifierState p)
                     ++ map i_id (remaining_issues (verifierState p)))
                    (verifierState p)).
  { unfold apply_all. rewrite Hs. unfold applyAllFixes.
    destruct (remaining_issues (verifierState p)) as [|i rest] eqn:Er;
      [congruence|].
    rewrite !app_assoc. apply handle_all_last_state. }
  assert (Hsome : is_Some (session (apply_all clock (Streamed full) p))).
  { unfold apply_all. rewrite Hs. apply handle_all_session_Some.
    rewrite Hs. eauto. }
  rewrite Hst. split; [reflexivity|].
  split; [apply remaining_after_applied|].
  destruct Hsome as [s' Hs']. unfold apply_all at 1. rewrite Hs', Hst.
  unfold applyAllFixes. now rewrite remaining_after_applied.
Qed.

Lemma apply_all_twice_is_once_witness :
  apply_all example_clock Failed
    (apply_all example_clock (Streamed scenarioA)
       (example_page two_documents example_report))
  = apply_all example_clock (Streamed scenarioA)
      (example_page two_documents example_report).
Proof.
  refine (proj2 (proj2 (apply_all_twice_is_once example_clock example_clock
                          scenarioA Failed
                          (example_page two_documents example_report)
                          (example_session two_documents []) eq_refl _))).
  vm_compute. discriminate.
Defined.

(** ** The entropy score *)

Lemma count_severity_pos sev l :
  (0 < count_severity sev l)%nat <-> exists i, In i l /\ i_severity i = sev.
Proof.
  unfold count_severity. induction l as [|i l IH]; cbn [List.filter length].
  - split; [lia | now intros (? & [] & _)].
  - destruct (severity_eqb (i_severity i) sev) eqn:E; cbn [length].
    + split; [|lia]. intros _. exists i. split; [now left|].
      now destruct (i_severity i), sev.
    + rewrite IH. split; intros (j & Hj & Hsev).
      * exists j. split; [now right | exact Hsev].
      * destruct Hj as [<- | Hj]; [|now exists j].
        rewrite Hsev in E. now destruct sev.
Qed.

Lemma count_severity_without_info sev l :
  sev <> info ->
  count_severity sev
    (List.filter (fun i => negb (is_info (i_severity i))) l)
  = count_severity sev l.
Proof.
  intros Hsev. unfold count_severity.
  induction l as [|i l IH]; [reflexivity|]. cbn [List.filter].
  destruct (i_severity i) eqn:E; cbn [is_info negb List.filter]; rewrite ?E;
    destruct sev; cbn [severity_eqb length]; try congruence.
Qed.

(** X13.  The entropy score is [CRITICAL] exactly when some issue is
    critical, and [LOW] exactly when every issue is of severity info; issues
    of severity info never change it. *)
Theorem entropy_score_spec l :
  (entropyScore l = CRITICAL
   <-> exists i, In i l /\ i_severity i = critical)
  /\ (entropyScore l = LOW <-> forall i, In i l -> i_severity i = info)
  /\ entropyScore (List.filter (fun i => negb (is_info (i_severity i))) l)
     = entropyScore l.
Proof.
  pose proof (count_severity_pos critical l) as Hc.
  pose proof (count_severity_pos warning l) as Hw.
  unfold entropyScore.
  rewrite !count_severity_without_info by discriminate.
  split; [|split; [|reflexivity]].
  - destruct (Nat.ltb_spec 0 (count_severity critical l)) as [H | H].
    + split; [intros _; now apply Hc | reflexivity].
    + split.
      * now destruct (2 <? _)%nat, (0 <? count_severity warning l)%nat.
      * intros H'. apply Hc in H'. lia.
  - destruct (Nat.ltb_spec 0 (count_severity critical l)) as [H | H].
    + split; [discriminate|]. intros Hall. apply Hc in H as (i & Hi & E).
      rewrite (Hall i Hi) in E. discriminate.
    + destruct (Nat.ltb_spec 2 (count_severity warning l)) as [H2 | H2].
      * split; [discriminate|]. intros Hall.
        assert (H0 : (0 < count_severity warning l)%nat) by lia.
        apply Hw in H0 as (i & Hi & E). rewrite (Hall i Hi) in E.
        discriminate.
      * destruct (Nat.ltb_spec 0 (count_severity warning l)) as [H0 | H0].
        -- split; [discriminate|]. intros Hall.
           apply Hw in H0 as (i & Hi & E). rewrite (Hall i Hi) in E.
           discriminate.
        -- split; [|reflexivity]. intros _ i Hi.
           destruct (i_severity i) eqn:E; [| |reflexivity]; exfalso.
           ++ assert (X : (0 < count_severity critical l)%nat)
                by (apply Hc; eauto). lia.
           ++ assert (X : (0 < count_severity warning l)%nat)
                by (apply Hw; eauto). lia.
Qed.

Lemma entropy_score_spec_witness :
  entropyScore (issues example_report) = CRITICAL
  /\ entropyScore (issues info_only_report) = LOW.
Proof.
  split.
  - apply (proj1 (entropy_score_spec (issues example_report))).
    exists (example_issue "R-001" critical "PRD"). split; [now left|].
    reflexivity.
  - apply (proj1 (proj2 (entropy_score_spec (issues info_only_report)))).
    intros i [<- | []]. reflexivity.
Defined.


Lemma handle_all_keeps_issues clock n es l p :
  Forall (fun e => match e with
                   | onVerifierStateChange st => issues st = l
                   | _ => True
                   end) es ->
  issues (verifierState p) = l ->
  issues (verifierState (handle_all clock n es p)) = l.
Proof.
  intros H. revert n p. induction H as [|e es He _ IH]; intros n p Hp;
    [exact Hp|].
  cbn [handle_all]. apply IH. rewrite handle_keeps_issues; [exact Hp|].
  destruct e; try easy. congruence.
Qed.

(** X14.  An apply-all run never changes the list of issues, however its
    request ends, so the entropy score the panel shows after the fixes is
    the one it showed before them. *)
Theorem apply_all_keeps_entropy clock outcome p :
  issues (verifierState (apply_all clock outcome p))
  = issues (verifierState p)
  /\ entropyScore (issues (verifierState (apply_all clock outcome p)))
     = entropyScore (issues (verifierState p)).
Proof.
  assert (H : issues (verifierState (apply_all clock outcome p))
              = issues (verifierState p)); [|now rewrite H].
  unfold apply_all. destruct (session p) as [s|]; [|reflexivity].
  apply handle_all_keeps_issues; [|reflexivity]. unfold applyAllFixes.
  destruct (remaining_issues (verifierState p)) as [|i rest]; [constructor|].
  destruct outcome as [|full].
  - repeat constructor.
  - destruct (obj_keys (documents (parseDocumentBlocks full)));
      repeat constructor.
Qed.

(** ** Fenced blocks of a report *)

Lemma first_some_app {A R} (k : A -> option R) l1 l2 :
  first_some k (l1 ++ l2)
  = match first_some k l1 with
    | Some r => Some r
    | None => first_some k l2
    end.
Proof.
  induction l1 as [|x l1 IH]; [reflexivity|]. cbn [app first_some].
  destruct (k x); [reflexivity | exact IH].
Qed.

Lemma first_some_Some {A R} (k : A -> option R) l r :
  first_some k l = Some r -> exists x, In x l /\ k x = Some r.
Proof.
  induction l as [|x l IH]; [discriminate|]. cbn [first_some].
  destruct (k x) eqn:E.
  - intros [= <-]. exists x. split; [now left | exact E].
  - intros H. destruct (IH H) as (y & Hy & Ey). exists y.
    split; [now right | exact Ey].
Qed.

Lemma is_white_newline : is_white newline = true.
Proof. reflexivity. Qed.

Lemma is_white_tilde c : is_white c = true -> c <> tilde.
Proof. intros H ->. discriminate. Qed.

(** [\s*\n]: the star gives back white space until a line break follows *)
Lemma greedy_white_newline {R} (k : jsstring -> option R) s :
  greedy_star is_white s (fun _ s2 => lit [newline] s2 k)
  = first_some k (after_line_breaks s).
Proof.
  induction s as [|c s IH]; [reflexivity|].
  cbn [greedy_star after_line_breaks].
  destruct (is_white c) eqn:Hc.
  - rewrite IH, first_some_app.
    destruct (first_some k (after_line_breaks s)); [reflexivity|].
    rewrite lit_newline_cons. unfold not_newline.
    destruct (c =? newline); cbn [negb first_some]; [|reflexivity].
    now destruct (k s).
  - rewrite lit_newline_cons. unfold not_newline.
    destruct (N.eqb_spec c newline) as [-> | _]; [discriminate | reflexivity].
Qed.

(** the shape the summary and the issues patterns share *)
Lemma fenced_block_at {R} (f : jsstring -> R) w s :
  lit w s (fun s1 =>
  greedy_star is_white s1 (fun _ s2 =>
  lit [newline] s2 (fun s3 =>
  lazy_star any_unit s3 (fun body s4 =>
  lit fence s4 (fun _ => Some (f body))))))
  = match strip_prefix w s with
    | Some s1 =>
        first_some (fun s3 => match find_fence s3 with
                              | Some (b, _) => Some (f b)
                              | None => None
                              end) (after_line_breaks s1)
    | None => None
    end.
Proof.
  unfold lit at 1. destruct (strip_prefix w s) as [s1|]; [|reflexivity].
  rewrite greedy_white_newline.
  induction (after_line_breaks s1) as [|t l IH]; [reflexivity|].
  cbn [first_some]. rewrite (lazy_star_fence (fun b _ => f b)).
  destruct (find_fence t) as [[b r]|]; [reflexivity | exact IH].
Qed.

(** every position tried lies in the leading white space *)
Lemma after_line_breaks_In t s :
  In t (after_line_breaks s) ->
  exists w, Forall (fun c => is_white c = true) w
            /\ t = w ++ drop_while is_white s.
Proof.
  induction s as [|c s IH]; [easy|]. cbn [after_line_breaks drop_while].
  destruct (is_white c) eqn:Hc; [|easy]. intros H.
  apply in_app_or in H as [H | H]; [now apply IH|].
  destruct (c =? newline); [|easy]. destruct H as [<- | []].
  exists (take_while is_white s). split; [apply take_while_Forall|].
  now rewrite take_drop_while.
Qed.

Lemma after_line_breaks_some ws t :
  Forall (fun c => is_white c = true) ws ->
  after_line_breaks (ws ++ newline :: t) <> [].
Proof.
  induction 1 as [|c ws Hc _ IH]; cbn [app after_line_breaks].
  - rewrite is_white_newline, N.eqb_refl. now destruct (after_line_breaks t).
  - rewrite Hc. intros H. now apply app_eq_nil in H as [H _].
Qed.

Lemma find_fence_after_white w s :
  Forall (fun c => is_white c = true) w ->
  find_fence (w ++ s)
  = match find_fence s with
    | Some (b, r) => Some (w ++ b, r)
    | None => None
    end.
Proof.
  induction 1 as [|c w Hc _ IH]; cbn [app].
  - now destruct (find_fence s) as [[b r]|].
  - cbn [find_fence].
    assert (E : strip_prefix fence (c :: w ++ s) = None).
    { destruct (strip_prefix fence (c :: w ++ s)) eqn:E; [|reflexivity].
      apply strip_prefix_Some in E. injection E as -> _. discriminate. }
    rewrite E, IH. now destruct (find_fence s) as [[b r]|].
Qed.

Lemma drop_while_white_prefix w s :
  Forall (fun c => is_white c = true) w ->
  drop_while is_white (w ++ s) = drop_while is_white s.
Proof.
  induction 1 as [|c w Hc _ IH]; [reflexivity|]. cbn [app drop_while].
  now rewrite Hc.
Qed.

Lemma trim_white_prefix w s :
  Forall (fun c => is_white c = true) w -> trim (w ++ s) = trim s.
Proof.
  intros H. unfold trim, trimStart. now rewrite drop_while_white_prefix.
Qed.

Lemma trimStart_closed body rest :
  drop_while is_white (body ++ fence ++ rest)
  = trimStart body ++ fence ++ rest.
Proof.
  rewrite drop_while_app. unfold trimStart.
  now destruct (drop_while is_white body).
Qed.

Lemma trimStart_clean body :
  ~ occurs fence body -> last body <> Some tilde ->
  ~ occurs fence (trimStart body) /\ last (trimStart body) <> Some tilde.
Proof.
  intros Hocc Hlast. unfold trimStart.
  pose proof (take_drop_while is_white body) as E. split.
  - intros H. apply Hocc. rewrite <- E. now apply occurs_app_l.
  - rewrite <- E, last_app in Hlast.
    now destruct (last (drop_while is_white body)).
Qed.

(** the block a report holds after [w], a line break and white space *)
Lemma fenced_block_found {R} (f : jsstring -> R) ws body rest :
  Forall (fun c => is_white c = true) ws ->
  ~ occurs fence body -> last body <> Some tilde ->
  exists w,
    Forall (fun c => is_white c = true) w
    /\ first_some (fun s3 => match find_fence s3 with
                             | Some (b, _) => Some (f b)
                             | None => None
                             end)
         (after_line_breaks (ws ++ newline :: body ++ fence ++ rest))
       = Some (f (w ++ trimStart body)).
Proof.
  intros Hws Hocc Hlast.
  pose proof (after_line_breaks_some ws (body ++ fence ++ rest) Hws) as Hne.
  destruct (after_line_breaks (ws ++ newline :: body ++ fence ++ rest))
    as [|t l] eqn:E; [congruence|].
  destruct (after_line_breaks_In t (ws ++ newline :: body ++ fence ++ rest))
    as (w & Hw & Ht); [rewrite E; now left|].
  exists w. split; [exact Hw|]. cbn [first_some].
  assert (Hrun : Forall (fun c => is_white c = true) (ws ++ [newline])).
  { apply Forall_app. split; [exact Hws|]. now constructor. }
  replace (ws ++ newline :: body ++ fence ++ rest)
    with ((ws ++ [newline]) ++ body ++ fence ++ rest) in Ht
    by now rewrite <- app_assoc.
  rewrite drop_while_white_prefix, trimStart_closed in Ht by exact Hrun.
  destruct (trimStart_clean body Hocc Hlast) as [Hocc' Hlast'].
  rewrite Ht, find_fence_after_white by exact Hw.
  now rewrite find_fence_exact.
Qed.

Lemma regex_search_Some {R} (pattern_at : jsstring -> option R) s r :
  regex_search pattern_at s = Some r ->
  exists u t, s = u ++ t /\ pattern_at t = Some r.
Proof.
  induction s as [|c s IH]; cbn [regex_search].
  - destruct (pattern_at []) eqn:E; [|discriminate].
    intros [= <-]. now exists [], [].
  - destruct (pattern_at (c :: s)) eqn:E.
    + intros [= <-]. now exists [], (c :: s).
    + intros H. destruct (IH H) as (u & t & -> & Ht). now exists (c :: u), t.
Qed.

Lemma regex_search_here {R} (pattern_at : jsstring -> option R) s r :
  pattern_at s = Some r -> regex_search pattern_at s = Some r.
Proof. intros E. destruct s; cbn [regex_search]; now rewrite E. Qed.

Lemma regex_search_skip {R} (pattern_at : jsstring -> option R) pre t :
  (forall c s, In c pre -> pattern_at (c :: s) = None) ->
  regex_search pattern_at (pre ++ t) = regex_search pattern_at t.
Proof.
  induction pre as [|c pre IH]; intros H; [reflexivity|].
  cbn [app regex_search]. rewrite H by now left.
  apply IH. intros d s Hd. apply H. now right.
Qed.

Lemma summaryRegex_at_spec s :
  summaryRegex_at s
  = match strip_prefix (js "~~~summary") s with
    | Some s1 =>
        first_some (fun s3 => match find_fence s3 with
                              | Some (b, _) => Some b
                              | None => None
                              end) (after_line_breaks s1)
    | None => None
    end.
Proof. apply (fenced_block_at (fun b => b)). Qed.

Lemma summaryRegex_at_clean s body :
  summaryRegex_at s = Some body -> ~ occurs fence body.
Proof.
  rewrite summaryRegex_at_spec.
  destruct (strip_prefix (js "~~~summary") s) as [s1|]; [|discriminate].
  intros H. apply first_some_Some in H as (t & _ & Ht).
  destruct (find_fence t) as [[b r]|] eqn:F; [|discriminate].
  injection Ht as <-. eapply find_fence_clean, F.
Qed.

(** X15.  The summary taken from a report never contains a fence and has no
    white space at either end; a report without the summary marker gives the
    empty summary. *)
Theorem summary_is_clean text :
  ~ occurs fence (parseSummaryFromResponse text)
  /\ trim (parseSummaryFromResponse text) = parseSummaryFromResponse text
  /\ (~ occurs (js "~~~summary") text -> parseSummaryFromResponse text = []).
Proof.
  unfold parseSummaryFromResponse. split; [|split].
  - destruct (regex_search summaryRegex_at text) as [body|] eqn:E.
    + apply regex_search_Some in E as (u & t & _ & Ht).
      intros H. apply trim_occurs in H. revert H.
      now apply (summaryRegex_at_clean t).
    + intros (u & v & H). now destruct u.
  - destruct (regex_search summaryRegex_at text); [|reflexivity].
    apply trim_idempotent.
  - intros H. rewrite (regex_search_absent _ (js "~~~summary")); try easy.
    intros t E. rewrite summaryRegex_at_spec. now rewrite E.
Qed.

Lemma summary_is_clean_witness : parseSummaryFromResponse scenarioA = [].
Proof.
  apply (proj2 (proj2 (summary_is_clean scenarioA))).
  absent_by_evaluation.
Defined.


(** X16.  For a report that holds, after text without a tilde, the summary
    marker, white space, a line break, a body and the closing fence (the body
    free of fences and not ending in a tilde), the summary is the trimmed
    body. *)
Theorem summary_of_a_report pre ws body rest :
  ~ In tilde pre ->
  Forall (fun c => is_white c = true) ws ->
  ~ occurs fence body -> last body <> Some tilde ->
  parseSummaryFromResponse
    (pre ++ js "~~~summary" ++ ws ++ newline :: body ++ fence ++ rest)
  = trim body.
Proof.
  intros Hpre Hws Hocc Hlast. unfold parseSummaryFromResponse.
  rewrite regex_search_skip.
  - destruct (fenced_block_found (fun b => b) ws body rest Hws Hocc Hlast)
      as (w & Hw & E).
    rewrite (regex_search_here _ _ (w ++ trimStart body)).
    + rewrite trim_white_prefix by exact Hw.
      unfold trim, trimStart. f_equal.
      destruct (drop_while is_white body) as [|c l] eqn:D; [reflexivity|].
      apply drop_while_fixed. now apply drop_while_head in D.
    + now rewrite summaryRegex_at_spec, strip_prefix_app.
  - intros c s Hc. rewrite summaryRegex_at_spec.
    destruct (strip_prefix (js "~~~summary") (c :: s)) eqn:E; [|reflexivity].
    apply strip_prefix_Some in E. injection E as -> _. now destruct Hpre.
Qed.

Lemma summary_of_a_report_witness :
  parseSummaryFromResponse example_summary_report = js "Two conflicts.".
Proof.
  assert (E : example_summary_report
              = js ("Report." ++ nl) ++ js "~~~summary" ++ []
                ++ newline :: js (nl ++ "  Two conflicts. " ++ nl) ++ fence
                ++ js (nl ++ "~~~issues" ++ nl ++ "[]" ++ nl ++ "~~~"))
    by (vm_compute; reflexivity).
  rewrite E, summary_of_a_report.
  - vm_compute. reflexivity.
  - absent_by_evaluation.
  - constructor.
  - absent_by_evaluation.
  - vm_compute. discriminate.
Defined.

(** ** One fix *)

Lemma handleDocumentsUpdate_keeps now docs p :
  page_history (handleDocumentsUpdate now docs p) = page_history p
  /\ verifierState (handleDocumentsUpdate now docs p) = verifierState p.
Proof.
  unfold handleDocumentsUpdate, page_history.
  destruct (session p) as [prev|] eqn:Hs;
    destruct (obj_keys docs) as [|[|? ?] ?]; cbn [session set_session verifierState];
    now rewrite ?Hs.
Qed.

(** X17.  A single fix makes one snapshot and one request, whatever the
    request's end; it marks the issue as the one being applied first and
    clears the mark last.  The history grows by one version per document of
    the store.  A failed request leaves the verifier state and the documents
    as they were, the snapshot apart; a request that succeeds adds the id of
    the issue to the applied ids and keeps the phase. *)
Theorem single_fix_run clock outcome p s issue :
  session p = Some s ->
  panel_snapshots
    (applySingleFix (s_documents s) (verifierState p) issue outcome) = 1%nat
  /\ panel_requests
       (applySingleFix (s_documents s) (verifierState p) issue outcome)
     = 1%nat
  /\ (exists calls,
        applySingleFix (s_documents s) (verifierState p) issue outcome
        = setApplyingId (Some (i_id issue)) :: calls ++ [setApplyingId None])
  /\ page_history
       (handle_panel_all clock 0
          (applySingleFix (s_documents s) (verifierState p) issue outcome) p)
     = s_documentHistory s
       ++ new_versions (clock 1%nat) (s_documents s) harmonized
  /\ (outcome = Failed ->
      verifierState
        (handle_panel_all clock 0
           (applySingleFix (s_documents s) (verifierState p) issue outcome) p)
      = verifierState p
      /\ exists after,
           session
             (handle_panel_all clock 0
                (applySingleFix (s_documents s) (verifierState p) issue
                   outcome) p) = Some after
           /\ s_documents after = s_documents s)
  /\ (outcome <> Failed ->
      verifierState
        (handle_panel_all clock 0
           (applySingleFix (s_documents s) (verifierState p) issue outcome) p)
      = with_phase_applied (phase (verifierState p))
          (applied (verifierState p) ++ [i_id issue]) (verifierState p)).
Proof.
  intros Hs. unfold applySingleFix.
  assert (Hsnap : page_history
                    (handleSnapshotVersions (clock 1%nat) (s_documents s)
                       harmonized p)
                  = s_documentHistory s
                    ++ new_versions (clock 1%nat) (s_documents s) harmonized).
  { unfold handleSnapshotVersions, page_history. rewrite Hs. reflexivity. }
  destruct outcome as [|full].
  - cbn [app]. repeat split; try easy.
    + eexists [_; _]. reflexivity.
    + cbn [handle_panel_all handle_panel handle].
      unfold handleSnapshotVersions. now rewrite Hs.
    + cbn [handle_panel_all handle_panel handle].
      unfold handleSnapshotVersions. rewrite Hs. eexists. split; reflexivity.
  - destruct (obj_keys (documents (parseDocumentBlocks full))) as [|k ks];
      cbn [app].
    + repeat split; try easy. eexists [_; _; _]. reflexivity.
    + repeat split; try easy.
      * eexists [_; _; _; _]. reflexivity.
      * cbn [handle_panel_all handle_panel handle]. unfold page_history at 1.
        cbn [session].
        pose proof (handleDocumentsUpdate_keeps (clock 3%nat)
                      (documents (parseDocumentBlocks full))
                      (handleSnapshotVersions (clock 1%nat) (s_documents s)
                         harmonized p)) as [Hh _].
        unfold page_history at 1 in Hh. now rewrite Hh.
Qed.

Lemma single_fix_run_witness :
  page_history
    (handle_panel_all example_clock 0
       (applySingleFix two_documents example_report
          (example_issue "R-001" critical "PRD") (Streamed scenarioA))
       (example_page two_documents example_report))
  = [] ++ new_versions 1001 two_documents harmonized.
Proof.
  exact (proj1 (proj2 (proj2 (proj2
           (single_fix_run example_clock (Streamed scenarioA)
              (example_page two_documents example_report)
              (example_session two_documents [])
              (example_issue "R-001" critical "PRD") eq_refl))))).
Defined.

(** ** [runVerify] *)

Lemma handle_panel_all_app clock n cs1 cs2 p :
  handle_panel_all clock n (cs1 ++ cs2) p
  = handle_panel_all clock (n + length cs1) cs2
      (handle_panel_all clock n cs1 p).
Proof.
  revert n p; induction cs1 as [|c cs1 IH]; intros n p;
    cbn [app handle_panel_all].
  - now rewrite Nat.add_0_r.
  - rewrite IH. cbn [length]. now rewrite Nat.add_succ_r.
Qed.

Lemma parseIssuesFromResponse_returns
    (JSON_parse : jsstring -> Completion (list VerifierIssue)) text :
  exists l, parseIssuesFromResponse JSON_parse text = Normal l
            /\ (l = []
                \/ exists interior,
                     regex_search issuesRegex_at text = Some interior
                     /\ JSON_parse interior = Normal l).
Proof.
  unfold parseIssuesFromResponse.
  destruct (regex_search issuesRegex_at text) as [interior|];
    [|exists []; split; [reflexivity | now left]].
  destruct (JSON_parse interior) as [l|e] eqn:E.
  - exists l. split; [reflexivity|]. right. now exists interior.
  - exists []. split; [reflexivity | now left].
Qed.

(** X18.  With fewer than two documents [runVerify] makes no call.  With two
    or more, the state the page ends with is built from the verifier state of
    the render the callback belongs to, not from the state it has reset at
    its start: after an abort it is that state in phase [idle], after a
    failure that state in phase [ready] with the failure text as summary,
    and after a stream read to its end it has phase [ready], the parsed
    issues and summary and the full text as raw report, with the dismissed
    and applied ids of that earlier state. *)
Theorem verify_run JSON_parse clock docs vs texts p :
  ((length (obj_keys docs) < 2)%nat ->
   forall ending, runVerify JSON_parse docs vs texts ending = [])
  /\ ((2 <= length (obj_keys docs))%nat ->
      verifierState
        (handle_panel_all clock 0
           (runVerify JSON_parse docs vs texts stream_aborted) p)
      = with_phase idle vs
      /\ verifierState
           (handle_panel_all clock 0
              (runVerify JSON_parse docs vs texts stream_failed) p)
         = with_summary ready verification_failed vs
      /\ exists parsedIssues,
           parseIssuesFromResponse JSON_parse (concat texts)
           = Normal parsedIssues
           /\ verifierState
                (handle_panel_all clock 0
                   (runVerify JSON_parse docs vs texts stream_done) p)
              = {| phase := ready; issues := parsedIssues;
                   summary := parseSummaryFromResponse (concat texts);
                   dismissed := dismissed vs; applied := applied vs;
                   rawReport := concat texts |}).
Proof.
  unfold runVerify. split.
  - intros H ending. apply Nat.ltb_lt in H. now rewrite H.
  - intros H. apply Nat.ltb_ge in H. rewrite H.
    assert (Hlast : forall cs st,
              verifierState
                (handle_panel_all clock 0
                   (cs ++ [page_call (onVerifierStateChange st)]) p) = st).
    { intros cs st. rewrite handle_panel_all_app. reflexivity. }
    split; [|split].
    + rewrite !app_assoc. apply Hlast.
    + rewrite !app_assoc. apply Hlast.
    + destruct (parseIssuesFromResponse_returns JSON_parse (concat texts))
        as (l & -> & _).
      exists l. split; [reflexivity|].
      rewrite !app_assoc, handle_panel_all_app. reflexivity.
Qed.

Lemma verify_run_witness :
  verifierState
    (handle_panel_all example_clock 0
       (runVerify parse_empty_array_only two_documents example_report
          [js "partial"] stream_aborted)
       (example_page two_documents example_report))
  = with_phase idle example_report.
Proof.
  refine (proj1 (proj2 (verify_run parse_empty_array_only example_clock
                          two_documents example_report [js "partial"]
                          (example_page two_documents example_report)) _)).
  vm_compute. lia.
Defined.

(** * More of the chat panel *)

Lemma filter_quiet {A} (f : A -> bool) l :
  Forall (fun x => f x = false) l -> List.filter f l = [].
Proof.
  induction 1 as [|x l Hx _ IH]; [reflexivity|]. cbn [List.filter].
  now rewrite Hx.
Qed.

Lemma Forall_map_all {A B} (P : B -> Prop) (g : A -> B) l :
  (forall x, P (g x)) -> Forall P (map g l).
Proof. intros H. induction l; constructor; auto. Qed.

Lemma messages_updates_app cs1 cs2 :
  messages_updates (cs1 ++ cs2) = messages_updates cs1 ++ messages_updates cs2.
Proof. apply flat_map_app. Qed.

Lemma chat_requests_app cs1 cs2 :
  chat_requests (cs1 ++ cs2) = (chat_requests cs1 + chat_requests cs2)%nat.
Proof. unfold chat_requests. now rewrite List.filter_app, length_app. Qed.

Lemma shown_texts_quiet texts :
  messages_updates
    (map (fun t => chat_call (setStreamingContent t)) texts) = []
  /\ chat_requests
       (map (fun t => chat_call (setStreamingContent t)) texts) = 0%nat.
Proof.
  split.
  - apply flat_map_quiet, Forall_map_all. reflexivity.
  - unfold chat_requests. rewrite filter_quiet; [reflexivity|].
    apply Forall_map_all. reflexivity.
Qed.

Lemma images_quiet generateImage prompts :
  messages_updates
    (match prompts with
     | [] => []
     | _ =>
         [ setPendingImages
             (map (fun p => {| img_prompt := p; img_status := img_loading |})
                prompts) ]
         ++ map fetch_image prompts
         ++ [ setPendingImages (generated_images generateImage prompts) ]
     end) = []
  /\ chat_requests
       (match prompts with
        | [] => []
        | _ =>
            [ setPendingImages
                (map (fun p => {| img_prompt := p;
                                  img_status := img_loading |}) prompts) ]
            ++ map fetch_image prompts
            ++ [ setPendingImages (generated_images generateImage prompts) ]
        end) = 0%nat.
Proof.
  destruct prompts as [|p prompts]; [easy|].
  generalize (p :: prompts) as l. intros l. split.
  - rewrite !messages_updates_app.
    unfold messages_updates at 2. rewrite flat_map_quiet; [reflexivity|].
    apply Forall_map_all. reflexivity.
  - rewrite !chat_requests_app. unfold chat_requests at 2.
    rewrite filter_quiet; [reflexivity|]. apply Forall_map_all. reflexivity.
Qed.

Lemma bracketed {A} (h : A) l1 l2 l3 z :
  (h :: l1) ++ l2 ++ l3 ++ z = h :: (l1 ++ l2 ++ l3) ++ z.
Proof. cbn [app]. now rewrite <- !app_assoc. Qed.

(** the message lists [sendMessage] hands to the page *)
Lemma sendMessage_updates messages existingDocs verifyReport
    uuid1 uuid2 now1 now2 generateImage messageText texts ending :
  trim messageText <> [] ->
  messages_updates
    (sendMessage messages false existingDocs verifyReport uuid1
       uuid2 now1 now2 generateImage messageText texts ending)
  = (messages ++ [{| msg_id := uuid1; msg_role := user;
                     msg_content := trim messageText;
                     msg_timestamp := now1 |}])
    :: match ending with
       | stream_aborted => []
       | stream_failed =>
           [ (messages ++ [{| msg_id := uuid1; msg_role := user;
                              msg_content := trim messageText;
                              msg_timestamp := now1 |}])
             ++ [{| msg_id := uuid2; msg_role := assistant;
                    msg_content := connection_error;
                    msg_timestamp := now2 |}] ]
       | stream_done =>
           [ (messages ++ [{| msg_id := uuid1; msg_role := user;
                              msg_content := trim messageText;
                              msg_timestamp := now1 |}])
             ++ [{| msg_id := uuid2; msg_role := assistant;
                    msg_content :=
                      or_else
                        (cleanText (parseDocumentBlocks (concat texts)))
                        (concat texts);
                    msg_timestamp := now2 |}] ]
       end.
Proof.
  intros Hne. unfold sendMessage.
  destruct (trim messageText) as [|c t] eqn:E; [congruence|].
  clear Hne. generalize (c :: t) as trimmed. intros trimmed.
  pose proof (shown_texts_quiet (running_texts [] texts)) as [Hm _].
  pose proof (images_quiet generateImage
                (parseImageMarkers (concat texts))) as [Him _].
  rewrite !messages_updates_app, Hm.
  destruct ending; rewrite ?messages_updates_app, ?Him; try reflexivity.
  destruct (obj_keys (documents (parseDocumentBlocks (concat texts))));
    reflexivity.
Qed.

(** X19.  [sendMessage] does nothing for a text that is empty once trimmed,
    or while a reply is streaming.  Otherwise it hands the page the messages
    with the trimmed text of the user appended first, makes one request, and
    ends, however the stream ends, by clearing the streamed text and the
    streaming flag.  After that first list the page receives one more when
    the stream is read to its end (with the reply) or fails (with the error
    text), and none when the request is aborted. *)
Theorem send_message_run messages isStreaming existingDocs verifyReport
    uuid1 uuid2 now1 now2 generateImage messageText texts ending :
  (trim messageText = [] \/ isStreaming = true ->
   sendMessage messages isStreaming existingDocs verifyReport uuid1 uuid2
     now1 now2 generateImage messageText texts ending = [])
  /\ (trim messageText <> [] -> isStreaming = false ->
      (exists calls,
         sendMessage messages isStreaming existingDocs verifyReport uuid1
           uuid2 now1 now2 generateImage messageText texts ending
         = chat_call
             (onMessagesUpdate
                (messages ++ [{| msg_id := uuid1; msg_role := user;
                                 msg_content := trim messageText;
                                 msg_timestamp := now1 |}]))
           :: calls ++ [ chat_call (setStreamingContent []);
                         chat_call (onStreamingChange false) ])
      /\ chat_requests
           (sendMessage messages isStreaming existingDocs verifyReport uuid1
              uuid2 now1 now2 generateImage messageText texts ending)
         = 1%nat
      /\ messages_updates
           (sendMessage messages isStreaming existingDocs verifyReport uuid1
              uuid2 now1 now2 generateImage messageText texts ending)
         = (messages ++ [{| msg_id := uuid1; msg_role := user;
                            msg_content := trim messageText;
                            msg_timestamp := now1 |}])
           :: match ending with
              | stream_aborted => []
              | stream_failed =>
                  [ (messages ++ [{| msg_id := uuid1; msg_role := user;
                                     msg_content := trim messageText;
                                     msg_timestamp := now1 |}])
                    ++ [{| msg_id := uuid2; msg_role := assistant;
                           msg_content := connection_error;
                           msg_timestamp := now2 |}] ]
              | stream_done =>
                  [ (messages ++ [{| msg_id := uuid1; msg_role := user;
                                     msg_content := trim messageText;
                                     msg_timestamp := now1 |}])
                    ++ [{| msg_id := uuid2; msg_role := assistant;
                           msg_content :=
                             or_else
                               (cleanText (parseDocumentBlocks (concat texts)))
                               (concat texts);
                           msg_timestamp := now2 |}] ]
              end).
Proof.
  split.
  - unfold sendMessage. intros [-> | ->]; [reflexivity|].
    destruct (trim messageText); reflexivity.
  - intros Hne ->. split; [|split].
    + unfold sendMessage.
      destruct (trim messageText) as [|c t] eqn:E; [congruence|].
      eexists. apply bracketed.
    + unfold sendMessage.
      destruct (trim messageText) as [|c t] eqn:E; [congruence|].
      pose proof (shown_texts_quiet (running_texts [] texts)) as [_ Hr].
      pose proof (images_quiet generateImage
                    (parseImageMarkers (concat texts))) as [_ Hir].
      rewrite !chat_requests_app, Hr.
      destruct ending; rewrite ?chat_requests_app, ?Hir; try reflexivity.
      destruct (obj_keys (documents (parseDocumentBlocks (concat texts))));
        reflexivity.
    + now apply sendMessage_updates.
Qed.

Lemma send_message_run_witness :
  messages_updates
    (sendMessage [] false two_documents [] (js "u-1") (js "u-2") 1 2
       no_images (js "  hello ") [js "Hi "; js "there"] stream_done)
  = [ [ {| msg_id := js "u-1"; msg_role := user; msg_content := js "hello";
           msg_timestamp := 1 |} ];
      [ {| msg_id := js "u-1"; msg_role := user; msg_content := js "hello";
           msg_timestamp := 1 |};
        {| msg_id := js "u-2"; msg_role := assistant;
           msg_content := js "Hi there"; msg_timestamp := 2 |} ] ].
Proof.
  refine (eq_trans
            (proj2 (proj2 (proj2 (send_message_run [] false two_documents []
                      (js "u-1") (js "u-2") 1 2 no_images (js "  hello ")
                      [js "Hi "; js "there"] stream_done) _ eq_refl))) _).
  - vm_compute. discriminate.
  - vm_compute. reflexivity.
Defined.

(** ** A reply of blocks only *)

Lemma drop_while_all p s :
  Forall (fun c => p c = true) s -> drop_while p s = [].
Proof.
  induction 1 as [|c s Hc _ IH]; [reflexivity|]. cbn [drop_while].
  now rewrite Hc.
Qed.

Lemma trim_white s : Forall (fun c => is_white c = true) s -> trim s = [].
Proof.
  intros H. unfold trim, trimStart. now rewrite drop_while_all.
Qed.

(** X20.  A reply that holds closed blocks and, around them, white space
    only has an empty clean text, so the message stored for it is the raw
    reply, markers and fences included: by [handleStop], when the stream is
    stopped at that text, and by [sendMessage], when the stream ends with
    it. *)
Theorem reply_of_blocks_is_stored_raw prose rest uuid now messages
    isStreaming existingDocs verifyReport uuid1 now1 generateImage
    messageText texts :
  Forall (fun c => is_white c = true) prose ->
  Forall (fun bp => closed_block (fst bp)
                    /\ Forall (fun c => is_white c = true) (snd bp)) rest ->
  rest <> [] ->
  concat texts = stream_text prose rest ->
  trim messageText <> [] -> isStreaming = false ->
  cleanText (parseDocumentBlocks (stream_text prose rest)) = []
  /\ In (onMessagesUpdate
           (messages ++ [{| msg_id := uuid; msg_role := assistant;
                            msg_content := stream_text prose rest;
                            msg_timestamp := now |}]))
       (handleStop uuid now messages (stream_text prose rest))
  /\ In ((messages ++ [{| msg_id := uuid1; msg_role := user;
                          msg_content := trim messageText;
                          msg_timestamp := now1 |}])
         ++ [{| msg_id := uuid; msg_role := assistant;
                msg_content := stream_text prose rest;
                msg_timestamp := now |}])
       (messages_updates
          (sendMessage messages isStreaming existingDocs verifyReport uuid1
             uuid now1 now generateImage messageText texts stream_done)).
Proof.
  intros Hprose Hrest Hne Htexts Htrim Hstreaming.
  assert (Hwhite : forall s, Forall (fun c => is_white c = true) s ->
                             ~ In tilde s).
  { intros s Hs Hin. rewrite List.Forall_forall in Hs.
    now apply Hs in Hin. }
  assert (Hclean : cleanText (parseDocumentBlocks (stream_text prose rest))
                   = []).
  { unfold parseDocumentBlocks; cbn [cleanText].
    rewrite scan_stream, outside_text_stream.
    - apply trim_white, Forall_app. split; [exact Hprose|].
      clear Hne Htexts. induction Hrest as [|bp rest [_ Hbp] _ IH];
        [constructor|].
      cbn [flat_map]. apply Forall_app. now split.
    - now apply Hwhite.
    - eapply Forall_impl; [exact Hrest|]. intros bp [Hb Hg].
      split; [exact Hb | now apply Hwhite]. }
  split; [exact Hclean|]. split.
  - unfold handleStop. rewrite Hclean. cbn [or_else].
    destruct (stream_text prose rest) as [|c t] eqn:E.
    + exfalso. destruct rest as [|bp rest]; [congruence|].
      unfold stream_text in E. cbn [flat_map] in E.
      apply app_eq_nil in E as [_ E]. apply app_eq_nil in E as [E _].
      apply app_eq_nil in E as [E _]. discriminate.
    + apply in_or_app. right. now left.
  - subst isStreaming. rewrite sendMessage_updates by exact Htrim.
    right. left. now rewrite Htexts, Hclean.
Qed.

Lemma reply_of_blocks_is_stored_raw_witness :
  In (onMessagesUpdate
        [{| msg_id := js "u-2"; msg_role := assistant;
            msg_content := block_only_reply; msg_timestamp := 2 |}])
    (handleStop (js "u-2") 2 [] block_only_reply).
Proof.
  assert (E : stream_text []
                [({| b_label := js "PRD"; b_body := js ("# My PRD" ++ nl) |},
                  js nl)]
              = block_only_reply) by (vm_compute; reflexivity).
  rewrite <- E.
  refine (proj1 (proj2 (reply_of_blocks_is_stored_raw [] _ (js "u-2") 2 []
                          false [] [] (js "u-1") 1 no_images (js "go")
                          [block_only_reply] _ _ _ _ _ eq_refl))).
  - constructor.
  - repeat constructor; cbn [fst snd b_label b_body];
      try discriminate; try absent_by_evaluation.
  - discriminate.
  - vm_compute. reflexivity.
  - vm_compute. discriminate.
Defined.

(** * The line diff *)

(** ** Lines *)

Lemma split_lines_cons s : exists l ls, split_lines s = l :: ls.
Proof.
  induction s as [|c s (l & ls & IH)]; cbn [split_lines]; [eauto|].
  destruct (c =? newline); [eauto|]. rewrite IH. eauto.
Qed.

Lemma join_cons sep x y r :
  join sep (x :: y :: r) = x ++ sep ++ join sep (y :: r).
Proof. reflexivity. Qed.

Lemma join_split_lines s : join [newline] (split_lines s) = s.
Proof.
  induction s as [|c s IH]; [reflexivity|]. cbn [split_lines].
  destruct (split_lines_cons s) as (l & ls & E). rewrite E in IH |- *.
  destruct (N.eqb_spec c newline) as [-> | _].
  - rewrite join_cons, IH. reflexivity.
  - destruct ls as [|l' ls].
    + cbn [join] in IH |- *. now rewrite IH.
    + rewrite join_cons in IH |- *. now rewrite <- IH.
Qed.

Lemma split_lines_inj s t : split_lines s = split_lines t -> s = t.
Proof.
  intros H. now rewrite <- (join_split_lines s), H, join_split_lines.
Qed.

Lemma numbered_snoc n ls x :
  numbered n (ls ++ [x]) = numbered n ls ++ [(Some (n + length ls)%nat, x)].
Proof.
  revert n; induction ls as [|l ls IH]; intros n; cbn [app numbered length].
  - now rewrite Nat.add_0_r.
  - now rewrite IH, Nat.add_succ_r.
Qed.

(** ** The table and the way back *)

Lemma dp_nil_r ro : dp ro [] = 0%nat.
Proof. now destruct ro. Qed.

Lemma dp_nil_l rn : dp [] rn = 0%nat.
Proof. now destruct rn. Qed.

Lemma dp_cons a ro b rn :
  dp (a :: ro) (b :: rn)
  = if str_eqb a b then S (dp ro rn)
    else Nat.max (dp ro (b :: rn)) (dp (a :: ro) rn).
Proof. reflexivity. Qed.

Lemma backtrack_cons a ro b rn :
  backtrack (a :: ro) (b :: rn)
  = if str_eqb a b then
      {| d_type := same; d_content := a;
         oldLineNo := Some (S (length ro));
         newLineNo := Some (S (length rn)) |}
      :: backtrack ro rn
    else if (dp ro (b :: rn) <=? dp (a :: ro) rn)%nat then
      {| d_type := add; d_content := b;
         oldLineNo := None; newLineNo := Some (S (length rn)) |}
      :: backtrack (a :: ro) rn
    else
      {| d_type := remove; d_content := a;
         oldLineNo := Some (S (length ro)); newLineNo := None |}
      :: backtrack ro (b :: rn).
Proof. reflexivity. Qed.

Lemma backtrack_nil_l b rn :
  backtrack [] (b :: rn)
  = {| d_type := add; d_content := b;
       oldLineNo := None; newLineNo := Some (S (length rn)) |}
    :: backtrack [] rn.
Proof. reflexivity. Qed.

Lemma backtrack_nil_r a ro :
  backtrack (a :: ro) []
  = {| d_type := remove; d_content := a;
       oldLineNo := Some (S (length ro)); newLineNo := None |}
    :: backtrack ro [].
Proof. reflexivity. Qed.

(** an induction principle that follows the way back through the table *)
Lemma backtrack_ind (P : list jsstring -> list jsstring -> Prop) :
  P [] [] ->
  (forall b rn, P [] rn -> P [] (b :: rn)) ->
  (forall a ro, P ro [] -> P (a :: ro) []) ->
  (forall a ro b rn,
     (str_eqb a b = true -> P ro rn) ->
     (str_eqb a b = false -> P (a :: ro) rn) ->
     (str_eqb a b = false -> P ro (b :: rn)) ->
     P (a :: ro) (b :: rn)) ->
  forall ro rn, P ro rn.
Proof.
  intros Hnil Hl Hr Hstep.
  induction ro as [|a ro IHro]; induction rn as [|b rn IHrn]; auto.
Qed.

Lemma old_numbers_cons a ro :
  old_numbers (a :: ro) = (Some (S (length ro)), a) :: old_numbers ro.
Proof.
  unfold old_numbers. cbn [rev]. rewrite numbered_snoc, rev_app_distr.
  now rewrite length_rev.
Qed.

Lemma backtrack_sides ro rn :
  map (fun d => (oldLineNo d, d_content d))
    (List.filter (fun d => negb (is_add d)) (backtrack ro rn))
  = old_numbers ro
  /\ map (fun d => (newLineNo d, d_content d))
       (List.filter (fun d => negb (is_remove d)) (backtrack ro rn))
     = old_numbers rn.
Proof.
  revert ro rn. apply backtrack_ind.
  - now split.
  - intros b rn [IH1 IH2]. rewrite backtrack_nil_l, old_numbers_cons.
    cbn [List.filter is_add is_remove d_type negb map]. split; [exact IH1|].
    cbn [newLineNo d_content]. now rewrite IH2.
  - intros a ro [IH1 IH2]. rewrite backtrack_nil_r, old_numbers_cons.
    cbn [List.filter is_add is_remove d_type negb map]. split; [|exact IH2].
    cbn [oldLineNo d_content]. now rewrite IH1.
  - intros a ro b rn Hsame Hadd Hrem. rewrite backtrack_cons.
    destruct (str_eqb a b) eqn:E.
    + destruct (Hsame eq_refl) as [IH1 IH2]. apply str_eqb_eq in E as <-.
      rewrite !old_numbers_cons.
      cbn [List.filter is_add is_remove d_type negb map oldLineNo newLineNo
             d_content].
      now rewrite IH1, IH2.
    + destruct (dp ro (b :: rn) <=? dp (a :: ro) rn)%nat.
      * destruct (Hadd eq_refl) as [IH1 IH2].
        rewrite (old_numbers_cons b rn).
        cbn [List.filter is_add is_remove d_type negb map newLineNo
               d_content].
        now rewrite IH2.
      * destruct (Hrem eq_refl) as [IH1 IH2].
        rewrite (old_numbers_cons a ro).
        cbn [List.filter is_add is_remove d_type negb map oldLineNo
               d_content].
        now rewrite IH1.
Qed.

Lemma filter_rev {A} (f : A -> bool) l :
  List.filter f (rev l) = rev (List.filter f l).
Proof.
  induction l as [|x l IH]; [reflexivity|]. cbn [rev List.filter].
  rewrite List.filter_app, IH. cbn [List.filter].
  destruct (f x); [reflexivity | now rewrite app_nil_r].
Qed.

Lemma numbered_contents n ls : map snd (numbered n ls) = ls.
Proof.
  revert n; induction ls as [|l ls IH]; intros n; [reflexivity|].
  cbn [numbered map snd]. now rewrite IH.
Qed.

Lemma diff_sides oldText newText :
  map (fun d => (oldLineNo d, d_content d))
    (List.filter (fun d => negb (is_add d)) (computeDiff oldText newText))
  = numbered 1 (split_lines oldText)
  /\ map (fun d => (newLineNo d, d_content d))
       (List.filter (fun d => negb (is_remove d))
          (computeDiff oldText newText))
     = numbered 1 (split_lines newText).
Proof.
  unfold computeDiff.
  destruct (backtrack_sides (rev (split_lines oldText))
              (rev (split_lines newText))) as [H1 H2].
  unfold old_numbers in H1, H2. rewrite !rev_involutive in H1, H2.
  now rewrite !filter_rev, !map_rev, H1, H2, !rev_involutive.
Qed.

Lemma diff_sides_contents oldText newText :
  map d_content
    (List.filter (fun d => negb (is_add d)) (computeDiff oldText newText))
  = split_lines oldText
  /\ map d_content
       (List.filter (fun d => negb (is_remove d))
          (computeDiff oldText newText))
     = split_lines newText.
Proof.
  destruct (diff_sides oldText newText) as [E1 E2].
  pose proof (numbered_contents 1 (split_lines oldText)) as C1.
  pose proof (numbered_contents 1 (split_lines newText)) as C2.
  rewrite <- E1, map_map in C1. rewrite <- E2, map_map in C2.
  split; [exact C1 | exact C2].
Qed.

(** X21.  The lines of a diff that are not additions are the lines of the
    old text, in order and numbered from 1; those that are not removals are
    the lines of the new text, in order and numbered from 1.  Joined by
    line breaks, the two sides of a diff give back the two texts. *)
Theorem diff_shows_both_texts oldText newText :
  map (fun d => (oldLineNo d, d_content d))
    (List.filter (fun d => negb (is_add d)) (computeDiff oldText newText))
  = numbered 1 (split_lines oldText)
  /\ map (fun d => (newLineNo d, d_content d))
       (List.filter (fun d => negb (is_remove d))
          (computeDiff oldText newText))
     = numbered 1 (split_lines newText)
  /\ join [newline]
       (map d_content
          (List.filter (fun d => negb (is_add d))
             (computeDiff oldText newText))) = oldText
  /\ join [newline]
       (map d_content
          (List.filter (fun d => negb (is_remove d))
             (computeDiff oldText newText))) = newText.
Proof.
  destruct (diff_sides oldText newText) as [E1 E2].
  destruct (diff_sides_contents oldText newText) as [C1 C2].
  split; [exact E1|]. split; [exact E2|].
  rewrite C1, C2. split; apply join_split_lines.
Qed.

(** ** The unchanged lines *)

Lemma same_count ro rn :
  length (List.filter is_same (backtrack ro rn)) = dp ro rn.
Proof.
  revert ro rn. apply backtrack_ind.
  - reflexivity.
  - intros b rn IH. rewrite backtrack_nil_l, dp_nil_l.
    now rewrite dp_nil_l in IH.
  - intros a ro IH. rewrite backtrack_nil_r, dp_nil_r.
    now rewrite dp_nil_r in IH.
  - intros a ro b rn Hsame Hadd Hrem. rewrite backtrack_cons, dp_cons.
    destruct (str_eqb a b) eqn:E.
    + cbn [List.filter is_same d_type length]. now rewrite (Hsame eq_refl).
    + destruct (Nat.leb_spec (dp ro (b :: rn)) (dp (a :: ro) rn)) as [H | H];
        cbn [List.filter is_same d_type].
      * rewrite (Hadd eq_refl). lia.
      * rewrite (Hrem eq_refl). lia.
Qed.

Lemma same_lines_sublist l :
  sublist (map d_content (List.filter is_same l))
    (map d_content (List.filter (fun d => negb (is_add d)) l))
  /\ sublist (map d_content (List.filter is_same l))
       (map d_content (List.filter (fun d => negb (is_remove d)) l)).
Proof.
  induction l as [|d l [IH1 IH2]]; [split; constructor|].
  destruct d as [[] c o n];
    cbn [List.filter is_same is_add is_remove d_type negb map d_content];
    split; try assumption;
    try (apply sublist_skip; assumption);
    try (apply sublist_cons; assumption).
Qed.

Lemma sublist_rev {A} (l1 l2 : list A) :
  sublist l1 l2 -> sublist (rev l1) (rev l2).
Proof.
  induction 1 as [|x l1 l2 _ IH|x l1 l2 _ IH]; cbn [rev].
  - constructor.
  - apply sublist_app; [exact IH | reflexivity].
  - now apply sublist_inserts_r.
Qed.

(** no common subsequence of the lines is longer than the table says *)
Lemma dp_bounds_common ro rn c :
  sublist c ro -> sublist c rn -> (length c <= dp ro rn)%nat.
Proof.
  revert c. pattern ro, rn. revert ro rn. apply backtrack_ind.
  - intros c H _. apply sublist_nil_r in H as ->. cbn. lia.
  - intros b rn _ c H _. apply sublist_nil_r in H as ->. cbn. lia.
  - intros a ro _ c _ H. apply sublist_nil_r in H as ->. cbn. lia.
  - intros a ro b rn Hsame Hadd Hrem c Ho Hn. rewrite dp_cons.
    apply sublist_cons_r in Ho as [Ho | (c' & -> & Ho)];
      apply sublist_cons_r in Hn as [Hn | (c'' & Ec & Hn)].
    + destruct (str_eqb a b) eqn:E.
      * specialize (Hsame eq_refl c Ho Hn). lia.
      * assert (Hb : sublist c (b :: rn)) by now apply sublist_cons.
        specialize (Hrem eq_refl c Ho Hb). lia.
    + subst c. destruct (str_eqb a b) eqn:E.
      * assert (Ho' : sublist c'' ro).
        { etransitivity; [|exact Ho]. apply sublist_cons. reflexivity. }
        specialize (Hsame eq_refl c'' Ho' Hn). cbn [length]. lia.
      * assert (Hb : sublist (b :: c'') (b :: rn)) by now apply sublist_skip.
        specialize (Hrem eq_refl (b :: c'') Ho Hb). lia.
    + destruct (str_eqb a b) eqn:E.
      * assert (Hn' : sublist c' rn).
        { etransitivity; [|exact Hn]. apply sublist_cons. reflexivity. }
        specialize (Hsame eq_refl c' Ho Hn'). cbn [length]. lia.
      * assert (Ha : sublist (a :: c') (a :: ro)) by now apply sublist_skip.
        specialize (Hadd eq_refl (a :: c') Ha Hn). lia.
    + injection Ec as <- <-. rewrite str_eqb_refl.
      specialize (Hsame (str_eqb_refl a) c' Ho Hn). cbn [length]. lia.
Qed.

(** X22.  The lines a diff marks as unchanged form a longest common
    subsequence of the lines of the two texts: they occur in both, in
    order, and no sequence of lines that occurs in both is longer. *)
Theorem diff_keeps_a_longest_common_part oldText newText common :
  sublist (map d_content (List.filter is_same (computeDiff oldText newText)))
    (split_lines oldText)
  /\ sublist
       (map d_content (List.filter is_same (computeDiff oldText newText)))
       (split_lines newText)
  /\ (sublist common (split_lines oldText) ->
      sublist common (split_lines newText) ->
      (length common
       <= length (List.filter is_same (computeDiff oldText newText)))%nat).
Proof.
  destruct (same_lines_sublist (computeDiff oldText newText)) as [S1 S2].
  pose proof (diff_sides_contents oldText newText) as [C1 C2].
  rewrite C1 in S1. rewrite C2 in S2.
  split; [exact S1|]. split; [exact S2|]. intros Ho Hn.
  unfold computeDiff. rewrite filter_rev, length_rev, same_count.
  rewrite <- (length_rev common).
  apply dp_bounds_common; now apply sublist_rev.
Qed.

Lemma diff_keeps_a_longest_common_part_witness :
  (2 <= length (List.filter is_same
                  (computeDiff old_text_example new_text_example)))%nat.
Proof.
  refine (proj2 (proj2 (diff_keeps_a_longest_common_part old_text_example
                          new_text_example [js "# Title"; js "gamma"])) _ _).
  - vm_compute. repeat constructor.
  - vm_compute. repeat constructor.
Defined.

(** ** Identical texts *)

Lemma backtrack_same ro :
  Forall (fun d => is_same d = true) (backtrack ro ro).
Proof.
  induction ro as [|a ro IH]; [constructor|].
  rewrite backtrack_cons, str_eqb_refl. now constructor.
Qed.

Lemma filter_all {A} (f : A -> bool) l :
  length (List.filter f l) = 0%nat -> Forall (fun x => f x = false) l.
Proof.
  induction l as [|x l IH]; [constructor|]. cbn [List.filter].
  destruct (f x) eqn:E; [discriminate|]. intros H. constructor; auto.
Qed.

Lemma filter_keep_all {A} (f : A -> bool) l :
  Forall (fun x => f x = false) l ->
  List.filter (fun x => negb (f x)) l = l.
Proof.
  induction 1 as [|x l Hx _ IH]; [reflexivity|]. cbn [List.filter].
  now rewrite Hx, IH.
Qed.

(** X23.  The viewer reports a version as identical to the current content
    exactly when the two texts are equal. *)
Theorem identical_means_equal oldText newText :
  isIdentical (computeDiff oldText newText) = true <-> oldText = newText.
Proof.
  unfold isIdentical, added, removed.
  rewrite andb_true_iff, !Nat.eqb_eq. split.
  - intros [Ha Hr]. apply filter_all, filter_keep_all in Ha, Hr.
    pose proof (diff_sides_contents oldText newText) as [C1 C2].
    rewrite Ha in C1. rewrite Hr in C2.
    apply split_lines_inj. congruence.
  - intros <-. unfold computeDiff. rewrite !filter_rev, !length_rev.
    pose proof (backtrack_same (rev (split_lines oldText))) as H.
    split; (rewrite filter_quiet; [reflexivity|]);
      (eapply Forall_impl; [exact H|]); intros d Hd;
      unfold is_same, is_add, is_remove in *; now destruct (d_type d).
Qed.

Lemma identical_means_equal_witness :
  isIdentical (computeDiff old_text_example old_text_example) = true.
Proof.
  apply (proj2 (identical_means_equal old_text_example old_text_example)).
  reflexivity.
Defined.


(** * Slugs *)

Lemma greedy_star_total {R} p (f : jsstring -> jsstring -> R) s :
  greedy_star p s (fun cap rest => Some (f cap rest))
  = Some (f (take_while p s) (drop_while p s)).
Proof.
  revert f; induction s as [|c s IH]; intros f; [reflexivity|].
  cbn [greedy_star take_while drop_while].
  destruct (p c); [|reflexivity].
  now rewrite (IH (fun cap rest => f (c :: cap) rest)).
Qed.

(** ** Runs of separators become one dash *)

Lemma collapse_unit b c s :
  is_slug_unit c = true ->
  replace_matches [dash] (split_matches separatorRegex_at b 0 (c :: s))
  = c :: replace_matches [dash] (split_matches separatorRegex_at false 0 s).
Proof.
  intros Hc. rewrite split_matches_kept; [reflexivity|].
  unfold separatorRegex_at, greedy_plus, not_slug_unit. now rewrite Hc.
Qed.

Lemma collapse_separator b c s :
  is_slug_unit c = false ->
  replace_matches [dash] (split_matches separatorRegex_at b 0 (c :: s))
  = dash :: replace_matches [dash]
              (split_matches separatorRegex_at false 0
                 (drop_while not_slug_unit s)).
Proof.
  intros Hc. rewrite <- (take_drop_while not_slug_unit s) at 1.
  rewrite (split_matches_found _ _ _ _ tt); [reflexivity|].
  unfold separatorRegex_at, greedy_plus, not_slug_unit at 1. rewrite Hc.
  cbn [negb]. rewrite (greedy_star_total _ (fun _ rest => (tt, rest))).
  now rewrite take_drop_while.
Qed.

Lemma collapse_shape n :
  forall s b, (length s <= n)%nat ->
    Forall slug_unit_or_dash
      (replace_matches [dash] (split_matches separatorRegex_at b 0 s))
    /\ no_double_dash
         (replace_matches [dash] (split_matches separatorRegex_at b 0 s))
    /\ (forall c s', s = c :: s' -> is_slug_unit c = true ->
          exists t,
            replace_matches [dash] (split_matches separatorRegex_at b 0 s)
            = c :: t).
Proof.
  induction n as [|n IH]; intros s b Hlen.
  - destruct s; [|cbn in Hlen; lia]. repeat split; [constructor | easy].
  - destruct s as [|c s]; [repeat split; [constructor | easy]|].
    cbn [length] in Hlen. destruct (is_slug_unit c) eqn:Hc.
    + rewrite collapse_unit by exact Hc.
      destruct (IH s false) as (H1 & H2 & H3); [lia|].
      split; [constructor; [now left | exact H1]|]. split.
      * cbn [no_double_dash]. split; [|exact H2].
        destruct (replace_matches [dash]
                    (split_matches separatorRegex_at false 0 s));
          [exact I|].
        intros [-> _]. discriminate.
      * intros c' s' [= <- <-] _. eauto.
    + rewrite collapse_separator by exact Hc.
      pose proof (take_drop_while not_slug_unit s) as Hsplit.
      assert (Hshort : (length (drop_while not_slug_unit s) <= n)%nat).
      { rewrite <- Hsplit in Hlen. rewrite length_app in Hlen. lia. }
      destruct (IH (drop_while not_slug_unit s) false Hshort)
        as (H1 & H2 & H3).
      split; [constructor; [now right | exact H1]|]. split.
      * cbn [no_double_dash]. split; [|exact H2].
        destruct (drop_while not_slug_unit s) as [|d s3] eqn:D;
          [exact I|].
        pose proof (drop_while_head _ _ _ _ D) as Hd.
        unfold not_slug_unit in Hd. apply negb_false_iff in Hd.
        destruct (H3 d s3 eq_refl Hd) as [t ->].
        intros [_ ->]. discriminate.
      * intros c' s' [= <- <-] Hc'. congruence.
Qed.

(** ** The dashes at the two ends *)

Lemma edges_inner u :
  replace_matches [] (split_matches edgeRegex_at false 0 u)
  = drop_last_dash u.
Proof.
  induction u as [|c u IH]; [reflexivity|].
  cbn [split_matches edgeRegex_at drop_last_dash].
  destruct (c =? dash).
  - destruct u as [|d u]; [reflexivity|].
    cbn [replace_matches flat_map app]. f_equal. exact IH.
  - destruct u as [|d u]; [reflexivity|].
    cbn [replace_matches flat_map app]. f_equal. exact IH.
Qed.

Lemma edges_outer t :
  replace_matches [] (split_matches edgeRegex_at true 0 t)
  = match t with
    | c :: u => if c =? dash then drop_last_dash u else c :: drop_last_dash u
    | [] => []
    end.
Proof.
  destruct t as [|c u]; [reflexivity|].
  cbn [split_matches edgeRegex_at]. destruct (c =? dash).
  - rewrite Nat.sub_diag. cbn [replace_matches flat_map app].
    apply edges_inner.
  - cbn [replace_matches flat_map app]. f_equal. apply edges_inner.
Qed.

Lemma drop_last_dash_cons c u :
  c <> dash -> drop_last_dash (c :: u) = c :: drop_last_dash u.
Proof.
  intros Hc. cbn [drop_last_dash]. destruct u; [|reflexivity].
  now destruct (N.eqb_spec c dash).
Qed.

Lemma drop_last_dash_nil u :
  drop_last_dash u = [] -> u = [] \/ u = [dash].
Proof.
  destruct u as [|c [|d u]]; cbn [drop_last_dash]; [now left | | discriminate].
  destruct (N.eqb_spec c dash) as [-> | _]; [now right | discriminate].
Qed.

Lemma drop_last_dash_Forall (P : N -> Prop) u :
  Forall P u -> Forall P (drop_last_dash u).
Proof.
  induction 1 as [|c u Hc Hu IH]; [constructor|]. cbn [drop_last_dash].
  destruct u as [|d u]; [destruct (c =? dash); repeat constructor; exact Hc|].
  constructor; [exact Hc | exact IH].
Qed.

Lemma no_double_dash_tail c t : no_double_dash (c :: t) -> no_double_dash t.
Proof. now intros [_ H]. Qed.

Lemma drop_last_dash_keeps u :
  no_double_dash u -> no_double_dash (drop_last_dash u).
Proof.
  induction u as [|c u IH]; [easy|]. intros [Hhead Htail].
  destruct u as [|d u]; [cbn; now destruct (c =? dash)|].
  change (drop_last_dash (c :: d :: u)) with (c :: drop_last_dash (d :: u)).
  split; [|now apply IH].
  destruct (drop_last_dash (d :: u)) as [|e r] eqn:E; [exact I|].
  intros [-> ->]. apply Hhead. split; [reflexivity|].
  destruct u as [|d' u]; cbn [drop_last_dash] in E.
  - destruct (d =? dash); [discriminate | now injection E].
  - now injection E.
Qed.

Lemma drop_last_dash_last u :
  no_double_dash u -> last (drop_last_dash u) <> Some dash.
Proof.
  induction u as [|c u IH]; [easy|]. intros [Hhead Htail].
  destruct u as [|d u].
  - cbn [drop_last_dash]. destruct (N.eqb_spec c dash) as [-> | Hc]; [easy|].
    cbn. congruence.
  - change (drop_last_dash (c :: d :: u)) with (c :: drop_last_dash (d :: u)).
    destruct (drop_last_dash (d :: u)) as [|e r] eqn:E.
    + apply drop_last_dash_nil in E as [E | E]; [discriminate|].
      injection E as -> ->. cbn. intros [= ->]. now apply Hhead.
    + rewrite last_cons_cons. now apply IH.
Qed.

Lemma no_double_dash_occurs t :
  no_double_dash t -> ~ occurs [dash; dash] t.
Proof.
  intros H (u & v & ->). induction u as [|c u IH].
  - cbn in H. destruct H as [H _]. apply H. now split.
  - apply IH. now apply no_double_dash_tail in H.
Qed.

(** X24.  Whatever [toLowerCase] returns, a slug is made of the units a to z
    and 0 to 9 and of single dashes between them: it holds no other unit, no
    two dashes in a row, and neither starts nor ends with a dash. *)
Theorem slug_shape (toLowerCase : jsstring -> jsstring) str :
  Forall (fun c => is_slug_unit c = true \/ c = dash)
    (slugify toLowerCase str)
  /\ ~ occurs [dash; dash] (slugify toLowerCase str)
  /\ head (slugify toLowerCase str) <> Some dash
  /\ last (slugify toLowerCase str) <> Some dash.
Proof.
  unfold slugify.
  destruct (collapse_shape (length (toLowerCase str)) (toLowerCase str) true
              (Nat.le_refl _)) as (Hall & Hndd & _).
  revert Hall Hndd.
  generalize (replace_matches [dash]
                (split_matches separatorRegex_at true 0 (toLowerCase str)))
    as t.
  intros t Hall Hndd. rewrite edges_outer.
  destruct t as [|c u]; [repeat split; [constructor | | easy | easy]|].
  - intros (a & b & H). now destruct a.
  - apply Forall_cons in Hall as [Hc Hu].
    pose proof (no_double_dash_tail _ _ Hndd) as Hu'.
    destruct (N.eqb_spec c dash) as [-> | Hne].
    + split; [now apply drop_last_dash_Forall|].
      split; [now apply no_double_dash_occurs, drop_last_dash_keeps|].
      split; [|now apply drop_last_dash_last].
      destruct u as [|d u]; [easy|].
      assert (Hd : d <> dash) by (intros ->; now apply (proj1 Hndd)).
      rewrite drop_last_dash_cons by exact Hd. cbn. congruence.
    + rewrite <- drop_last_dash_cons by exact Hne.
      split; [apply drop_last_dash_Forall; now constructor|].
      split; [now apply no_double_dash_occurs, drop_last_dash_keeps|].
      split; [|now apply drop_last_dash_last].
      rewrite drop_last_dash_cons by exact Hne. cbn. congruence.
Qed.

Example slugify_example :
  slugify ascii_lower (js "  My App: v2! ") = js "my-app-v2".
Proof. reflexivity. Qed.

(** * The active document *)

Lemma index_entries_In {V} n k (v : V) o :
  In (n, (k, v)) (index_entries o) <-> In (k, v) o /\ array_index k = Some n.
Proof.
  unfold index_entries. rewrite in_flat_map. split.
  - intros ([k' v'] & Hin & H). cbn [fst] in H.
    destruct (array_index k') as [n'|] eqn:E; [|easy].
    destruct H as [[= <- <- <-] | []]. now split.
  - intros [Hin E]. exists (k, v). split; [exact Hin|]. cbn [fst].
    rewrite E. now left.
Qed.

(** the first key of an object that has array-index keys is the least of
    them *)
Lemma obj_keys_index_first {V} (o : JsObject V) k0 :
  In k0 (map fst o) -> is_Some (array_index k0) ->
  exists k n ks,
    obj_keys o = k :: ks /\ array_index k = Some n /\ In k (map fst o)
    /\ forall k' n', In k' (map fst o) -> array_index k' = Some n' ->
                     n <= n'.
Proof.
  intros Hin [n0 E0]. apply in_map_iff in Hin as ([k0' v0] & <- & Hin).
  cbn [fst] in E0.
  assert (Hidx : In (n0, (k0', v0)) (index_entries o))
    by now apply index_entries_In.
  unfold obj_keys, obj_entries.
  pose proof (array_sort_sorted
                (fun a b : N * (jsstring * V) =>
                   (Z.of_N (fst a) - Z.of_N (fst b))%Z)
                ltac:(intros; lia) ltac:(intros; lia) (index_entries o))
    as Hsorted.
  assert (Hperm : forall x,
             In x (array_sort
                     (fun a b : N * (jsstring * V) =>
                        (Z.of_N (fst a) - Z.of_N (fst b))%Z)
                     (index_entries o))
             <-> In x (index_entries o))
    by (intros x; apply array_sort_In).
  destruct (array_sort _ (index_entries o)) as [|[n [k v]] sorted] eqn:Es.
  - now apply Hperm in Hidx.
  - assert (Hhead : In (n, (k, v)) (index_entries o))
      by (apply Hperm; now left).
    apply index_entries_In in Hhead as [Hk Ek].
    exists k, n. eexists. split; [reflexivity|]. split; [exact Ek|].
    split; [now apply (in_map fst) in Hk|].
    intros k' n' Hk' Ek'. apply in_map_iff in Hk' as ([k'' v'] & <- & Hk').
    cbn [fst] in Ek'.
    assert (H' : In (n', (k'', v')) ((n, (k, v)) :: sorted))
      by (apply Hperm; now apply index_entries_In).
    destruct H' as [[= -> _ _] | H']; [lia|].
    apply StronglySorted_inv in Hsorted as [_ Hall].
    rewrite List.Forall_forall in Hall. specialize (Hall _ H').
    cbn [fst] in Hall. lia.
Qed.

(** X25.  After a documents update the active document is the first key of
    the new documents in enumeration order, set even when no session is
    loaded: for new documents none of which is named by an array index, the
    key created first (unless it is the empty string); when some are named by
    an array index, the one with the least index, wherever it stands. *)
Theorem documents_update_selects_first_key now newDocs p :
  (Forall (fun e => array_index (fst e) = None) newDocs ->
   activeDoc (handleDocumentsUpdate now newDocs p)
   = match newDocs with
     | ((_ :: _) as k, _) :: _ => Some k
     | _ => activeDoc p
     end)
  /\ (forall k0, In k0 (map fst newDocs) -> is_Some (array_index k0) ->
      exists k n,
        activeDoc (handleDocumentsUpdate now newDocs p) = Some k
        /\ array_index k = Some n /\ In k (map fst newDocs)
        /\ forall k' n', In k' (map fst newDocs) ->
                         array_index k' = Some n' -> n <= n').
Proof.
  split.
  - intros H. unfold handleDocumentsUpdate, obj_keys.
    rewrite (obj_entries_named newDocs H).
    destruct newDocs as [|[[|c k] v] rest]; cbn [map fst];
      destruct (session p); reflexivity.
  - intros k0 Hin Hidx.
    destruct (obj_keys_index_first newDocs k0 Hin Hidx)
      as (k & n & ks & Hkeys & Ek & Hk & Hleast).
    exists k, n. split; [|now repeat split].
    unfold handleDocumentsUpdate. rewrite Hkeys.
    destruct k as [|c k]; [discriminate|].
    destruct (session p); reflexivity.
Qed.

Lemma documents_update_selects_first_key_witness :
  exists k n,
    activeDoc (handleDocumentsUpdate 5 numbered_documents
                 (example_page two_documents INITIAL_VERIFIER_STATE))
    = Some k
    /\ array_index k = Some n /\ n <= 2024.
Proof.
  destruct (proj2 (documents_update_selects_first_key 5 numbered_documents
                     (example_page two_documents INITIAL_VERIFIER_STATE))
              (js "2024"))
    as (k & n & H1 & H2 & _ & H3).
  - cbn. tauto.
  - vm_compute. eauto.
  - exists k, n. split; [exact H1|]. split; [exact H2|].
    apply (H3 (js "2024")); [cbn; tauto | reflexivity].
Defined.

(** * The diff viewer *)

Lemma newest_goes_first l v :
  (forall w, In w l -> (timestamp w < timestamp v)%Z) ->
  array_sort newest_first (l ++ [v]) = v :: array_sort newest_first l.
Proof.
  intros H. unfold array_sort. rewrite foldr_app. cbn [foldr sort_insert].
  induction l as [|x l IH]; [reflexivity|]. cbn [foldr].
  rewrite IH by (intros w Hw; apply H; now right).
  cbn [sort_insert]. unfold newest_first at 1.
  specialize (H x (or_introl eq_refl)).
  destruct (Z.leb_spec (timestamp v - timestamp x) 0); [lia | reflexivity].
Qed.

(** X26.  The diff viewer compares, at first, a newest version of the
    versions it is given with the current content; and with a selected index
    that lies past the end of the versions it throws. *)
Theorem viewer_selects_a_newest_version selectedIdx currentContent versions :
  ((length versions <= selectedIdx)%nat ->
   DiffViewer selectedIdx currentContent versions = Throw TypeError)
  /\ (versions <> [] ->
      exists v,
        In v versions
        /\ (forall w, In w versions -> (timestamp w <= timestamp v)%Z)
        /\ DiffViewer 0 currentContent versions
           = Normal (computeDiff (content v) currentContent)).
Proof.
  unfold DiffViewer. split.
  - intros H. rewrite lookup_ge_None_2; [reflexivity|].
    now rewrite array_sort_length.
  - intros Hne.
    pose proof (newest_first_sorted versions) as Hsorted.
    assert (Hperm : forall x, In x (array_sort newest_first versions)
                              <-> In x versions)
      by (intros x; apply array_sort_In).
    destruct (array_sort newest_first versions) as [|v sorted] eqn:E.
    + destruct versions as [|w l]; [congruence|].
      exfalso. apply (Hperm w). now left.
    + exists v. split; [apply Hperm; now left|]. split; [|reflexivity].
      intros w Hw. apply Hperm in Hw as [<- | Hw]; [lia|].
      apply StronglySorted_inv in Hsorted as [_ Hall].
      rewrite List.Forall_forall in Hall. now apply Hall.
Qed.

Lemma viewer_selects_a_newest_version_witness :
  exists v,
    In v five_versions
    /\ (forall w, In w five_versions -> (timestamp w <= timestamp v)%Z)
    /\ DiffViewer 0 (js "now") five_versions
       = Normal (computeDiff (content v) (js "now")).
Proof.
  apply (proj2 (viewer_selects_a_newest_version 0 (js "now") five_versions)).
  discriminate.
Defined.

(** X27.  A snapshot of a document with content [A], taken later than every
    version recorded for it, followed by a merge of content [B] for it: when
    the document is then opened in diff mode, the preview shows the diff
    from [A] to [B]. *)
Theorem preview_shows_the_last_change t1 t2 p prev docs src newDocs k A B :
  session p = Some prev ->
  is_Some (own_get k (s_documents prev)) ->
  obj_wf docs -> own_get k docs = Some A ->
  obj_wf newDocs -> own_get k newDocs = Some B ->
  k <> [] ->
  (forall w, In w (s_documentHistory prev) -> docType w = k ->
             (timestamp w < t1)%Z) ->
  preview_diff 0
    (setActiveDoc k
       (handleDocumentsUpdate t2 newDocs
          (handleSnapshotVersions t1 docs src p)))
  = Some (Normal (computeDiff A B)).
Proof.
  intros Hs Hlive Hwf HA Hwf' HB Hk Hold.
  assert (Hsession :
            session (handleDocumentsUpdate t2 newDocs
                       (handleSnapshotVersions t1 docs src p))
            = Some {| s_id := s_id prev; s_name := s_name prev;
                      s_instructionKey := s_instructionKey prev;
                      s_createdAt := s_createdAt prev; s_updatedAt := t2;
                      s_messages := s_messages prev;
                      s_documents :=
                        merge_documents newDocs (s_documents prev);
                      s_documentHistory :=
                        s_documentHistory prev
                        ++ new_versions t1 docs src |}).
  { unfold handleSnapshotVersions. rewrite Hs.
    unfold handleDocumentsUpdate, set_session; cbn [session].
    destruct (obj_keys newDocs) as [|[|? ?] ?]; reflexivity. }
  unfold preview_diff, setActiveDoc; cbn [session activeDoc].
  rewrite Hsession. destruct k as [|c k]; [congruence|].
  cbn [s_documentHistory s_documents].
  rewrite versions_of_app, (new_versions_of _ A) by assumption.
  rewrite (merge_documents_get _ B) by (try assumption; now left).
  destruct (versions_of (c :: k) (s_documentHistory prev) ++ _) eqn:E;
    [now apply app_eq_nil in E as [_ E]|].
  rewrite <- E. unfold DiffViewer. rewrite newest_goes_first; [reflexivity|].
  intros w Hw. apply versions_of_In in Hw as [Hw Hd]. cbn [timestamp].
  now apply Hold.
Qed.

Lemma preview_shows_the_last_change_witness :
  preview_diff 0
    (setActiveDoc (js "PRD")
       (handleDocumentsUpdate 6 [(js "PRD", js "B")]
          (handleSnapshotVersions 5 [(js "PRD", js "A")] edited
             (example_page [(js "PRD", js "A")] INITIAL_VERIFIER_STATE))))
  = Some (Normal (computeDiff (js "A") (js "B"))).
Proof.
  apply (preview_shows_the_last_change 5 6 _
           (example_session [(js "PRD", js "A")] [])).
  - reflexivity.
  - cbn. eauto.
  - unfold obj_wf. vm_compute. repeat constructor. intros H. inversion H.
  - reflexivity.
  - unfold obj_wf. vm_compute. repeat constructor. intros H. inversion H.
  - reflexivity.
  - discriminate.
  - intros w [].
Defined.
